(** * Key-dependent permutations of integers

    A shallow embedding of the Go package [permutation]
    (github.com/fasaxc/permutation): the FFX-A2 engine over AES, the
    SHAKE128 Feistel engine and the cycle-walking adapter [ArbitraryN],
    together with the properties of its specification.

    Conventions.
    - Go [int], [uint64] and [*big.Int] values are integers of [Z]; the
      wrap-around of the machine types is written out where the code
      converts.
    - Byte slices are [list byte]; fixed arrays [[16]byte] are lists kept at
      length 16 by [block16].
    - Methods mutate their receiver: they are computations of the monad [M]
      over the receiver's struct; a Go panic is the outcome [Panic]. *)

From Stdlib Require Import ZArith List Lia Bool.
From coqutil Require Import Byte Word.LittleEndianList.
Import ListNotations.
Local Open Scope Z_scope.

(** ** Outcomes of a call and the state monad of a receiver *)

Inductive panic : Type :=
| InputOutOfRange       (* "input %v is outside range of permutation [0, %v)" *)
| LengthBitsOutOfRange  (* "lengthBits must be ..." of the constructors *)
| BufferTooSmall        (* math/big: FillBytes on a value that does not fit *)
| SliceOutOfBounds.     (* Go run time: slice bounds out of range *)

Inductive result (A : Type) : Type :=
| Ret (a : A)
| Panic (e : panic)
| OutOfFuel.
Arguments Ret {A} a.
Arguments Panic {A} e.
Arguments OutOfFuel {A}.

Definition M (S A : Type) : Type := S -> result A * S.

Definition ret {S A : Type} (a : A) : M S A := fun s => (Ret a, s).

Definition bind {S A B : Type} (m : M S A) (k : A -> M S B) : M S B :=
  fun s =>
    match m s with
    | (Ret a, s') => k a s'
    | (Panic e, s') => (Panic e, s')
    | (OutOfFuel, s') => (OutOfFuel, s')
    end.

Definition get {S : Type} : M S S := fun s => (Ret s, s).
Definition gets {S A : Type} (f : S -> A) : M S A := fun s => (Ret (f s), s).
Definition modify {S : Type} (f : S -> S) : M S unit := fun s => (Ret tt, f s).
Definition throw {S A : Type} (e : panic) : M S A := fun s => (Panic e, s).
Definition lift {S A : Type} (r : result A) : M S A := fun s => (r, s).

(** [zoom] runs a computation of a field's struct inside the enclosing
    struct: a method call on a member. *)
Definition zoom {S T A : Type} (proj : S -> T) (upd : S -> T -> S) (m : M T A)
  : M S A :=
  fun s => let '(r, t') := m (proj s) in (r, upd s t').

(** The result of a method called on a freshly constructed object. *)
Definition call {S A : Type} (new : result S) (method : M S A) : result A :=
  match new with
  | Ret s => fst (method s)
  | Panic e => Panic e
  | OutOfFuel => OutOfFuel
  end.

Declare Scope go_scope.
Delimit Scope go_scope with go.
Notation "x <- c1 ;; c2" := (bind c1 (fun x => c2))
  (at level 61, c1 at next level, right associativity) : go_scope.
Notation "' pat <- c1 ;; c2" := (bind c1 (fun x => match x with pat => c2 end))
  (at level 61, pat pattern, c1 at next level, right associativity) : go_scope.
Notation "c1 ;; c2" := (bind c1 (fun _ => c2))
  (at level 61, right associativity) : go_scope.
Local Open Scope go_scope.

(** ** Machine integers, [encoding/binary], [math/big] *)

Definition uint64 (z : Z) : Z := z mod 2 ^ 64.
Definition int64 (z : Z) : Z := (z + 2 ^ 63) mod 2 ^ 64 - 2 ^ 63.
Definition to_byte (z : Z) : byte := byte.of_Z z.
Definition len {A : Type} (l : list A) : Z := Z.of_nat (length l).

(** A value stored in, or copied into, a [[16]byte] array. *)
Definition block16 (l : list byte) : list byte :=
  firstn 16 (l ++ repeat Byte.x00 16).

Module binary.
(** [binary.BigEndian.PutUint64] and [Uint64] on an 8-byte slice. *)
Definition BigEndian_PutUint64 (v : Z) : list byte := rev (le_split 8 v).
Definition BigEndian_Uint64 (b : list byte) : Z := le_combine (rev (firstn 8 b)).
Definition BigEndian_PutUint16 (v : Z) : list byte := rev (le_split 2 v).
Definition LittleEndian_PutUint64 (v : Z) : list byte := le_split 8 v.
End binary.

Module big.
(** [math/big.Int]: sign and magnitude; And, Or, Xor and Rsh act on the
    two's complement, as [Z.land], [Z.lor], [Z.lxor] and [Z.shiftr] do. *)
Definition BitLen (x : Z) : Z :=
  if Z.abs x =? 0 then 0 else Z.log2 (Z.abs x) + 1.
Definition Uint64 (x : Z) : Z := Z.abs x mod 2 ^ 64.
Definition Int64 (x : Z) : Z :=
  let v := int64 (Z.abs x mod 2 ^ 64) in
  if x <? 0 then int64 (- v) else v.
Definition SetInt64 (x : Z) : Z := x.
Definition SetUint64 (x : Z) : Z := x.
Definition Cmp (x y : Z) : Z :=
  match x ?= y with Lt => -1 | Eq => 0 | Gt => 1 end.
(** [x.FillBytes(buf)] with [len(buf) = n]. *)
Definition FillBytes (x : Z) (n : nat) : result (list byte) :=
  if Z.abs x <? 2 ^ (8 * Z.of_nat n)
  then Ret (rev (le_split n (Z.abs x)))
  else Panic BufferTooSmall.
Definition SetBytes (b : list byte) : Z := le_combine (rev b).
End big.

(** ** The round schedule of the specification *)

(** RoundSchedule, in the words of the specification:
    [<=9 -> 36, <=13 -> 30, <=19 -> 24, <=31 -> 18, else -> 12]. *)
Definition RoundSchedule (lengthBits : Z) : Z :=
  if lengthBits <=? 9 then 36
  else if lengthBits <=? 13 then 30
  else if lengthBits <=? 19 then 24
  else if lengthBits <=? 31 then 18
  else 12.

(** ** FFX: the FFX-A2 construction over AES *)

Module FFX.

Definition BlockSize : nat := 16.

Record t : Type := mk {
  lengthBits : Z;
  rounds : Z;
  (* Pre-calculated values. *)
  tweakLen : Z;
  mask : Z;
  p : list byte;
  encryptedP : list byte;
  q : list byte;
  (* Scratch variables to avoid allocations. *)
  in_ : Z;
  masked : Z;
  inBytes : list byte;
  outBytes : list byte;
  (* cipher.Block: the block encryption under the derived key. *)
  aes : list byte -> list byte
}.

Definition set_tweakLen (s : t) (v : Z) : t :=
  mk (lengthBits s) (rounds s) v (mask s) (p s) (encryptedP s) (q s)
     (in_ s) (masked s) (inBytes s) (outBytes s) (aes s).
Definition set_p (s : t) (v : list byte) : t :=
  mk (lengthBits s) (rounds s) (tweakLen s) (mask s) v (encryptedP s) (q s)
     (in_ s) (masked s) (inBytes s) (outBytes s) (aes s).
Definition set_encryptedP (s : t) (v : list byte) : t :=
  mk (lengthBits s) (rounds s) (tweakLen s) (mask s) (p s) v (q s)
     (in_ s) (masked s) (inBytes s) (outBytes s) (aes s).
Definition set_q (s : t) (v : list byte) : t :=
  mk (lengthBits s) (rounds s) (tweakLen s) (mask s) (p s) (encryptedP s) v
     (in_ s) (masked s) (inBytes s) (outBytes s) (aes s).
Definition set_in (s : t) (v : Z) : t :=
  mk (lengthBits s) (rounds s) (tweakLen s) (mask s) (p s) (encryptedP s) (q s)
     v (masked s) (inBytes s) (outBytes s) (aes s).
Definition set_masked (s : t) (v : Z) : t :=
  mk (lengthBits s) (rounds s) (tweakLen s) (mask s) (p s) (encryptedP s) (q s)
     (in_ s) v (inBytes s) (outBytes s) (aes s).
Definition set_inBytes (s : t) (v : list byte) : t :=
  mk (lengthBits s) (rounds s) (tweakLen s) (mask s) (p s) (encryptedP s) (q s)
     (in_ s) (masked s) v (outBytes s) (aes s).
Definition set_outBytes (s : t) (v : list byte) : t :=
  mk (lengthBits s) (rounds s) (tweakLen s) (mask s) (p s) (encryptedP s) (q s)
     (in_ s) (masked s) (inBytes s) v (aes s).

(** [c.Encrypt(dst, src)] into a [[16]byte] array, for a cipher.Block [c]. *)
Definition Encrypt (c : list byte -> list byte) (src : list byte) : list byte :=
  block16 (c src).

(** [subtle.XORBytes(dst, x, y)] on [[16]byte] scratch and a block of [q]. *)
Definition XORBytes (x y : list byte) : list byte :=
  map (fun xy => byte.xor (fst xy) (snd xy)) (combine x y).

Section Constructor.
(** The primitives of the Go standard library, taken as parameters:
    [hkdf_Key key] is [hkdf.Key(sha256.New, key, nil, "permute.FFX", 16)]
    and [aes_NewCipher k] the block encryption of [aes.NewCipher(k)]. *)
Variable hkdf_Key : list byte -> list byte.
Variable aes_NewCipher : list byte -> list byte -> list byte.

Definition NewFFX (key : list byte) (lengthBits : Z) : result t :=
  if (lengthBits <? 8) || (lengthBits >? 128)
  then Panic LengthBitsOutOfRange
  else
    let aesKey := hkdf_Key key in
    let a := aes_NewCipher aesKey in
    let rounds :=
      if lengthBits <=? 9 then 36
      else if lengthBits <=? 13 then 30
      else if lengthBits <=? 19 then 24
      else if lengthBits <=? 31 then 18
      else 12 in
    (* Calculate mask for extracting B from the input. *)
    let mask := 1 in
    let split := lengthBits / 2 in
    let mask := Z.shiftl mask (lengthBits - split) in
    let mask := mask - 1 in
    let vers := 1 in
    let method := 2 in
    let addition := 0 in
    let radix := 2 in
    let P := binary.BigEndian_PutUint16 vers
             ++ [to_byte method; to_byte addition; to_byte radix;
                 to_byte lengthBits; to_byte split; to_byte rounds]
             ++ repeat Byte.x00 8 in
    Ret (mk lengthBits rounds (-1) mask P (repeat Byte.x00 16) []
            0 0 (repeat Byte.x00 16) (repeat Byte.x00 16) a).
End Constructor.

Definition calculateEncryptedP (split : Z) (tweakLen' : Z) : M t unit :=
  s <- get ;;
  if tweakLen' =? tweakLen s then ret tt (* already calculated. *)
  else
    modify (fun s => set_p s (firstn 8 (p s)
                               ++ binary.BigEndian_PutUint64 (uint64 tweakLen')
                               ++ skipn 16 (p s))) ;;
    modify (fun s => set_encryptedP s (Encrypt (aes s) (p s))) ;;
    modify (fun s => set_tweakLen s tweakLen').

(** The CBC-MAC loop [for len(remainingQ) > 0 { ... }] of [RoundFunc], on
    the scratch arrays [inBytes] and [outBytes].  Each iteration shortens
    [remainingQ], so [fuel = len(q)] iterations are never exceeded; the
    last component counts the iterations performed.  An iteration on
    fewer than 16 bytes panics: [remainingQ[:16]] is checked against the
    capacity and [remainingQ[16:]] against the length. *)
Fixpoint cbc_mac_loop (fuel : nat) (c : list byte -> list byte)
         (inB outB remainingQ : list byte) (iters : nat)
  : result (list byte * list byte * nat) :=
  match remainingQ with
  | [] => Ret (inB, outB, iters)
  | _ :: _ =>
      match fuel with
      | O => OutOfFuel
      | S fuel' =>
          if (length remainingQ <? BlockSize)%nat then Panic SliceOutOfBounds
          else
            let block := firstn BlockSize remainingQ in
            let remainingQ := skipn BlockSize remainingQ in
            let inB := XORBytes outB block in
            let outB := Encrypt c inB in
            cbc_mac_loop fuel' c inB outB remainingQ (S iters)
      end
  end.

Definition RoundFunc (i : Z) (B : Z) (tweak : list byte) : M t Z :=
  s <- get ;;
  let split := lengthBits s / 2 in
  (* binary.BigEndian.PutUint64(p.q[len(p.q)-8:], B) *)
  (if (length (q s) <? 8)%nat then throw SliceOutOfBounds
   else modify (fun s => set_q s (firstn (length (q s) - 8) (q s)
                                    ++ binary.BigEndian_PutUint64 B))) ;;
  (* CBC-MAC *)
  modify (fun s => set_outBytes s (block16 (encryptedP s))) ;;
  s <- get ;;
  '(inB, outB, _) <- lift (cbc_mac_loop (length (q s)) (aes s) (inBytes s)
                                        (outBytes s) (q s) 0) ;;
  modify (fun s => set_outBytes (set_inBytes s inB) outB) ;;
  s <- get ;;
  let out := binary.BigEndian_Uint64 (skipn 8 (outBytes s)) in
  let bitsToKeep :=
    if Z.land i 1 =? 0 then split else lengthBits s - split in
  let bitsToLose := 64 - bitsToKeep in
  let out := Z.shiftr (uint64 (Z.shiftl out bitsToLose)) bitsToLose in
  ret out.

(** [for len(p.q)%16 != 7 { p.q = append(p.q, 0) }] *)
Fixpoint pad_loop (fuel : nat) : M t unit :=
  s <- get ;;
  if len (q s) mod 16 =? 7 then ret tt
  else match fuel with
       | O => lift OutOfFuel
       | S fuel' =>
           modify (fun s => set_q s (q s ++ [Byte.x00])) ;;
           pad_loop fuel'
       end.

(** [for range 8 { p.q = append(p.q, 0) }] *)
Fixpoint zero_loop (n : nat) : M t unit :=
  match n with
  | O => ret tt
  | S n' => modify (fun s => set_q s (q s ++ [Byte.x00])) ;; zero_loop n'
  end.

(** [for i := range p.rounds { c = a ^ p.RoundFunc(i, b, nil); a = b; b = c }] *)
Fixpoint rounds_loop (n : nat) (i : Z) (a b : Z) : M t (Z * Z) :=
  match n with
  | O => ret (a, b)
  | S n' =>
      f <- RoundFunc i b [] ;;
      let c := Z.lxor a f in
      let a := b in
      let b := c in
      rounds_loop n' (i + 1) a b
  end.

(** The first block of [PermuteInPlace]: the halves [a] and [b] of the
    input. *)
Definition split_halves (inOut : Z) : M t (Z * Z) :=
  s <- get ;;
  let split := lengthBits s / 2 in
  modify (fun s => set_masked s (Z.land inOut (mask s))) ;;
  b <- gets (fun s => big.Uint64 (masked s)) ;;
  modify (fun s => set_masked s (Z.shiftr inOut (lengthBits s - split))) ;;
  a <- gets (fun s => big.Uint64 (masked s)) ;;
  ret (a, b).

(** The second block: the working buffer [q] for the tweak. *)
Definition build_q (tweak : list byte) : M t unit :=
  modify (fun s => set_q s tweak) ;;
  pad_loop 16 ;;
  modify (fun s => set_q s (q s ++ [to_byte 1])) ;;
  zero_loop 8.

(** The last block: the halves reassembled into [inOut]. *)
Definition join_halves (a b : Z) : M t Z :=
  s <- get ;;
  let split := lengthBits s / 2 in
  let inOut := big.SetUint64 a in
  let inOut := Z.shiftl inOut (lengthBits s - split) in
  modify (fun s => set_masked s (big.SetUint64 b)) ;;
  masked <- gets masked ;;
  let inOut := Z.lor inOut masked in
  modify (fun s => set_masked s (big.SetUint64 0)) ;;
  ret inOut.

(** PermuteInPlace calculates inOut's permutated value and stores it back
    into inOut; the model returns the new value of [inOut]. *)
Definition PermuteInPlace (inOut : Z) (tweak : list byte) : M t Z :=
  s <- get ;;
  let split := lengthBits s / 2 in
  '(a, b) <- split_halves inOut ;;
  calculateEncryptedP split (len tweak) ;;
  build_q tweak ;;
  rounds <- gets rounds ;;
  '(a, b) <- rounds_loop (Z.to_nat rounds) 0 a b ;;
  join_halves a b.

Definition PermuteInt (i : Z) : M t Z :=
  modify (fun s => set_in s (big.SetInt64 (int64 i))) ;;
  inp <- gets in_ ;;
  r <- PermuteInPlace inp [] ;;
  modify (fun s => set_in s r) ;;
  let out := int64 (big.Int64 r) in
  modify (fun s => set_in s (big.SetUint64 0)) ;;
  ret out.

End FFX.

(** ** [crypto/sha3]: a SHAKE handle *)

Module sha3.
(** A [*sha3.SHAKE]: the extendable-output function it computes ([xof m i]
    is byte [i] of the output stream for the absorbed message [m]), the
    bytes absorbed since the last [Reset] and the bytes already read. *)
Record SHAKE : Type := mkSHAKE {
  xof : list byte -> nat -> byte;
  absorbed : list byte;
  squeezed : nat
}.
Definition Reset (h : SHAKE) : SHAKE := mkSHAKE (xof h) [] 0.
Definition Write (h : SHAKE) (b : list byte) : SHAKE :=
  mkSHAKE (xof h) (absorbed h ++ b) (squeezed h).
Definition Read (h : SHAKE) (n : nat) : list byte * SHAKE :=
  (map (fun i => xof h (absorbed h) (squeezed h + i)%nat) (seq 0 n),
   mkSHAKE (xof h) (absorbed h) (squeezed h + n)%nat).
End sha3.

(** ** FeistelSHAKE128: a Feistel network with SHAKE128 as round function *)

Module FeistelSHAKE128.

Record t : Type := mk {
  key : list byte;
  lengthBits : Z;
  rounds : Z;
  (* Scratch variables to avoid allocations. *)
  in_ : Z;
  a : Z;
  b : Z;
  c : Z;
  f : Z;
  mask : Z;
  roundScratch : list byte;
  h : sha3.SHAKE
}.

(** The addresses [&p.in], [&p.a], ... held by the local pointer
    variables of [PermuteInPlace]. *)
Inductive ref : Type := in_ref | a_ref | b_ref | c_ref | f_ref | mask_ref.

Definition load (r : ref) (s : t) : Z :=
  match r with
  | in_ref => in_ s | a_ref => a s | b_ref => b s
  | c_ref => c s | f_ref => f s | mask_ref => mask s
  end.

Definition store (r : ref) (v : Z) (s : t) : t :=
  match r with
  | in_ref => mk (key s) (lengthBits s) (rounds s) v (a s) (b s) (c s) (f s)
                 (mask s) (roundScratch s) (h s)
  | a_ref => mk (key s) (lengthBits s) (rounds s) (in_ s) v (b s) (c s) (f s)
                (mask s) (roundScratch s) (h s)
  | b_ref => mk (key s) (lengthBits s) (rounds s) (in_ s) (a s) v (c s) (f s)
                (mask s) (roundScratch s) (h s)
  | c_ref => mk (key s) (lengthBits s) (rounds s) (in_ s) (a s) (b s) v (f s)
                (mask s) (roundScratch s) (h s)
  | f_ref => mk (key s) (lengthBits s) (rounds s) (in_ s) (a s) (b s) (c s) v
                (mask s) (roundScratch s) (h s)
  | mask_ref => mk (key s) (lengthBits s) (rounds s) (in_ s) (a s) (b s) (c s)
                   (f s) v (roundScratch s) (h s)
  end.

Definition set_roundScratch (s : t) (v : list byte) : t :=
  mk (key s) (lengthBits s) (rounds s) (in_ s) (a s) (b s) (c s) (f s)
     (mask s) v (h s).
Definition set_h (s : t) (v : sha3.SHAKE) : t :=
  mk (key s) (lengthBits s) (rounds s) (in_ s) (a s) (b s) (c s) (f s)
     (mask s) (roundScratch s) v.

Definition h_Write (data : list byte) : M t unit :=
  modify (fun s => set_h s (sha3.Write (h s) data)).

(** A slice [p.roundScratch[:n]]: Go checks [n] against the capacity,
    which is the length for a slice made by [make([]byte, m)]. *)
Definition slice_to (n : Z) : M t nat :=
  s <- get ;;
  if (n <? 0) || (len (roundScratch s) <? n) then throw SliceOutOfBounds
  else ret (Z.to_nat n).

(** Writing [data] through a slice [p.roundScratch[:length data]]. *)
Definition write_scratch (data : list byte) : M t unit :=
  modify (fun s => set_roundScratch s
                     (data ++ skipn (length data) (roundScratch s))).

Section Constructor.
(** [shake128 m i]: byte [i] of SHAKE128 on the message [m], the
    function behind [sha3.NewSHAKE128()]. *)
Variable shake128 : list byte -> nat -> byte.

Definition NewPowerOf2 (key : list byte) (lengthBits : Z) : result t :=
  if lengthBits <=? 1 then Panic LengthBitsOutOfRange
  else
    let rounds :=
      if lengthBits <=? 9 then 36
      else if lengthBits <=? 13 then 30
      else if lengthBits <=? 19 then 24
      else if lengthBits <=? 31 then 18
      else 12 in
    Ret (mk key lengthBits rounds 0 0 0 0 0 0 []
            (sha3.mkSHAKE shake128 [] 0)).
End Constructor.

Definition RoundFunc (round : Z) (b out : ref) (tweak : list byte) : M t ref :=
  s <- get ;;
  let '(inLenBits, outLenBits) :=
    if Z.land round 1 =? 0
    then (lengthBits s / 2, lengthBits s - lengthBits s / 2)
    else (lengthBits s - lengthBits s / 2, lengthBits s / 2) in
  (if len (roundScratch s) <? (lengthBits s + 7) / 8
   then modify (fun s => set_roundScratch s
                  (repeat Byte.x00 (Z.to_nat ((lengthBits s + 7) / 8))))
   else ret tt) ;;
  modify (fun s => set_h s (sha3.Reset (h s))) ;;
  h_Write (binary.LittleEndian_PutUint64 (uint64 (len (key s)))) ;;
  h_Write (key s) ;;
  h_Write (binary.LittleEndian_PutUint64 (uint64 outLenBits)) ;;
  h_Write (binary.LittleEndian_PutUint64 (uint64 round)) ;;
  (if len tweak >? 0
   then h_Write (binary.LittleEndian_PutUint64 (uint64 (len tweak))) ;;
        h_Write tweak
   else ret tt) ;;
  let inLenBytes := (inLenBits + 7) / 8 in
  n <- slice_to inLenBytes ;;
  bval <- gets (load b) ;;
  scratch <- lift (big.FillBytes bval n) ;;
  write_scratch scratch ;;
  h_Write scratch ;;
  let outLenBytes := (outLenBits + 7) / 8 in
  n <- slice_to outLenBytes ;;
  s <- get ;;
  let '(outBytes, h') := sha3.Read (h s) n in
  modify (fun s => set_h s h') ;;
  write_scratch outBytes ;;
  let rem := outLenBits mod 8 in
  outBytes <-
    (if negb (rem =? 0)
     then
       let mask := Z.shiftr 255 (8 - rem) in
       match outBytes with
       | [] => throw SliceOutOfBounds
       | b0 :: rest =>
           let outBytes := byte.and b0 (to_byte mask) :: rest in
           write_scratch outBytes ;; ret outBytes
       end
     else ret outBytes) ;;
  modify (store out (big.SetBytes outBytes)) ;;
  ret out.

(** [for i := range p.rounds { f = p.RoundFunc(i, b, f, tweak);
    c.Xor(a, f); a, b, c = b, c, a }] *)
Fixpoint rounds_loop (n : nat) (i : Z) (a b c f : ref) (tweak : list byte)
  : M t (ref * ref) :=
  match n with
  | O => ret (a, b)
  | S n' =>
      f <- RoundFunc i b f tweak ;;
      modify (fun s => store c (Z.lxor (load a s) (load f s)) s) ;;
      rounds_loop n' (i + 1) b c a f tweak
  end.

(** The first block of [PermuteInPlace]: the mask and the halves of the
    input, stored in [p.b] and [p.a]. *)
Definition split_halves (inOut : Z) : M t unit :=
  s <- get ;;
  let split := lengthBits s / 2 in
  let mask := mask_ref in
  modify (store mask (big.SetInt64 1)) ;;
  modify (fun s => store mask (Z.shiftl (load mask s) split) s) ;;
  modify (fun s => store mask (load mask s - 1) s) ;;
  modify (fun s => store b_ref (Z.land inOut (load mask s)) s) ;;
  modify (store a_ref (Z.shiftr inOut split)).

(** The last block: [out := inOut.Lsh(a, uint(split)); out.Or(out, b)]. *)
Definition join_halves (a b : ref) : M t Z :=
  s <- get ;;
  let split := lengthBits s / 2 in
  inOut <- gets (fun s => Z.shiftl (load a s) split) ;;
  out <- gets (fun s => Z.lor inOut (load b s)) ;;
  ret out.

(** PermuteInPlace calculates inOut's permutated value and stores it back
    into inOut; the model returns the new value of [inOut]. *)
Definition PermuteInPlace (inOut : Z) (tweak : list byte) : M t Z :=
  split_halves inOut ;;
  let a := a_ref in
  let b := b_ref in
  let c := c_ref in
  let f := f_ref in
  rounds <- gets rounds ;;
  '(a, b) <- rounds_loop (Z.to_nat rounds) 0 a b c f tweak ;;
  join_halves a b.

Definition PermuteInt (i : Z) : M t Z :=
  modify (store in_ref (big.SetInt64 (int64 i))) ;;
  inp <- gets (load in_ref) ;;
  r <- PermuteInPlace inp [] ;;
  modify (store in_ref r) ;;
  ret (int64 (big.Int64 r)).

End FeistelSHAKE128.

(** ** PowerOf2: the earlier revision of the SHAKE engine *)

(** The type [PowerOf2] of the earlier revision of the package (named
    [PermutationPowerOf2] in the first one, with the same code): the struct
    has the fields of [FeistelSHAKE128], the constructor is the same but
    for the text of its panic, and the methods take no tweak.
    [PermuteInPlace] computes the mask and the halves, and joins them at
    the end, by the statements of [FeistelSHAKE128.split_halves] and
    [FeistelSHAKE128.join_halves]. *)
Module PowerOf2.

Import FeistelSHAKE128.

Section Constructor.
Variable shake128 : list byte -> nat -> byte.

Definition NewPowerOf2 (key : list byte) (lengthBits : Z) : result t :=
  if lengthBits <=? 1 then Panic LengthBitsOutOfRange
  else
    let rounds :=
      if lengthBits <=? 9 then 36
      else if lengthBits <=? 13 then 30
      else if lengthBits <=? 19 then 24
      else if lengthBits <=? 31 then 18
      else 12 in
    Ret (mk key lengthBits rounds 0 0 0 0 0 0 []
            (sha3.mkSHAKE shake128 [] 0)).
End Constructor.

Definition RoundFunc (round : Z) (b out : ref) : M t ref :=
s <- get ;;
let '(inLenBits, outLenBits) :=
  if Z.land round 1 =? 0
  then (lengthBits s / 2, lengthBits s - lengthBits s / 2)
  else (lengthBits s - lengthBits s / 2, lengthBits s / 2) in
(if len (roundScratch s) <? (lengthBits s + 7) / 8
 then modify (fun s => set_roundScratch s
                (repeat Byte.x00 (Z.to_nat ((lengthBits s + 7) / 8))))
 else ret tt) ;;
modify (fun s => set_h s (sha3.Reset (h s))) ;;
h_Write (binary.LittleEndian_PutUint64 (uint64 (len (key s)))) ;;
h_Write (key s) ;;
h_Write (binary.LittleEndian_PutUint64 (uint64 outLenBits)) ;;
h_Write (binary.LittleEndian_PutUint64 (uint64 round)) ;;
let inLenBytes := (inLenBits + 7) / 8 in
n <- slice_to inLenBytes ;;
bval <- gets (load b) ;;
scratch <- lift (big.FillBytes bval n) ;;
write_scratch scratch ;;
h_Write scratch ;;
let outLenBytes := (outLenBits + 7) / 8 in
n <- slice_to outLenBytes ;;
s <- get ;;
let '(outBytes, h') := sha3.Read (h s) n in
modify (fun s => set_h s h') ;;
write_scratch outBytes ;;
let rem := outLenBits mod 8 in
outBytes <-
  (if negb (rem =? 0)
   then
     let mask := Z.shiftr 255 (8 - rem) in
     match outBytes with
     | [] => throw SliceOutOfBounds
     | b0 :: rest =>
         let outBytes := byte.and b0 (to_byte mask) :: rest in
         write_scratch outBytes ;; ret outBytes
     end
   else ret outBytes) ;;
modify (store out (big.SetBytes outBytes)) ;;
ret out.

(** [for i := range p.rounds { f = p.RoundFunc(i, b, f); c.Xor(a, f);
    a, b, c = b, c, a }] *)
Fixpoint rounds_loop (n : nat) (i : Z) (a b c f : ref) : M t (ref * ref) :=
match n with
| O => ret (a, b)
| S n' =>
    f <- RoundFunc i b f ;;
    modify (fun s => store c (Z.lxor (load a s) (load f s)) s) ;;
    rounds_loop n' (i + 1) b c a f
end.

Definition PermuteInPlace (inOut : Z) : M t Z :=
split_halves inOut ;;
let a := a_ref in
let b := b_ref in
let c := c_ref in
let f := f_ref in
rounds <- gets rounds ;;
'(a, b) <- rounds_loop (Z.to_nat rounds) 0 a b c f ;;
join_halves a b.

Definition PermuteInt (i : Z) : M t Z :=
modify (store in_ref (big.SetInt64 (int64 i))) ;;
inp <- gets (load in_ref) ;;
r <- PermuteInPlace inp ;;
modify (store in_ref r) ;;
ret (int64 (big.Int64 r)).

End PowerOf2.

(** ** PermutationN: the adapter of the earlier revisions *)

(** The adapter of the first revision, [PermutationN] with its constructor
    [NewPermutationN] (named [ArbitraryN] and [NewN] in the next one, with
    the same code): it holds a [*PowerOf2], never an FFX object, and its
    methods take no tweak. *)
Module PermutationN.

Record t : Type := mk {
  p : FeistelSHAKE128.t;
  n : Z;
  in_ : Z
}.

Definition set_p (s : t) (v : FeistelSHAKE128.t) : t := mk v (n s) (in_ s).
Definition set_in (s : t) (v : Z) : t := mk (p s) (n s) v.

(** The loop [for { inOut = p.p.PermuteInPlace(inOut);
    if inOut.Cmp(&p.n) < 0 { return inOut } }]; [fuel] bounds the number
    of iterations the model follows. *)
Fixpoint iterate (fuel : nat) (inOut : Z) : M t Z :=
  match fuel with
  | O => lift OutOfFuel
  | S fuel' =>
      inOut <- zoom p set_p (PowerOf2.PermuteInPlace inOut) ;;
      s <- get ;;
      if big.Cmp inOut (n s) <? 0 then ret inOut
      else iterate fuel' inOut
  end.

Definition PermuteInPlace (fuel : nat) (inOut : Z) : M t Z :=
  s <- get ;;
  if big.Cmp inOut (n s) >=? 0 then throw InputOutOfRange
  else iterate fuel inOut.

Definition PermuteInt (fuel : nat) (i : Z) : M t Z :=
  modify (fun s => set_in s (big.SetInt64 (int64 i))) ;;
  inp <- gets in_ ;;
  r <- PermuteInPlace fuel inp ;;
  modify (fun s => set_in s r) ;;
  ret (int64 (big.Int64 r)).

Section Constructor.
Variable shake128 : list byte -> nat -> byte.

Definition NewPermutationN (key : list byte) (n : Z) : result t :=
  let nMinus1 := n - 1 in
  let bitLen := big.BitLen nMinus1 in
  let bitLen :=
    if bitLen <=? 1
    then 2 (* Feistel network requires at least 2 bits. *)
    else bitLen in
  match PowerOf2.NewPowerOf2 shake128 key bitLen with
  | Ret p2n => Ret (mk p2n n 0)
  | Panic e => Panic e
  | OutOfFuel => OutOfFuel
  end.
End Constructor.

End PermutationN.

(** ** The interface [Permutation] and the adapter [ArbitraryN] *)

Class Permutation (P : Type) : Type := {
  PermuteInt : Z -> M P Z;
  PermuteInPlace : Z -> list byte -> M P Z
}.

#[export] Instance FFX_Permutation : Permutation FFX.t :=
  {| PermuteInt := FFX.PermuteInt; PermuteInPlace := FFX.PermuteInPlace |}.

#[export] Instance FeistelSHAKE128_Permutation : Permutation FeistelSHAKE128.t :=
  {| PermuteInt := FeistelSHAKE128.PermuteInt;
     PermuteInPlace := FeistelSHAKE128.PermuteInPlace |}.

(** A value of interface type [Permutation] as [NewN] stores it: one of the
    two block permutations, with dynamic dispatch. *)
Inductive engine : Type :=
| engine_FFX (e : FFX.t)
| engine_SHAKE (e : FeistelSHAKE128.t).

Definition dispatch {A : Type} (mf : M FFX.t A) (ms : M FeistelSHAKE128.t A)
  : M engine A :=
  fun s =>
    match s with
    | engine_FFX e => let '(r, e') := mf e in (r, engine_FFX e')
    | engine_SHAKE e => let '(r, e') := ms e in (r, engine_SHAKE e')
    end.

#[export] Instance engine_Permutation : Permutation engine :=
  {| PermuteInt := fun i => dispatch (FFX.PermuteInt i) (FeistelSHAKE128.PermuteInt i);
     PermuteInPlace := fun v tweak =>
       dispatch (FFX.PermuteInPlace v tweak)
                (FeistelSHAKE128.PermuteInPlace v tweak) |}.

Module ArbitraryN.

Record t (P : Type) : Type := mk {
  p : P;
  n : Z;
  in_ : Z
}.
Arguments mk {P} p n in_.
Arguments p {P} _.
Arguments n {P} _.
Arguments in_ {P} _.

Section Methods.
Context {P : Type} {PP : Permutation P}.

Definition set_p (s : t P) (v : P) : t P := mk v (n s) (in_ s).
Definition set_in (s : t P) (v : Z) : t P := mk (p s) (n s) v.

(** The loop [for { inOut = p.p.PermuteInPlace(inOut, tweak);
    if inOut.Cmp(&p.n) < 0 { return inOut } }]; [fuel] bounds the
    number of iterations the model follows. *)
Fixpoint iterate (fuel : nat) (inOut : Z) (tweak : list byte) : M (t P) Z :=
  match fuel with
  | O => lift OutOfFuel
  | S fuel' =>
      inOut <- zoom p set_p (PermuteInPlace inOut tweak) ;;
      s <- get ;;
      if big.Cmp inOut (n s) <? 0 then ret inOut
      else iterate fuel' inOut tweak
  end.

Definition PermuteInPlace (fuel : nat) (inOut : Z) (tweak : list byte)
  : M (t P) Z :=
  s <- get ;;
  if big.Cmp inOut (n s) >=? 0 then throw InputOutOfRange
  else iterate fuel inOut tweak.

Definition PermuteInt (fuel : nat) (i : Z) : M (t P) Z :=
  modify (fun s => set_in s (big.SetInt64 (int64 i))) ;;
  inp <- gets in_ ;;
  r <- PermuteInPlace fuel inp [] ;;
  modify (fun s => set_in s r) ;;
  ret (int64 (big.Int64 r)).
End Methods.

End ArbitraryN.

Section Constructors.
Variable hkdf_Key : list byte -> list byte.
Variable aes_NewCipher : list byte -> list byte -> list byte.
Variable shake128 : list byte -> nat -> byte.

Definition NewN (key : list byte) (n : Z) : result (ArbitraryN.t engine) :=
  let nMinus1 := n - 1 in
  let bitLen := big.BitLen nMinus1 in
  let bitLen :=
    if bitLen <=? 1
    then 2 (* Feistel network requires at least 2 bits. *)
    else bitLen in
  let p2n :=
    if (bitLen >=? 8) && (bitLen <=? 128)
    then (* Faster but only supports certain ranges. *)
      match FFX.NewFFX hkdf_Key aes_NewCipher key bitLen with
      | Ret e => Ret (engine_FFX e)
      | Panic e => Panic e
      | OutOfFuel => OutOfFuel
      end
    else
      match FeistelSHAKE128.NewPowerOf2 shake128 key bitLen with
      | Ret e => Ret (engine_SHAKE e)
      | Panic e => Panic e
      | OutOfFuel => OutOfFuel
      end in
  match p2n with
  | Ret p2n => Ret (ArbitraryN.mk p2n n 0)
  | Panic e => Panic e
  | OutOfFuel => OutOfFuel
  end.

Definition NewNInt (key : list byte) (n : Z) : result (ArbitraryN.t engine) :=
  NewN key (int64 n).
End Constructors.

(** ** SHAKE128 *)

(** Modelled from the spec: the extendable-output hash function is an
    external primitive of the system ([crypto/sha3] of the Go standard
    library); this is SHAKE128 of FIPS 202, the Keccak-f[1600] sponge with
    rate 168 bytes and domain suffix [1111], used to evaluate the model on
    concrete keys. *)
Module keccak.

Definition ones64 : Z := 0xFFFFFFFFFFFFFFFF.

Definition rotl (x n : Z) : Z :=
  Z.lor (Z.land (Z.shiftl x n) ones64) (Z.shiftr x (64 - n)).

Definition lane (st : list Z) (i : nat) : Z := nth i st 0.

Definition RC : list Z :=
  [0x0000000000000001; 0x0000000000008082; 0x800000000000808A;
   0x8000000080008000; 0x000000000000808B; 0x0000000080000001;
   0x8000000080008081; 0x8000000000008009; 0x000000000000008A;
   0x0000000000000088; 0x0000000080008009; 0x000000008000000A;
   0x000000008000808B; 0x800000000000008B; 0x8000000000008089;
   0x8000000000008003; 0x8000000000008002; 0x8000000000000080;
   0x000000000000800A; 0x800000008000000A; 0x8000000080008081;
   0x8000000000008080; 0x0000000080000001; 0x8000000080008008].

(** Rotation offsets, lane [x + 5 * y]. *)
Definition rho_offsets : list Z :=
  [0; 1; 62; 28; 27;  36; 44; 6; 55; 20;  3; 10; 43; 25; 39;
   41; 45; 15; 21; 8;  18; 2; 61; 56; 14].

Definition theta (st : list Z) : list Z :=
  let C := map (fun x => Z.lxor (lane st x)
                           (Z.lxor (lane st (x + 5))
                              (Z.lxor (lane st (x + 10))
                                 (Z.lxor (lane st (x + 15)) (lane st (x + 20))))))
               (seq 0 5) in
  let D := map (fun x => Z.lxor (lane C ((x + 4) mod 5))
                                (rotl (lane C ((x + 1) mod 5)) 1))
               (seq 0 5) in
  map (fun i => Z.lxor (lane st i) (lane D (i mod 5))) (seq 0 25).

Definition rho_pi (st : list Z) : list Z :=
  map (fun j =>
         let X := (j mod 5)%nat in
         let Y := (j / 5)%nat in
         let src := ((X + 3 * Y) mod 5 + 5 * X)%nat in
         rotl (lane st src) (nth src rho_offsets 0))
      (seq 0 25).

Definition chi (st : list Z) : list Z :=
  map (fun j =>
         let x := (j mod 5)%nat in
         let y5 := (5 * (j / 5))%nat in
         Z.lxor (lane st j)
                (Z.land (Z.lxor (lane st (y5 + (x + 1) mod 5)) ones64)
                        (lane st (y5 + (x + 2) mod 5))))
      (seq 0 25).

Definition iota (rc : Z) (st : list Z) : list Z :=
  match st with
  | [] => []
  | a :: rest => Z.lxor a rc :: rest
  end.

Definition round (st : list Z) (rc : Z) : list Z :=
  iota rc (chi (rho_pi (theta st))).

Definition keccak_f (st : list Z) : list Z := fold_left round RC st.

Definition rate : nat := 168.

(** Domain suffix [1111] and pad10*1, byte aligned. *)
Definition pad (msg : list byte) : list byte :=
  let padlen := (rate - length msg mod rate)%nat in
  match padlen with
  | 1%nat => msg ++ [to_byte 0x9F]
  | _ => msg ++ [to_byte 0x1F] ++ repeat Byte.x00 (padlen - 2) ++ [to_byte 0x80]
  end.

Definition xor_block (st : list Z) (block : list byte) : list Z :=
  map (fun i =>
         if (i <? 21)%nat
         then Z.lxor (lane st i) (le_combine (firstn 8 (skipn (8 * i) block)))
         else lane st i)
      (seq 0 25).

Fixpoint absorb (blocks : nat) (st : list Z) (msg : list byte) : list Z :=
  match blocks with
  | O => st
  | S k => absorb k (keccak_f (xor_block st (firstn rate msg))) (skipn rate msg)
  end.

Definition squeeze_block (st : list Z) : list byte :=
  flat_map (le_split 8) (firstn 21 st).

Fixpoint permute_times (k : nat) (st : list Z) : list Z :=
  match k with
  | O => st
  | S k' => permute_times k' (keccak_f st)
  end.

(** Byte [i] of the output stream of SHAKE128 on [msg]. *)
Definition shake128 (msg : list byte) (i : nat) : byte :=
  let padded := pad msg in
  let st := absorb (length padded / rate) (repeat 0 25) padded in
  nth (i mod rate) (squeeze_block (permute_times (i / rate) st)) Byte.x00.

End keccak.

(** ** Concrete objects *)

(** [[]byte("mykey")] *)
Definition mykey : list byte := [Byte.x6d; Byte.x79; Byte.x6b; Byte.x65; Byte.x79].

(** Stand-ins for HKDF and AES, to build a concrete FFX object: the
    theorems hold for every function in their place. *)
Definition test_hkdf (key : list byte) : list byte := block16 key.
Definition test_cipher (k src : list byte) : list byte :=
  let m := FFX.XORBytes (block16 k) src in
  let total := fold_left (fun acc b => acc + byte.unsigned b) m 0 in
  map (fun b => byte.of_Z ((byte.unsigned b + total) * (byte.unsigned b + total) / 3 + 1))
      (skipn 5 m ++ firstn 5 m).

(** * Definitions of the specification *)

(** The width of the engine behind an interface value, and which of the
    two engines it is. *)
Definition engine_lengthBits (e : engine) : Z :=
  match e with
  | engine_FFX e => FFX.lengthBits e
  | engine_SHAKE e => FeistelSHAKE128.lengthBits e
  end.

Definition is_FFX (e : engine) : bool :=
  match e with engine_FFX _ => true | engine_SHAKE _ => false end.

(** [feistel F n i a b]: [n] rounds of a Feistel network from round [i] on
    the halves [a] and [b], with [F i b] the round function of round [i]. *)
Fixpoint feistel (F : Z -> Z -> Z) (n : nat) (i : Z) (a b : Z) : Z * Z :=
  match n with
  | O => (a, b)
  | S n' => feistel F n' (i + 1) b (Z.lxor a (F i b))
  end.

(** The rounds undone, last round first. *)
Fixpoint unfeistel (F : Z -> Z -> Z) (n : nat) (i : Z) (a b : Z) : Z * Z :=
  match n with
  | O => (a, b)
  | S n' => let '(a', b') := unfeistel F n' (i + 1) a b in
            (Z.lxor b' (F i a'), a')
  end.

(** Widths: at an even round [a] has [wa] bits and [b] has [wb] bits, at an
    odd round the other way round. *)
Definition halves_ok (wa wb : Z) (i a b : Z) : Prop :=
  if Z.even i
  then 0 <= a < 2 ^ wa /\ 0 <= b < 2 ^ wb
  else 0 <= a < 2 ^ wb /\ 0 <= b < 2 ^ wa.

(** [orbit pi k x]: [pi] applied [k] times to [x]. *)
Fixpoint orbit (pi : Z -> Z) (k : nat) (x : Z) : Z :=
  match k with
  | O => x
  | S k' => orbit pi k' (pi x)
  end.

(** The walk of the adapter: apply [pi] until the value is below [N]. *)
Fixpoint walk (pi : Z -> Z) (N : Z) (fuel : nat) (x : Z) : option Z :=
  match fuel with
  | O => None
  | S fuel' => let y := pi x in
               if y <? N then Some y else walk pi N fuel' y
  end.

(** The state of [outBytes] after the CBC-MAC loop over [q], started from
    the encrypted header [encP]. *)
Definition FFX_mac (c : list byte -> list byte) (encP q : list byte) : list byte :=
  match FFX.cbc_mac_loop (length q) c [] (block16 encP) q 0 with
  | Ret (_, outB, _) => outB
  | _ => []
  end.

(** What [FFX.RoundFunc i B] returns when [q] is [qpre] followed by the
    eight bytes reserved for [B]. *)
Definition FFX_round_value (c : list byte -> list byte) (L : Z)
           (encP qpre : list byte) (i B : Z) : Z :=
  let outB := FFX_mac c encP (qpre ++ binary.BigEndian_PutUint64 B) in
  let out := binary.BigEndian_Uint64 (skipn 8 outB) in
  let bitsToKeep := if Z.land i 1 =? 0 then L / 2 else L - L / 2 in
  let bitsToLose := 64 - bitsToKeep in
  Z.shiftr (uint64 (Z.shiftl out bitsToLose)) bitsToLose.

(** The header block [P] for a tweak of [tl] bytes. *)
Definition FFX_header (hdr : list byte) (tl : Z) : list byte :=
  hdr ++ binary.BigEndian_PutUint64 (uint64 tl).

(** The buffer [q] without its last eight bytes: the tweak, the padding
    and the marker byte. *)
Definition FFX_q_prefix (tweak : list byte) : list byte :=
  tweak ++ repeat Byte.x00 (Z.to_nat ((7 - len tweak) mod 16)) ++ [to_byte 1].

(** The permutation computed by an FFX object of width [L] with cipher [c]
    and header bytes [hdr]. *)
Definition FFX_perm (c : list byte -> list byte) (L : Z) (hdr : list byte)
           (tweak : list byte) (v : Z) : Z :=
  let split := L / 2 in
  let b := big.Uint64 (Z.land v (2 ^ (L - split) - 1)) in
  let a := big.Uint64 (Z.shiftr v (L - split)) in
  let encP := FFX.Encrypt c (FFX_header hdr (len tweak)) in
  let '(a', b') := feistel (FFX_round_value c L encP (FFX_q_prefix tweak))
                           (Z.to_nat (RoundSchedule L)) 0 a b in
  Z.lor (Z.shiftl a' (L - split)) b'.

(** The invariant of an FFX object: the fields fixed by [NewFFX], and a
    cached encrypted header that belongs to the cached tweak length. *)
Definition FFX_inv (c : list byte -> list byte) (L : Z) (hdr : list byte)
           (s : FFX.t) : Prop :=
  FFX.lengthBits s = L /\ FFX.rounds s = RoundSchedule L
  /\ FFX.mask s = 2 ^ (L - L / 2) - 1 /\ FFX.aes s = c
  /\ length hdr = 8%nat
  /\ (FFX.tweakLen s = -1 /\ FFX.p s = hdr ++ repeat Byte.x00 8
      \/ FFX.p s = FFX_header hdr (FFX.tweakLen s)
         /\ FFX.encryptedP s = FFX.Encrypt c (FFX_header hdr (FFX.tweakLen s))).

(** A working buffer as [build_q] leaves it and [RoundFunc] keeps it. *)
Definition q_shape (s : FFX.t) (qpre : list byte) : Prop :=
  exists tail m, FFX.q s = qpre ++ tail /\ length tail = 8%nat
                 /\ length (FFX.q s) = (16 * S m)%nat.

(** The fields a round leaves alone. *)
Definition FFX_frame (s s' : FFX.t) : Prop :=
  FFX.lengthBits s' = FFX.lengthBits s /\ FFX.rounds s' = FFX.rounds s
  /\ FFX.tweakLen s' = FFX.tweakLen s /\ FFX.mask s' = FFX.mask s
  /\ FFX.p s' = FFX.p s /\ FFX.encryptedP s' = FFX.encryptedP s
  /\ FFX.aes s' = FFX.aes s.

(** Split [v] into the high part [a] and the [wb] low-order bits [b], run
    [n] rounds, and join the halves again. *)
Definition feistel_perm (F : Z -> Z -> Z) (n : nat) (wb : Z) (v : Z) : Z :=
  let '(a', b') := feistel F n 0 (v / 2 ^ wb) (v mod 2 ^ wb) in
  a' * 2 ^ wb + b'.

(** The same with the rounds undone. *)
Definition feistel_perm_inv (F : Z -> Z -> Z) (n : nat) (wb : Z) (y : Z) : Z :=
  let '(a, b) := unfeistel F n 0 (y / 2 ^ wb) (y mod 2 ^ wb) in
  a * 2 ^ wb + b.

(** The bytes absorbed in one round before the half [b]. *)
Definition SHAKE_prefix (key : list byte) (outLenBits round : Z)
           (tweak : list byte) : list byte :=
  ((((binary.LittleEndian_PutUint64 (uint64 (len key)) ++ key)
       ++ binary.LittleEndian_PutUint64 (uint64 outLenBits))
      ++ binary.LittleEndian_PutUint64 (uint64 round))
     ++ (if len tweak >? 0
         then binary.LittleEndian_PutUint64 (uint64 (len tweak)) ++ tweak
         else [])).

(** The output bytes with the top bits of the first byte masked off. *)
Definition mask_top (outLenBits : Z) (outBytes : list byte) : list byte :=
  if negb (outLenBits mod 8 =? 0)
  then match outBytes with
       | [] => []
       | b0 :: rest =>
           byte.and b0 (to_byte (Z.shiftr 255 (8 - outLenBits mod 8))) :: rest
       end
  else outBytes.

(** What [FeistelSHAKE128.RoundFunc] stores in [out] for a half [bval]
    that fits its buffer. *)
Definition SHAKE_round_value (xof : list byte -> nat -> byte) (key : list byte)
           (L : Z) (tweak : list byte) (round bval : Z) : Z :=
  let inLenBits := if Z.land round 1 =? 0 then L / 2 else L - L / 2 in
  let outLenBits := if Z.land round 1 =? 0 then L - L / 2 else L / 2 in
  let scratch := rev (le_split (Z.to_nat ((inLenBits + 7) / 8)) bval) in
  let msg := SHAKE_prefix key outLenBits round tweak ++ scratch in
  let outBytes := map (xof msg) (seq 0 (Z.to_nat ((outLenBits + 7) / 8))) in
  big.SetBytes (mask_top outLenBits outBytes).

(** The permutation computed by an object of width [L] built by
    [NewPowerOf2] over the hash [xof]. *)
Definition SHAKE_perm (xof : list byte -> nat -> byte) (key : list byte)
           (L : Z) (tweak : list byte) (v : Z) : Z :=
  feistel_perm (SHAKE_round_value xof key L tweak)
               (Z.to_nat (RoundSchedule L)) (L / 2) v.

(** The invariant of such an object: the fields fixed by [NewPowerOf2]. *)
Definition SHAKE_inv (xof : list byte -> nat -> byte) (key : list byte)
           (L : Z) (s : FeistelSHAKE128.t) : Prop :=
  FeistelSHAKE128.lengthBits s = L /\ FeistelSHAKE128.key s = key
  /\ FeistelSHAKE128.rounds s = RoundSchedule L
  /\ sha3.xof (FeistelSHAKE128.h s) = xof /\ 2 <= L.

(** What a round leaves alone: everything but [out], the byte scratch and
    the state of the hash. *)
Definition SHAKE_frame (out : FeistelSHAKE128.ref) (s s' : FeistelSHAKE128.t) : Prop :=
  forall r, r <> out -> FeistelSHAKE128.load r s' = FeistelSHAKE128.load r s.

(** The three pointers rotated by the round loop address three different
    scratch integers, none of them [p.f]. *)
Definition rotating (a b c : FeistelSHAKE128.ref) : Prop :=
  a <> b /\ b <> c /\ a <> c
  /\ a <> FeistelSHAKE128.f_ref /\ b <> FeistelSHAKE128.f_ref
  /\ c <> FeistelSHAKE128.f_ref.

(** A computation keeps the property [I] of the state, whatever it
    returns: a value, a panic or nothing. *)
Definition preserves {S A : Type} (I : S -> Prop) (m : M S A) : Prop :=
  forall s r s', I s -> m s = (r, s') -> I s'.

(** The states of a permutation object after any sequence of calls of its
    methods, with any arguments and any outcomes. *)
Inductive reachable {P : Type} {PP : Permutation P} (init : P) : P -> Prop :=
| reachable_init : reachable init init
| reachable_PermuteInPlace s v tweak r s' :
    reachable init s -> PermuteInPlace v tweak s = (r, s') -> reachable init s'
| reachable_PermuteInt s i r s' :
    reachable init s -> PermuteInt i s = (r, s') -> reachable init s'.

(** The same for the adapter, whose model takes the fuel of its loop. *)
Inductive reachableN {P : Type} {PP : Permutation P} (init : ArbitraryN.t P)
  : ArbitraryN.t P -> Prop :=
| reachableN_init : reachableN init init
| reachableN_PermuteInPlace s fuel v tweak r s' :
    reachableN init s -> ArbitraryN.PermuteInPlace fuel v tweak s = (r, s') ->
    reachableN init s'
| reachableN_PermuteInt s fuel i r s' :
    reachableN init s -> ArbitraryN.PermuteInt fuel i s = (r, s') ->
    reachableN init s'.

(** The same for an object of the earlier revision [PowerOf2]. *)
Inductive PowerOf2_reachable (init : FeistelSHAKE128.t) : FeistelSHAKE128.t -> Prop :=
| PowerOf2_reachable_init : PowerOf2_reachable init init
| PowerOf2_reachable_PermuteInPlace s v r s' :
    PowerOf2_reachable init s -> PowerOf2.PermuteInPlace v s = (r, s') ->
    PowerOf2_reachable init s'
| PowerOf2_reachable_PermuteInt s i r s' :
    PowerOf2_reachable init s -> PowerOf2.PermuteInt i s = (r, s') ->
    PowerOf2_reachable init s'.

(** The invariant of an adapter over a block permutation with invariant
    [Inv]: the bound [n] is [N] and the block permutation is in order. *)
Definition adapter_inv {P : Type} (Inv : P -> Prop) (N : Z) (a : ArbitraryN.t P)
  : Prop :=
  ArbitraryN.n a = N /\ Inv (ArbitraryN.p a).

(** The result of the loop for a walk that ends or runs out of fuel. *)
Definition outcome (o : option Z) : result Z :=
  match o with Some y => Ret y | None => OutOfFuel end.

(** The first eight bytes of the header block [P] written by [NewFFX]. *)
Definition FFX_hdr (L : Z) : list byte :=
  binary.BigEndian_PutUint16 1
  ++ [to_byte 2; to_byte 0; to_byte 2; to_byte L; to_byte (L / 2);
      to_byte (RoundSchedule L)].

(** The test of [NewN] on the width. *)
Definition selects_FFX (L : Z) : bool := (L >=? 8) && (L <=? 128).

(** The invariant and the map of an interface value holding the engine
    that [NewN] selects for the width [L]. *)
Definition engine_inv (c : list byte -> list byte) (xof : list byte -> nat -> byte)
           (key : list byte) (L : Z) (e : engine) : Prop :=
  2 <= L /\
  match e with
  | engine_FFX e => selects_FFX L = true /\ FFX_inv c L (FFX_hdr L) e
  | engine_SHAKE e => selects_FFX L = false /\ SHAKE_inv xof key L e
  end.

Definition engine_perm (c : list byte -> list byte) (xof : list byte -> nat -> byte)
           (key : list byte) (L : Z) (tweak : list byte) (v : Z) : Z :=
  if selects_FFX L then FFX_perm c L (FFX_hdr L) tweak v
  else SHAKE_perm xof key L tweak v.

(** The width of the engine under the adapter that [NewN] builds for [N]. *)
Definition width_of (N : Z) : Z := Z.max 2 (big.BitLen (N - 1)).

(** A map is a bijection of the interval [[0, M)]. *)
Definition bijective_on (M : Z) (pi : Z -> Z) : Prop :=
  (forall v, 0 <= v < M -> 0 <= pi v < M)
  /\ (forall v1 v2, 0 <= v1 < M -> 0 <= v2 < M -> pi v1 = pi v2 -> v1 = v2)
  /\ (forall y, 0 <= y < M -> exists v, 0 <= v < M /\ pi v = y).

(** The bits of the byte buffer that receives the high half in the odd
    rounds: [8 * inLenBytes]. *)
Definition SHAKE_high_width (L : Z) : Z := 8 * ((L - L / 2 + 7) / 8).

(** The invariant of an adapter [PermutationN] for the range [N] over a
    SHAKE engine of width [L]. *)
Definition PermutationN_inv (xof : list byte -> nat -> byte) (key : list byte)
           (L N : Z) (s : PermutationN.t) : Prop :=
  PermutationN.n s = N /\ SHAKE_inv xof key L (PermutationN.p s).

(** The states of such an adapter after any sequence of calls. *)
Inductive PermutationN_reachable (init : PermutationN.t) : PermutationN.t -> Prop :=
| PermutationN_reachable_init : PermutationN_reachable init init
| PermutationN_reachable_PermuteInPlace s fuel v r s' :
    PermutationN_reachable init s -> PermutationN.PermuteInPlace fuel v s = (r, s') ->
    PermutationN_reachable init s'
| PermutationN_reachable_PermuteInt s fuel i r s' :
    PermutationN_reachable init s -> PermutationN.PermuteInt fuel i s = (r, s') ->
    PermutationN_reachable init s'.

(** * Properties *)

(** ** Running monadic code *)

Lemma bind_Ret {S A B : Type} (m : M S A) (k : A -> M S B) s a s' :
  m s = (Ret a, s') -> bind m k s = k a s'.
Proof. intros H. unfold bind. rewrite H. reflexivity. Qed.

Lemma bind_Panic {S A B : Type} (m : M S A) (k : A -> M S B) s e s' :
  m s = (Panic e, s') -> bind m k s = (Panic e, s').
Proof. intros H. unfold bind. rewrite H. reflexivity. Qed.

(** ** Bit lengths and the size of the covering domain *)

Lemma BitLen_nonneg x : 0 <= big.BitLen x.
Proof.
  unfold big.BitLen. destruct (Z.abs x =? 0); [lia|].
  pose proof (Z.log2_nonneg (Z.abs x)). lia.
Qed.

Lemma BitLen_upper x : 0 <= x -> x < 2 ^ big.BitLen x.
Proof.
  intros Hx. unfold big.BitLen. rewrite Z.abs_eq by lia.
  destruct (x =? 0) eqn:E.
  - apply Z.eqb_eq in E. subst. reflexivity.
  - apply Z.eqb_neq in E.
    destruct (Z.log2_spec x) as [_ H]; [lia|]. 
    replace (Z.log2 x + 1) with (Z.succ (Z.log2 x)) by lia. exact H.
Qed.

Lemma BitLen_lower x : 0 < x -> 2 ^ (big.BitLen x - 1) <= x.
Proof.
  intros Hx. unfold big.BitLen. rewrite Z.abs_eq by lia.
  destruct (x =? 0) eqn:E.
  - apply Z.eqb_eq in E. lia.
  - destruct (Z.log2_spec x) as [H _]; [lia|].
    replace (Z.log2 x + 1 - 1) with (Z.log2 x) by lia. exact H.
Qed.

(** [BitLen x] is the least number of bits that hold [x]. *)
Lemma BitLen_least x k : 0 <= x -> 0 <= k -> (x < 2 ^ k <-> big.BitLen x <= k).
Proof.
  intros Hx Hk. split; intros H.
  - destruct (Z.eq_dec x 0) as [->|Hne]; [cbn; lia|].
    pose proof (BitLen_lower x ltac:(lia)) as Hl.
    destruct (Z_le_gt_dec (big.BitLen x) k) as [|Hgt]; [assumption|exfalso].
    assert (2 ^ k <= 2 ^ (big.BitLen x - 1)) by (apply Z.pow_le_mono_r; lia).
    lia.
  - pose proof (BitLen_upper x Hx).
    assert (2 ^ big.BitLen x <= 2 ^ k)
      by (apply Z.pow_le_mono_r; [lia | exact H]).
    lia.
Qed.

Section WithPrimitives.
Variable hkdf_Key : list byte -> list byte.
Variable aes_NewCipher : list byte -> list byte -> list byte.
Variable shake128 : list byte -> nat -> byte.

Lemma NewFFX_Ret key L :
  8 <= L <= 128 ->
  exists e, FFX.NewFFX hkdf_Key aes_NewCipher key L = Ret e /\ FFX.lengthBits e = L
    /\ FFX.rounds e = RoundSchedule L
    /\ FFX.mask e = 2 ^ (L - L / 2) - 1
    /\ FFX.tweakLen e = -1
    /\ FFX.aes e = aes_NewCipher (hkdf_Key key).
Proof.
  intros HL. unfold FFX.NewFFX.
  replace ((L <? 8) || (L >? 128)) with false
    by (symmetry; apply orb_false_iff; split; lia).
  eexists. split; [reflexivity|]. cbn.
  repeat split; try reflexivity.
  rewrite Z.shiftl_1_l. reflexivity.
Qed.

Lemma NewPowerOf2_Ret key L :
  2 <= L ->
  exists e, FeistelSHAKE128.NewPowerOf2 shake128 key L = Ret e /\ FeistelSHAKE128.lengthBits e = L
    /\ FeistelSHAKE128.rounds e = RoundSchedule L
    /\ FeistelSHAKE128.key e = key
    /\ sha3.xof (FeistelSHAKE128.h e) = shake128.
Proof.
  intros HL. unfold FeistelSHAKE128.NewPowerOf2.
  replace (L <=? 1) with false by lia.
  eexists. split; [reflexivity|]. cbn. repeat split; reflexivity.
Qed.

Lemma NewN_Ret key N :
  1 <= N ->
  let L := Z.max 2 (big.BitLen (N - 1)) in
  exists a, NewN hkdf_Key aes_NewCipher shake128 key N = Ret a /\ ArbitraryN.n a = N
    /\ ArbitraryN.in_ a = 0
    /\ ((8 <= L <= 128 /\ exists e, ArbitraryN.p a = engine_FFX e
                                    /\ FFX.NewFFX hkdf_Key aes_NewCipher key L = Ret e)
        \/ (~ 8 <= L <= 128 /\ exists e, ArbitraryN.p a = engine_SHAKE e
              /\ FeistelSHAKE128.NewPowerOf2 shake128 key L = Ret e)).
Proof.
  intros HN L. unfold NewN.
  pose proof (BitLen_nonneg (N - 1)) as Hnn.
  assert (HL : (if big.BitLen (N - 1) <=? 1 then 2 else big.BitLen (N - 1)) = L).
  { subst L. destruct (big.BitLen (N - 1) <=? 1) eqn:E; lia. }
  rewrite HL.
  assert (H2 : 2 <= L) by (subst L; lia).
  destruct ((L >=? 8) && (L <=? 128)) eqn:E.
  - apply andb_true_iff in E. destruct E as [E1 E2].
    assert (Hr : 8 <= L <= 128) by lia.
    destruct (NewFFX_Ret key L Hr) as (e & He & _).
    rewrite He. eexists. split; [reflexivity|]. cbn.
    repeat split; try reflexivity. left. split; [lia|]. eauto.
  - apply andb_false_iff in E.
    assert (Hr : ~ 8 <= L <= 128) by (destruct E; lia).
    destruct (NewPowerOf2_Ret key L H2) as (e & He & _).
    rewrite He. eexists. split; [reflexivity|]. cbn.
    repeat split; try reflexivity. right. split; [lia|]. eauto.
Qed.

End WithPrimitives.

(** ** Halves of an integer *)

Lemma land_mask_mod v k : 0 <= k -> Z.land v (2 ^ k - 1) = v mod 2 ^ k.
Proof.
  intros Hk. rewrite <- Z.land_ones by exact Hk.
  rewrite Z.ones_equiv. reflexivity.
Qed.

Lemma lxor_range a b k :
  0 <= k -> 0 <= a < 2 ^ k -> 0 <= b < 2 ^ k -> 0 <= Z.lxor a b < 2 ^ k.
Proof.
  intros Hk Ha Hb.
  assert (Hnn : 0 <= Z.lxor a b) by (apply Z.lxor_nonneg; split; lia).
  split; [exact Hnn|].
  destruct (Z.eq_dec (Z.lxor a b) 0) as [->|Hne].
  - apply Z.pow_pos_nonneg; lia.
  - assert (Hk0 : 0 < k).
    { destruct (Z.eq_dec k 0) as [->|]; [|lia].
      change (2 ^ 0) with 1 in *. assert (a = 0) by lia. assert (b = 0) by lia.
      subst. cbn in Hne. congruence. }
    apply Z.log2_lt_pow2; [lia|].
    pose proof (Z.log2_lxor a b ltac:(lia) ltac:(lia)) as Hl.
    assert (Z.log2 a < k).
    { destruct (Z.eq_dec a 0) as [->|]; [cbn; lia|].
      apply Z.log2_lt_pow2; lia. }
    assert (Z.log2 b < k).
    { destruct (Z.eq_dec b 0) as [->|]; [cbn; lia|].
      apply Z.log2_lt_pow2; lia. }
    lia.
Qed.

Lemma lxor_cancel_r a f : Z.lxor (Z.lxor a f) f = a.
Proof. rewrite Z.lxor_assoc, Z.lxor_nilpotent, Z.lxor_0_r. reflexivity. Qed.

Lemma shiftl_lor_add a b k :
  0 <= k -> 0 <= b < 2 ^ k -> Z.lor (Z.shiftl a k) b = a * 2 ^ k + b.
Proof.
  intros Hk Hb. rewrite Z.shiftl_mul_pow2 by exact Hk.
  rewrite <- Z.lxor_lor.
  - symmetry. apply Z.add_nocarry_lxor.
    apply Z.bits_inj'. intros n Hn. rewrite Z.land_spec, Z.bits_0.
    destruct (Z_lt_ge_dec n k).
    + rewrite Z.mul_pow2_bits_low by lia. reflexivity.
    + replace (Z.testbit b n) with false; [apply andb_false_r|].
      symmetry. destruct (Z.eq_dec b 0) as [->|]; [apply Z.bits_0|].
      apply Z.bits_above_log2; [lia|].
      assert (Z.log2 b < k) by (apply Z.log2_lt_pow2; lia). lia.
  - apply Z.bits_inj'. intros n Hn. rewrite Z.land_spec, Z.bits_0.
    destruct (Z_lt_ge_dec n k).
    + rewrite Z.mul_pow2_bits_low by lia. reflexivity.
    + replace (Z.testbit b n) with false; [apply andb_false_r|].
      symmetry. destruct (Z.eq_dec b 0) as [->|]; [apply Z.bits_0|].
      apply Z.bits_above_log2; [lia|].
      assert (Z.log2 b < k) by (apply Z.log2_lt_pow2; lia). lia.
Qed.

Lemma div_pow2_bound v k l : 0 <= k -> 0 <= l -> 0 <= v < 2 ^ (k + l) -> 0 <= v / 2 ^ l < 2 ^ k.
Proof.
  intros Hk Hl Hv. assert (0 < 2 ^ l) by (apply Z.pow_pos_nonneg; lia).
  split; [apply Z.div_pos; lia|].
  apply Z.div_lt_upper_bound; [lia|].
  rewrite <- Z.pow_add_r by lia. replace (l + k) with (k + l) by lia. lia.
Qed.

Lemma join_bound a b k l :
  0 <= k -> 0 <= l -> 0 <= a < 2 ^ k -> 0 <= b < 2 ^ l -> 0 <= a * 2 ^ l + b < 2 ^ (k + l).
Proof.
  intros Hk Hl Ha Hb. rewrite Z.pow_add_r by lia.
  assert (0 < 2 ^ l) by (apply Z.pow_pos_nonneg; lia). nia.
Qed.

Lemma land_1_even i : (Z.land i 1 =? 0) = Z.even i.
Proof.
  change 1 with (Z.ones 1). rewrite Z.land_ones by lia.
  change (2 ^ 1) with 2. rewrite Zmod_even. destruct (Z.even i); reflexivity.
Qed.

(** ** Feistel networks *)

Section Feistel.
(** [F i b]: the round function of round [i] on the half [b]. *)
Variable F : Z -> Z -> Z.

Lemma unfeistel_feistel n : forall i a b,
  let '(x, y) := feistel F n i a b in unfeistel F n i x y = (a, b).
Proof.
  induction n as [|n IH]; intros i a b; cbn; [reflexivity|].
  specialize (IH (i + 1) b (Z.lxor a (F i b))).
  destruct (feistel F n (i + 1) b (Z.lxor a (F i b))) as [x y].
  rewrite IH. rewrite lxor_cancel_r. reflexivity.
Qed.

Lemma feistel_unfeistel n : forall i x y,
  let '(a, b) := unfeistel F n i x y in feistel F n i a b = (x, y).
Proof.
  induction n as [|n IH]; intros i x y; cbn; [reflexivity|].
  specialize (IH (i + 1) x y).
  destruct (unfeistel F n (i + 1) x y) as [a' b'].
  rewrite lxor_cancel_r. exact IH.
Qed.

Lemma feistel_inj n i a b a' b' :
  feistel F n i a b = feistel F n i a' b' -> a = a' /\ b = b'.
Proof.
  intros H. pose proof (unfeistel_feistel n i a b) as H1.
  pose proof (unfeistel_feistel n i a' b') as H2.
  rewrite H in H1. destruct (feistel F n i a' b') as [x y].
  rewrite H1 in H2. injection H2 as -> ->. split; reflexivity.
Qed.

(** Widths: at an even round [a] has [wa] bits and [b] has [wb] bits, at an
    odd round the other way round. *)
Variables wa wb : Z.

Hypothesis wa_nonneg : 0 <= wa.
Hypothesis wb_nonneg : 0 <= wb.
Hypothesis F_range : forall i b,
  0 <= F i b < 2 ^ (if Z.even i then wa else wb).

Lemma halves_ok_step i a b :
  halves_ok wa wb i a b -> halves_ok wa wb (i + 1) b (Z.lxor a (F i b)).
Proof.
  unfold halves_ok. intros H. pose proof (F_range i b) as HF.
  rewrite Z.even_add. change (Z.even 1) with false.
  destruct (Z.even i); cbn.
  - destruct H as [Ha Hb]. split; [exact Hb|]. apply lxor_range; assumption.
  - destruct H as [Ha Hb]. split; [exact Hb|]. apply lxor_range; assumption.
Qed.

Lemma halves_ok_unstep i a' b' :
  halves_ok wa wb (i + 1) a' b' -> halves_ok wa wb i (Z.lxor b' (F i a')) a'.
Proof.
  unfold halves_ok. intros H. pose proof (F_range i a') as HF.
  rewrite Z.even_add in H. change (Z.even 1) with false in H.
  destruct (Z.even i); cbn in H.
  - destruct H as [Ha Hb]. split; [|exact Ha]. apply lxor_range; assumption.
  - destruct H as [Ha Hb]. split; [|exact Ha]. apply lxor_range; assumption.
Qed.

Lemma feistel_range n : forall i a b,
  halves_ok wa wb i a b ->
  halves_ok wa wb (i + Z.of_nat n) (fst (feistel F n i a b)) (snd (feistel F n i a b)).
Proof.
  induction n as [|n IH]; intros i a b H.
  - cbn [feistel fst snd]. replace (i + Z.of_nat 0) with i by lia. exact H.
  - cbn [feistel]. replace (i + Z.of_nat (S n)) with (i + 1 + Z.of_nat n) by lia.
    apply IH. apply halves_ok_step. exact H.
Qed.

Lemma unfeistel_range n : forall i x y,
  halves_ok wa wb (i + Z.of_nat n) x y ->
  halves_ok wa wb i (fst (unfeistel F n i x y)) (snd (unfeistel F n i x y)).
Proof.
  induction n as [|n IH]; intros i x y H.
  - cbn [unfeistel fst snd]. replace (i + Z.of_nat 0) with i in H by lia. exact H.
  - cbn [unfeistel].
    replace (i + Z.of_nat (S n)) with (i + 1 + Z.of_nat n) in H by lia.
    specialize (IH (i + 1) x y H).
    destruct (unfeistel F n (i + 1) x y) as [a' b']. cbn [fst snd] in *.
    apply halves_ok_unstep. exact IH.
Qed.
End Feistel.

(** ** Cycle walking over a permutation of a finite interval *)

Section CycleWalk.
Variable pi : Z -> Z.
Variable M : Z.
Hypothesis pi_range : forall x, 0 <= x < M -> 0 <= pi x < M.
Hypothesis pi_inj : forall x y,
  0 <= x < M -> 0 <= y < M -> pi x = pi y -> x = y.

Lemma orbit_range k : forall x, 0 <= x < M -> 0 <= orbit pi k x < M.
Proof. induction k as [|k IH]; intros x Hx; cbn; auto. Qed.

Lemma orbit_add j k : forall x, orbit pi (j + k) x = orbit pi k (orbit pi j x).
Proof. induction j as [|j IH]; intros x; cbn; auto. Qed.

Lemma orbit_S_outer k x : orbit pi (S k) x = pi (orbit pi k x).
Proof.
  replace (S k) with (k + 1)%nat by lia. rewrite orbit_add. reflexivity.
Qed.

Lemma orbit_inj k : forall x y,
  0 <= x < M -> 0 <= y < M -> orbit pi k x = orbit pi k y -> x = y.
Proof.
  induction k as [|k IH]; intros x y Hx Hy H; cbn in H; [exact H|].
  apply pi_inj; auto.
Qed.

(** Among the first [n] points of an orbit, either all are different or
    two coincide. *)
Lemma orbit_dup_or_NoDup x n :
  NoDup (map (fun k => orbit pi k x) (seq 0 n))
  \/ exists i j, (i < j < n)%nat /\ orbit pi i x = orbit pi j x.
Proof.
  induction n as [|n IH].
  - left. constructor.
  - rewrite seq_S, map_app. cbn [map Nat.add].
    destruct IH as [IH | (i & j & Hij & E)].
    + destruct (in_dec Z.eq_dec (orbit pi n x) (map (fun k => orbit pi k x) (seq 0 n)))
        as [Hin | Hnin].
      * right. apply in_map_iff in Hin. destruct Hin as (i & E & Hi).
        apply in_seq in Hi. exists i, n. split; [lia | exact E].
      * left. apply NoDup_app; [exact IH | repeat constructor; intros [] | ].
        intros a Ha [<- | []]. contradiction.
    + right. exists i, j. split; [lia | exact E].
Qed.

(** The orbit of a point of the interval comes back to it. *)
Lemma orbit_returns x :
  0 <= x < M -> exists k, (1 <= k <= Z.to_nat M)%nat /\ orbit pi k x = x.
Proof.
  intros Hx.
  destruct (orbit_dup_or_NoDup x (S (Z.to_nat M))) as [Hnd | (i & j & Hij & E)].
  - exfalso.
    assert (Hincl : incl (map (fun k => orbit pi k x) (seq 0 (S (Z.to_nat M))))
                         (map Z.of_nat (seq 0 (Z.to_nat M)))).
    { intros y Hy. apply in_map_iff in Hy. destruct Hy as (k & <- & _).
      pose proof (orbit_range k x Hx) as Hr.
      apply in_map_iff. exists (Z.to_nat (orbit pi k x)). split; [lia|].
      apply in_seq. lia. }
    pose proof (NoDup_incl_length Hnd Hincl) as Hlen.
    rewrite !length_map, !length_seq in Hlen. lia.
  - exists (j - i)%nat. split; [lia|].
    replace j with (i + (j - i))%nat in E by lia.
    rewrite orbit_add in E.
    assert (E' : orbit pi i x = orbit pi i (orbit pi (j - i) x)).
    { rewrite <- orbit_add. replace (j - i + i)%nat with (i + (j - i))%nat by lia.
      rewrite orbit_add. exact E. }
    symmetry. apply (orbit_inj i); auto using orbit_range.
Qed.

Variable N : Z.

Lemma walk_reaches fuel : forall x,
  (exists j, (1 <= j <= fuel)%nat /\ orbit pi j x < N) ->
  exists y, walk pi N fuel x = Some y /\ y < N.
Proof.
  induction fuel as [|fuel IH]; intros x (j & Hj & Hlt); [lia|].
  cbn. destruct (pi x <? N) eqn:E.
  - exists (pi x). split; [reflexivity | lia].
  - apply IH. destruct j as [|j]; [lia|]. cbn in Hlt.
    destruct j as [|j]; [cbn in Hlt; lia|].
    exists (S j). split; [lia | exact Hlt].
Qed.

(** What a walk returns: the first point of the orbit below [N]. *)
Lemma walk_first fuel : forall x y,
  walk pi N fuel x = Some y ->
  exists j, (1 <= j <= fuel)%nat /\ y = orbit pi j x /\ y < N
            /\ forall m, (1 <= m < j)%nat -> ~ orbit pi m x < N.
Proof.
  induction fuel as [|fuel IH]; intros x y H; [discriminate|].
  cbn in H. destruct (pi x <? N) eqn:E.
  - injection H as <-. exists 1%nat. repeat split; try lia; reflexivity.
  - destruct (IH _ _ H) as (j & Hj & Hy & Hlt & Hmin).
    exists (S j). repeat split; try lia; [exact Hy|].
    intros m Hm. destruct m as [|m]; [lia|]. cbn.
    destruct m as [|m]; [cbn; lia|]. apply Hmin. lia.
Qed.

Lemma walk_more_fuel fuel fuel' x y :
  walk pi N fuel x = Some y -> (fuel <= fuel')%nat -> walk pi N fuel' x = Some y.
Proof.
  revert fuel' x. induction fuel as [|fuel IH]; intros fuel' x H Hle; [discriminate|].
  destruct fuel' as [|fuel']; [lia|]. cbn in *.
  destruct (pi x <? N); [exact H|]. apply IH; [exact H | lia].
Qed.

Hypothesis N_le_M : N <= M.

Theorem walk_terminates x :
  0 <= x < N -> exists y, walk pi N (Z.to_nat M) x = Some y /\ 0 <= y < N.
Proof.
  intros Hx. destruct (orbit_returns x ltac:(lia)) as (k & Hk & E).
  destruct (walk_reaches (Z.to_nat M) x) as (y & Hy & Hlt).
  { exists k. split; [exact Hk | lia]. }
  exists y. split; [exact Hy|]. split; [|exact Hlt].
  destruct (walk_first _ _ _ Hy) as (j & _ & -> & _).
  apply orbit_range. lia.
Qed.

Theorem walk_inj f1 f2 x1 x2 y :
  0 <= x1 < N -> 0 <= x2 < N ->
  walk pi N f1 x1 = Some y -> walk pi N f2 x2 = Some y -> x1 = x2.
Proof.
  assert (Hw : forall j1 j2 x1 x2,
    (j1 <= j2)%nat -> 0 <= x1 < N -> 0 <= x2 < N ->
    orbit pi j1 x1 = orbit pi j2 x2 ->
    (forall m, (1 <= m < j2)%nat -> ~ orbit pi m x2 < N) -> (1 <= j1)%nat ->
    x1 = x2).
  { intros j1 j2 a b Hle Ha Hb E Hmin H1.
    replace j2 with ((j2 - j1) + j1)%nat in E by lia.
    rewrite orbit_add in E.
    apply orbit_inj in E; [|lia|apply orbit_range; lia].
    destruct (Nat.eq_dec j2 j1) as [->|Hne].
    - rewrite Nat.sub_diag in E. exact E.
    - exfalso. apply (Hmin (j2 - j1)%nat); [lia|]. rewrite <- E. lia. }
  intros H1 H2 W1 W2.
  destruct (walk_first _ _ _ W1) as (j1 & Hj1 & E1 & _ & Hmin1).
  destruct (walk_first _ _ _ W2) as (j2 & Hj2 & E2 & _ & Hmin2).
  destruct (Nat.le_ge_cases j1 j2) as [Hle | Hle].
  - apply (Hw j1 j2); auto; try lia; congruence.
  - symmetry. apply (Hw j2 j1); auto; try lia; congruence.
Qed.
End CycleWalk.

(** ** The FFX engine as a function of its configuration *)

Arguments block16 _ : simpl never.
Arguments uint64 _ : simpl never.
Arguments int64 _ : simpl never.
Arguments FFX.Encrypt _ _ : simpl never.
Arguments FFX.XORBytes _ _ : simpl never.
Arguments binary.BigEndian_PutUint64 _ : simpl never.
Arguments binary.BigEndian_Uint64 _ : simpl never.
Arguments binary.LittleEndian_PutUint64 _ : simpl never.
Arguments big.Uint64 _ : simpl never.
Arguments big.Int64 _ : simpl never.

Lemma cbc_mac_loop_run c m : forall fuel inB outB rq it,
  length rq = (16 * m)%nat -> (m <= fuel)%nat ->
  exists inB' outB', FFX.cbc_mac_loop fuel c inB outB rq it = Ret (inB', outB', (it + m)%nat).
Proof.
  induction m as [|m IH]; intros fuel inB outB rq it Hlen Hfuel.
  - destruct rq; [|discriminate]. destruct fuel; cbn; rewrite Nat.add_0_r; eauto.
  - destruct rq as [|x rq']; [cbn in Hlen; lia|].
    destruct fuel as [|fuel]; [lia|].
    cbn [FFX.cbc_mac_loop].
    replace (length (x :: rq') <? FFX.BlockSize)%nat with false
      by (symmetry; apply Nat.ltb_ge; unfold FFX.BlockSize; lia).
    destruct (IH fuel (FFX.XORBytes outB (firstn FFX.BlockSize (x :: rq')))
                 (FFX.Encrypt c (FFX.XORBytes outB (firstn FFX.BlockSize (x :: rq'))))
                 (skipn FFX.BlockSize (x :: rq')) (S it)) as (i' & o' & E).
    { rewrite length_skipn. unfold FFX.BlockSize. lia. }
    { lia. }
    rewrite E. replace (S it + m)%nat with (it + S m)%nat by lia. eauto.
Qed.

(** The loop does not read the initial contents of [inBytes], and the
    iteration counter does not influence [outBytes]. *)
Lemma cbc_mac_loop_inB c : forall fuel inB inB2 outB rq it it2 i' o' n',
  FFX.cbc_mac_loop fuel c inB outB rq it = Ret (i', o', n') ->
  exists i2 n2, FFX.cbc_mac_loop fuel c inB2 outB rq it2 = Ret (i2, o', n2).
Proof.
  assert (Hgen : forall fuel inB outB rq it it2 i' o' n',
    FFX.cbc_mac_loop fuel c inB outB rq it = Ret (i', o', n') ->
    exists n2, FFX.cbc_mac_loop fuel c inB outB rq it2 = Ret (i', o', n2)).
  { induction fuel as [|fuel IH]; intros inB outB rq it it2 i' o' n' H.
    - destruct rq; cbn in *; [injection H as <- <- <-; eauto | discriminate].
    - destruct rq as [|x rq]; cbn [FFX.cbc_mac_loop] in *;
        [injection H as <- <- <-; eauto|].
      destruct (length (x :: rq) <? FFX.BlockSize)%nat; [discriminate|].
      eapply IH. exact H. }
  intros fuel inB inB2 outB rq it it2 i' o' n' H.
  destruct fuel as [|fuel]; destruct rq as [|x rq]; cbn [FFX.cbc_mac_loop] in *;
    try discriminate; try (injection H as <- <- <-; eauto; fail).
  destruct (length (x :: rq) <? FFX.BlockSize)%nat; [discriminate|].
  destruct (Hgen _ _ _ _ _ (S it2) _ _ _ H) as (n2 & E). eauto.
Qed.

Lemma length_BigEndian_PutUint64 v : length (binary.BigEndian_PutUint64 v) = 8%nat.
Proof. unfold binary.BigEndian_PutUint64. rewrite length_rev, length_le_split. reflexivity. Qed.

Lemma FFX_frame_refl s : FFX_frame s s.
Proof. repeat split. Qed.

Lemma FFX_frame_trans s1 s2 s3 : FFX_frame s1 s2 -> FFX_frame s2 s3 -> FFX_frame s1 s3.
Proof.
  unfold FFX_frame. intros (A1 & A2 & A3 & A4 & A5 & A6 & A7) (B1 & B2 & B3 & B4 & B5 & B6 & B7).
  repeat split; congruence.
Qed.

Lemma RoundFunc_run s qpre i B tw :
  q_shape s qpre ->
  exists s', FFX.RoundFunc i B tw s
             = (Ret (FFX_round_value (FFX.aes s) (FFX.lengthBits s)
                                     (FFX.encryptedP s) qpre i B), s')
             /\ FFX_frame s s' /\ q_shape s' qpre.
Proof.
  intros (tail & m & Hq & Htail & Hlen).
  assert (Hpre : firstn (length (FFX.q s) - 8) (FFX.q s) = qpre).
  { rewrite Hq. rewrite length_app, Htail.
    replace (length qpre + 8 - 8)%nat with (length qpre + 0)%nat by lia.
    rewrite firstn_app_2. cbn. apply app_nil_r. }
  set (q1 := qpre ++ binary.BigEndian_PutUint64 B).
  assert (Hlen1 : length q1 = (16 * S m)%nat).
  { subst q1. rewrite length_app, length_BigEndian_PutUint64.
    rewrite Hq, length_app, Htail in Hlen. exact Hlen. }
  destruct (cbc_mac_loop_run (FFX.aes s) (S m) (length q1) (FFX.inBytes s)
              (block16 (FFX.encryptedP s)) q1 0 Hlen1 ltac:(lia)) as (inB & outB & E).
  assert (Hmac : FFX_mac (FFX.aes s) (FFX.encryptedP s) q1 = outB).
  { unfold FFX_mac.
    destruct (cbc_mac_loop_inB _ _ _ [] _ _ _ 0%nat _ _ _ E) as (i2 & n2 & E2).
    rewrite E2. reflexivity. }
  unfold FFX.RoundFunc.
  unfold bind at 1. cbn [get].
  replace (length (FFX.q s) <? 8)%nat with false
    by (symmetry; apply Nat.ltb_ge; lia).
  unfold bind, modify, get, lift, ret. cbn.
  rewrite Hpre. fold q1. rewrite E.
  eexists. split.
  - unfold FFX_round_value. fold q1. rewrite Hmac. reflexivity.
  - split; [repeat split|].
    exists (binary.BigEndian_PutUint64 B), m. cbn.
    repeat split; auto using length_BigEndian_PutUint64.
Qed.

Lemma rounds_loop_run qpre n : forall s i a b,
  q_shape s qpre ->
  exists s', FFX.rounds_loop n i a b s
             = (Ret (feistel (FFX_round_value (FFX.aes s) (FFX.lengthBits s)
                                              (FFX.encryptedP s) qpre) n i a b), s')
             /\ FFX_frame s s' /\ q_shape s' qpre.
Proof.
  induction n as [|n IH]; intros s i a b Hq.
  - exists s. cbn. split; [reflexivity|]. split; [apply FFX_frame_refl | exact Hq].
  - cbn [FFX.rounds_loop feistel].
    destruct (RoundFunc_run s qpre i b [] Hq) as (s1 & E1 & Hf1 & Hq1).
    rewrite (bind_Ret _ _ _ _ _ E1).
    destruct (IH s1 (i + 1) b (Z.lxor a (FFX_round_value (FFX.aes s) (FFX.lengthBits s)
                                           (FFX.encryptedP s) qpre i b)) Hq1)
      as (s2 & E2 & Hf2 & Hq2).
    exists s2. split; [|split; [eapply FFX_frame_trans; eauto | exact Hq2]].
    rewrite E2. destruct Hf1 as (-> & _ & _ & _ & _ & -> & ->). reflexivity.
Qed.

Lemma FFX_inv_frame c L hdr s s' :
  FFX_frame s s' -> FFX_inv c L hdr s -> FFX_inv c L hdr s'.
Proof.
  intros (A1 & A2 & A3 & A4 & A5 & A6 & A7) (B1 & B2 & B3 & B4 & B5 & B6).
  unfold FFX_inv. rewrite A1, A2, A3, A4, A5, A6, A7. repeat split; assumption.
Qed.

(** Arithmetic of the padding to 7 modulo 16. *)
Lemma pad_step n : 0 <= n -> n mod 16 <> 7 -> (7 - n) mod 16 = (7 - (n + 1)) mod 16 + 1.
Proof.
  intros Hn H.
  assert (E : (7 - n) mod 16 = (7 - n mod 16) mod 16).
  { rewrite Zminus_mod_idemp_r. reflexivity. }
  assert (E2 : (7 - (n + 1)) mod 16 = (6 - n mod 16) mod 16).
  { replace (7 - (n + 1)) with (6 - n) by lia. rewrite Zminus_mod_idemp_r. reflexivity. }
  rewrite E, E2.
  pose proof (Z.mod_pos_bound n 16 ltac:(lia)) as Hb.
  set (r := n mod 16) in *. clearbody r.
  assert (Hr : r = 0 \/ r = 1 \/ r = 2 \/ r = 3 \/ r = 4 \/ r = 5 \/ r = 6 \/ r = 8 \/ r = 9 \/ r = 10 \/ r = 11 \/ r = 12 \/ r = 13 \/ r = 14 \/ r = 15) by lia.
  repeat (destruct Hr as [-> | Hr]; [reflexivity|]). subst. reflexivity.
Qed.
Lemma pad_done n : n mod 16 = 7 -> (7 - n) mod 16 = 0.
Proof.
  intros H. rewrite <- Zminus_mod_idemp_r, H. reflexivity.
Qed.
Lemma pad_done' n : (7 - n) mod 16 = 0 -> n mod 16 = 7.
Proof.
  intros H. pose proof (Z.mod_pos_bound n 16 ltac:(lia)) as Hb.
  rewrite <- Zminus_mod_idemp_r in H.
  set (r := n mod 16) in *. clearbody r.
  assert (Hr : r = 7 \/ r = 0 \/ r = 1 \/ r = 2 \/ r = 3 \/ r = 4 \/ r = 5 \/ r = 6 \/ r = 8 \/ r = 9 \/ r = 10 \/ r = 11 \/ r = 12 \/ r = 13 \/ r = 14 \/ r = 15) by lia.
  destruct Hr as [-> | Hr]; [reflexivity|].
  repeat (destruct Hr as [-> | Hr]; [discriminate|]). subst. discriminate.
Qed.
Lemma pad_total n k : (n + k + 9) mod 16 = 0 -> 0 <= n -> 0 <= k -> exists m, n + k + 9 = 16 * (m + 1) /\ 0 <= m.
Proof.
  intros H Hn Hk. exists ((n + k + 9) / 16 - 1).
  pose proof (Z.div_mod (n + k + 9) 16 ltac:(lia)) as Hd. rewrite H in Hd.
  split; [lia|].
  assert (1 <= (n + k + 9) / 16); [|lia].
  apply Z.div_le_lower_bound; lia.
Qed.
Lemma pad_sum n : ((n + (7 - n) mod 16 + 9) mod 16 = 0).
Proof.
  replace (n + (7 - n) mod 16 + 9) with ((n + 9) + (7 - n) mod 16) by lia.
  rewrite Zplus_mod_idemp_r.
  replace (n + 9 + (7 - n)) with (1 * 16) by lia. apply Z_mod_mult.
Qed.

Lemma set_q_same s : FFX.set_q s (FFX.q s) = s.
Proof. destruct s; reflexivity. Qed.

Lemma pad_loop_run fuel : forall s,
  (Z.to_nat ((7 - len (FFX.q s)) mod 16) <= fuel)%nat ->
  FFX.pad_loop fuel s
  = (Ret tt, FFX.set_q s (FFX.q s ++ repeat Byte.x00
                                    (Z.to_nat ((7 - len (FFX.q s)) mod 16)))).
Proof.
  induction fuel as [|fuel IH]; intros s Hk.
  - assert (E : (7 - len (FFX.q s)) mod 16 = 0)
      by (pose proof (Z.mod_pos_bound (7 - len (FFX.q s)) 16); lia).
    rewrite E. cbn [Z.to_nat repeat]. rewrite app_nil_r, set_q_same.
    cbn. unfold bind, get.
    rewrite (pad_done' _ E). reflexivity.
  - cbn [FFX.pad_loop]. unfold bind at 1, get at 1.
    destruct (len (FFX.q s) mod 16 =? 7) eqn:E7.
    + apply Z.eqb_eq in E7. rewrite (pad_done _ E7).
      cbn [Z.to_nat repeat]. rewrite app_nil_r, set_q_same. reflexivity.
    + apply Z.eqb_neq in E7.
      unfold bind at 1, modify at 1.
      set (s1 := FFX.set_q s (FFX.q s ++ [Byte.x00])).
      assert (Hq1 : FFX.q s1 = FFX.q s ++ [Byte.x00]) by reflexivity.
      assert (Hl1 : len (FFX.q s1) = len (FFX.q s) + 1).
      { rewrite Hq1. unfold len. rewrite length_app. cbn [length]. lia. }
      assert (Hk1 : (7 - len (FFX.q s)) mod 16 = (7 - len (FFX.q s1)) mod 16 + 1).
      { rewrite Hl1. apply pad_step; [unfold len; lia | exact E7]. }
      pose proof (Z.mod_pos_bound (7 - len (FFX.q s1)) 16 ltac:(lia)) as Hb.
      rewrite IH by lia.
      rewrite Hk1. rewrite Z2Nat.inj_add by lia. change (Z.to_nat 1) with 1%nat.
      rewrite Nat.add_comm. cbn [repeat Nat.add]. rewrite Hq1.
      rewrite <- app_assoc. cbn [app]. destruct s; reflexivity.
Qed.

Lemma zero_loop_run n : forall s,
  FFX.zero_loop n s = (Ret tt, FFX.set_q s (FFX.q s ++ repeat Byte.x00 n)).
Proof.
  induction n as [|n IH]; intros s.
  - cbn. rewrite app_nil_r, set_q_same. reflexivity.
  - cbn [FFX.zero_loop]. unfold bind, modify. rewrite IH.
    cbn [repeat]. destruct s; cbn. rewrite <- app_assoc. reflexivity.
Qed.

Lemma build_q_run tweak s :
  FFX.build_q tweak s
  = (Ret tt, FFX.set_q s (FFX_q_prefix tweak ++ repeat Byte.x00 8)).
Proof.
  unfold FFX.build_q. unfold bind at 1, modify at 1.
  assert (Hfuel : (Z.to_nat ((7 - len (FFX.q (FFX.set_q s tweak))) mod 16) <= 16)%nat).
  { pose proof (Z.mod_pos_bound (7 - len (FFX.q (FFX.set_q s tweak))) 16 ltac:(lia)).
    lia. }
  rewrite (bind_Ret _ _ _ _ _ (pad_loop_run 16 _ Hfuel)).
  unfold bind at 1, modify at 1. rewrite zero_loop_run.
  destruct s; cbn. unfold FFX_q_prefix. rewrite <- !app_assoc. reflexivity.
Qed.

Lemma length_q_prefix tweak :
  exists m, length (FFX_q_prefix tweak ++ repeat Byte.x00 8) = (16 * S m)%nat.
Proof.
  unfold FFX_q_prefix. rewrite !length_app, !repeat_length. cbn [length].
  pose proof (Z.mod_pos_bound (7 - len tweak) 16 ltac:(lia)) as Hb.
  pose proof (pad_sum (len tweak)) as Hs.
  set (k := (7 - len tweak) mod 16) in *.
  destruct (pad_total (len tweak) k Hs ltac:(unfold len; lia) ltac:(lia)) as (m & Hm & Hm0).
  exists (Z.to_nat m). unfold len in *. lia.
Qed.

Lemma q_shape_build tweak s :
  q_shape (FFX.set_q s (FFX_q_prefix tweak ++ repeat Byte.x00 8)) (FFX_q_prefix tweak).
Proof.
  destruct (length_q_prefix tweak) as (m & Hm).
  exists (repeat Byte.x00 8), m. split; [reflexivity|]. split; [reflexivity | exact Hm].
Qed.

Lemma firstn_length_app {A : Type} (l1 l2 : list A) n :
  length l1 = n -> firstn n (l1 ++ l2) = l1.
Proof.
  intros <-. rewrite <- (Nat.add_0_r (length l1)). rewrite firstn_app_2.
  cbn. apply app_nil_r.
Qed.

Lemma calculateEncryptedP_run c L hdr split tl s :
  FFX_inv c L hdr s -> 0 <= tl ->
  exists s', FFX.calculateEncryptedP split tl s = (Ret tt, s')
             /\ FFX_inv c L hdr s'
             /\ FFX.encryptedP s' = FFX.Encrypt c (FFX_header hdr tl)
             /\ FFX.tweakLen s' = tl
             /\ FFX.q s' = FFX.q s.
Proof.
  intros Hinv Htl. pose proof Hinv as (B1 & B2 & B3 & B4 & B5 & B6).
  unfold FFX.calculateEncryptedP. unfold bind at 1, get at 1.
  destruct (tl =? FFX.tweakLen s) eqn:E.
  - apply Z.eqb_eq in E. exists s. split; [reflexivity|]. split; [exact Hinv|].
    destruct B6 as [[B6 _] | [_ B6]]; [lia|]. rewrite E. auto.
  - assert (Hp : firstn 8 (FFX.p s) ++ binary.BigEndian_PutUint64 (uint64 tl)
                 ++ skipn 16 (FFX.p s) = FFX_header hdr tl).
    { unfold FFX_header.
      assert (Hf : firstn 8 (FFX.p s) = hdr /\ skipn 16 (FFX.p s) = []).
      { destruct B6 as [[_ B6] | [B6 _]]; rewrite B6; unfold FFX_header;
          (split; [apply firstn_length_app; exact B5|]);
          apply skipn_all2; rewrite length_app, B5;
          rewrite ?repeat_length, ?length_BigEndian_PutUint64; lia. }
      destruct Hf as [-> ->]. rewrite app_nil_r. reflexivity. }
    eexists. split.
    { unfold bind, modify, get. cbn -[firstn skipn]. rewrite Hp. reflexivity. }
    cbn. rewrite B4. repeat split; auto.
Qed.

Lemma FFX_split_halves_run v s :
  FFX.split_halves v s
  = (Ret (big.Uint64 (Z.shiftr v (FFX.lengthBits s - FFX.lengthBits s / 2)),
          big.Uint64 (Z.land v (FFX.mask s))),
     FFX.set_masked s (Z.shiftr v (FFX.lengthBits s - FFX.lengthBits s / 2))).
Proof. reflexivity. Qed.

Lemma FFX_join_halves_run a b s :
  FFX.join_halves a b s
  = (Ret (Z.lor (Z.shiftl a (FFX.lengthBits s - FFX.lengthBits s / 2)) b),
     FFX.set_masked s 0).
Proof. reflexivity. Qed.

Lemma RoundSchedule_cases L :
  RoundSchedule L = 36 \/ RoundSchedule L = 30 \/ RoundSchedule L = 24
  \/ RoundSchedule L = 18 \/ RoundSchedule L = 12.
Proof.
  unfold RoundSchedule.
  repeat match goal with |- context [?x <=? ?y] => destruct (x <=? y) end; auto.
Qed.

Lemma RoundSchedule_even L : Z.even (Z.of_nat (Z.to_nat (RoundSchedule L))) = true.
Proof.
  destruct (RoundSchedule_cases L) as [-> | [-> | [-> | [-> | ->]]]]; reflexivity.
Qed.

(** One call of [PermuteInPlace] computes [FFX_perm] and keeps the
    invariant, whatever the scratch state and the cached header. *)
Lemma FFX_PermuteInPlace_run c L hdr s v tweak :
  FFX_inv c L hdr s ->
  exists s', FFX.PermuteInPlace v tweak s = (Ret (FFX_perm c L hdr tweak v), s')
             /\ FFX_inv c L hdr s'.
Proof.
  intros Hinv. pose proof Hinv as (B1 & B2 & B3 & B4 & B5 & B6).
  unfold FFX.PermuteInPlace. unfold bind at 1, get at 1.
  rewrite (bind_Ret _ _ _ _ _ (FFX_split_halves_run v s)).
  set (s1 := FFX.set_masked s _).
  assert (Hinv1 : FFX_inv c L hdr s1) by (eapply FFX_inv_frame; [|exact Hinv]; repeat split).
  destruct (calculateEncryptedP_run c L hdr (FFX.lengthBits s / 2) (len tweak) s1 Hinv1
              ltac:(unfold len; lia)) as (s2 & E2 & Hinv2 & Henc2 & _).
  rewrite (bind_Ret _ _ _ _ _ E2).
  rewrite (bind_Ret _ _ _ _ _ (build_q_run tweak s2)).
  set (s3 := FFX.set_q s2 _).
  assert (Hinv3 : FFX_inv c L hdr s3) by (eapply FFX_inv_frame; [|exact Hinv2]; repeat split).
  unfold bind at 1, gets at 1.
  destruct (rounds_loop_run (FFX_q_prefix tweak) (Z.to_nat (FFX.rounds s3)) s3 0
              (big.Uint64 (Z.shiftr v (FFX.lengthBits s - FFX.lengthBits s / 2)))
              (big.Uint64 (Z.land v (FFX.mask s))) (q_shape_build tweak s2))
    as (s4 & E4 & Hf4 & _).
  assert (Hinv4 : FFX_inv c L hdr s4) by (eapply FFX_inv_frame; eauto).
  destruct Hinv3 as (C1 & C2 & C3 & C4 & _).
  destruct Hinv4 as (D1 & D2 & D3 & D4 & D5 & D6).
  assert (Henc3 : FFX.encryptedP s3 = FFX.Encrypt c (FFX_header hdr (len tweak)))
    by exact Henc2.
  rewrite C1, C2, C4, Henc3, B1, B3 in E4.
  rewrite B1, B3, C2.
  rewrite (bind_Ret _ _ _ _ _ E4).
  unfold FFX_perm.
  destruct (feistel _ _ _ _ _) as [a' b'].
  rewrite FFX_join_halves_run. rewrite D1.
  eexists. split; [reflexivity|].
  unfold FFX_inv. cbn. auto 10.
Qed.

(** ** A Feistel network between a split and a join is a bijection *)

Lemma pow2_pos w : 0 <= w -> 0 < 2 ^ w.
Proof. intros Hw. apply Z.pow_pos_nonneg; lia. Qed.

Section FeistelPerm.
Variable F : Z -> Z -> Z.
Variable n : nat.
Variables wa wb : Z.
Hypothesis wa_nonneg : 0 <= wa.
Hypothesis wb_nonneg : 0 <= wb.
Hypothesis F_range : forall i b,
  0 <= F i b < 2 ^ (if Z.even i then wa else wb).
Hypothesis n_even : Z.even (Z.of_nat n) = true.

Lemma split_ok v :
  0 <= v < 2 ^ (wa + wb) -> halves_ok wa wb 0 (v / 2 ^ wb) (v mod 2 ^ wb).
Proof.
  intros Hv. unfold halves_ok. cbn. split.
  - apply div_pow2_bound; assumption.
  - apply Z.mod_pos_bound. exact (pow2_pos wb wb_nonneg).
Qed.

Lemma join_split a b :
  0 <= b < 2 ^ wb ->
  (a * 2 ^ wb + b) / 2 ^ wb = a /\ (a * 2 ^ wb + b) mod 2 ^ wb = b.
Proof.
  intros Hb. split.
  - rewrite Z.add_comm, Z.div_add by lia. rewrite Z.div_small by lia. lia.
  - rewrite Z.add_comm, Z.mod_add by lia. apply Z.mod_small. lia.
Qed.

Lemma feistel_perm_range v :
  0 <= v < 2 ^ (wa + wb) -> 0 <= feistel_perm F n wb v < 2 ^ (wa + wb).
Proof.
  intros Hv. unfold feistel_perm.
  pose proof (feistel_range F wa wb wa_nonneg wb_nonneg F_range n 0 _ _ (split_ok v Hv)) as H.
  destruct (feistel F n 0 (v / 2 ^ wb) (v mod 2 ^ wb)) as [a' b'].
  unfold halves_ok in H. cbn [fst snd] in H. rewrite Z.add_0_l, n_even in H.
  destruct H. apply join_bound; assumption.
Qed.

Lemma feistel_perm_inv_range y :
  0 <= y < 2 ^ (wa + wb) -> 0 <= feistel_perm_inv F n wb y < 2 ^ (wa + wb).
Proof.
  intros Hy. unfold feistel_perm_inv.
  pose proof (unfeistel_range F wa wb wa_nonneg wb_nonneg F_range n 0
                (y / 2 ^ wb) (y mod 2 ^ wb)) as H.
  destruct (unfeistel F n 0 (y / 2 ^ wb) (y mod 2 ^ wb)) as [a b].
  cbn [fst snd] in H. unfold halves_ok in H. rewrite Z.add_0_l, n_even in H.
  cbn in H. destruct H.
  - split; [apply div_pow2_bound; assumption | apply Z.mod_pos_bound; exact (pow2_pos wb wb_nonneg)].
  - apply join_bound; assumption.
Qed.

Lemma feistel_perm_inv_left v :
  0 <= v < 2 ^ (wa + wb) -> feistel_perm_inv F n wb (feistel_perm F n wb v) = v.
Proof.
  intros Hv. unfold feistel_perm_inv, feistel_perm.
  pose proof (feistel_range F wa wb wa_nonneg wb_nonneg F_range n 0 _ _ (split_ok v Hv)) as H.
  pose proof (unfeistel_feistel F n 0 (v / 2 ^ wb) (v mod 2 ^ wb)) as E.
  destruct (feistel F n 0 (v / 2 ^ wb) (v mod 2 ^ wb)) as [a' b'].
  unfold halves_ok in H. cbn [fst snd] in H. rewrite Z.add_0_l, n_even in H.
  destruct H as [_ Hb]. destruct (join_split a' b' Hb) as [-> ->].
  rewrite E. rewrite Z.mul_comm. symmetry. apply Z.div_mod. lia.
Qed.

Lemma feistel_perm_inv_right y :
  0 <= y < 2 ^ (wa + wb) -> feistel_perm F n wb (feistel_perm_inv F n wb y) = y.
Proof.
  intros Hy. unfold feistel_perm_inv, feistel_perm.
  pose proof (unfeistel_range F wa wb wa_nonneg wb_nonneg F_range n 0
                (y / 2 ^ wb) (y mod 2 ^ wb)) as H.
  pose proof (feistel_unfeistel F n 0 (y / 2 ^ wb) (y mod 2 ^ wb)) as E.
  destruct (unfeistel F n 0 (y / 2 ^ wb) (y mod 2 ^ wb)) as [a b].
  cbn [fst snd] in H. unfold halves_ok in H. rewrite Z.add_0_l, n_even in H.
  cbn in H. destruct H as [_ Hb].
  { split; [apply div_pow2_bound; assumption | apply Z.mod_pos_bound; exact (pow2_pos wb wb_nonneg)]. }
  destruct (join_split a b Hb) as [-> ->].
  rewrite E. rewrite Z.mul_comm. symmetry. apply Z.div_mod. lia.
Qed.

Lemma feistel_perm_inj v1 v2 :
  0 <= v1 < 2 ^ (wa + wb) -> 0 <= v2 < 2 ^ (wa + wb) ->
  feistel_perm F n wb v1 = feistel_perm F n wb v2 -> v1 = v2.
Proof.
  intros H1 H2 E.
  rewrite <- (feistel_perm_inv_left v1 H1), <- (feistel_perm_inv_left v2 H2).
  rewrite E. reflexivity.
Qed.

Lemma feistel_perm_surj y :
  0 <= y < 2 ^ (wa + wb) ->
  exists v, 0 <= v < 2 ^ (wa + wb) /\ feistel_perm F n wb v = y.
Proof.
  intros Hy. exists (feistel_perm_inv F n wb y).
  split; [apply feistel_perm_inv_range; exact Hy | apply feistel_perm_inv_right; exact Hy].
Qed.
End FeistelPerm.

(** ** FFX is a Feistel permutation *)

Lemma Uint64_small x : 0 <= x < 2 ^ 64 -> big.Uint64 x = x.
Proof.
  intros Hx. unfold big.Uint64. rewrite Z.abs_eq by lia. apply Z.mod_small. exact Hx.
Qed.

Lemma FFX_round_value_range c L encP qpre i B :
  0 <= L / 2 <= 64 -> 0 <= L - L / 2 <= 64 ->
  0 <= FFX_round_value c L encP qpre i B
    < 2 ^ (if Z.even i then L / 2 else L - L / 2).
Proof.
  intros H1 H2. unfold FFX_round_value. rewrite land_1_even.
  set (keep := if Z.even i then L / 2 else L - L / 2).
  assert (Hk : 0 <= keep <= 64) by (subst keep; destruct (Z.even i); lia).
  set (x := Z.shiftl _ _). unfold uint64.
  rewrite Z.shiftr_div_pow2 by lia.
  pose proof (Z.mod_pos_bound x (2 ^ 64) ltac:(lia)) as Hm.
  assert (Hp : 0 < 2 ^ (64 - keep)) by (apply Z.pow_pos_nonneg; lia).
  split; [apply Z.div_pos; lia|].
  apply Z.div_lt_upper_bound; [lia|].
  rewrite <- Z.pow_add_r by lia. replace (64 - keep + keep) with 64 by lia. lia.
Qed.

Lemma FFX_perm_feistel c L hdr tweak v :
  8 <= L <= 128 -> 0 <= v < 2 ^ L ->
  FFX_perm c L hdr tweak v
  = feistel_perm (FFX_round_value c L (FFX.Encrypt c (FFX_header hdr (len tweak)))
                                  (FFX_q_prefix tweak))
                 (Z.to_nat (RoundSchedule L)) (L - L / 2) v.
Proof.
  intros HL Hv.
  assert (H1 : 4 <= L / 2 <= 64) by (Z.div_mod_to_equations; lia).
  assert (H2 : 4 <= L - L / 2 <= 64) by (Z.div_mod_to_equations; lia).
  assert (Hp : 0 < 2 ^ (L - L / 2)) by (apply Z.pow_pos_nonneg; lia).
  assert (Hpw : 2 ^ (L - L / 2) <= 2 ^ 64) by (apply Z.pow_le_mono_r; lia).
  assert (Hpa : 2 ^ (L / 2) <= 2 ^ 64) by (apply Z.pow_le_mono_r; lia).
  unfold FFX_perm, feistel_perm.
  rewrite land_mask_mod by lia. rewrite Z.shiftr_div_pow2 by lia.
  pose proof (Z.mod_pos_bound v (2 ^ (L - L / 2)) Hp) as Hb.
  assert (Ha : 0 <= v / 2 ^ (L - L / 2) < 2 ^ (L / 2)).
  { apply div_pow2_bound; try lia. replace (L / 2 + (L - L / 2)) with L by lia. exact Hv. }
  rewrite !Uint64_small by lia.
  pose proof (feistel_range
                (FFX_round_value c L (FFX.Encrypt c (FFX_header hdr (len tweak)))
                                 (FFX_q_prefix tweak))
                (L / 2) (L - L / 2) ltac:(lia) ltac:(lia)
                (fun i b => FFX_round_value_range c L _ _ i b ltac:(lia) ltac:(lia))
                (Z.to_nat (RoundSchedule L)) 0
                (v / 2 ^ (L - L / 2)) (v mod 2 ^ (L - L / 2))) as Hr.
  destruct (feistel _ _ _ _ _) as [a' b'].
  unfold halves_ok in Hr. cbn [fst snd] in Hr.
  rewrite Z.add_0_l, RoundSchedule_even in Hr. cbn in Hr.
  destruct Hr as [_ Hb']; [split; assumption|].
  apply shiftl_lor_add; lia.
Qed.

(** FFX_perm is a bijection of [[0, 2^L)]. *)
Lemma FFX_perm_range c L hdr tweak v :
  8 <= L <= 128 -> 0 <= v < 2 ^ L -> 0 <= FFX_perm c L hdr tweak v < 2 ^ L.
Proof.
  intros HL Hv. rewrite FFX_perm_feistel by assumption.
  assert (H1 : 4 <= L / 2 <= 64) by (Z.div_mod_to_equations; lia).
  assert (H2 : 4 <= L - L / 2 <= 64) by (Z.div_mod_to_equations; lia).
  assert (HLs : L / 2 + (L - L / 2) = L) by lia.
  pose proof (feistel_perm_range
                (FFX_round_value c L (FFX.Encrypt c (FFX_header hdr (len tweak)))
                                 (FFX_q_prefix tweak))
                (Z.to_nat (RoundSchedule L)) (L / 2) (L - L / 2) ltac:(lia) ltac:(lia)
                (fun i b => FFX_round_value_range c L _ _ i b ltac:(lia) ltac:(lia))
                (RoundSchedule_even L) v) as H.
  rewrite HLs in H. exact (H Hv).
Qed.

Lemma FFX_perm_inj c L hdr tweak v1 v2 :
  8 <= L <= 128 -> 0 <= v1 < 2 ^ L -> 0 <= v2 < 2 ^ L ->
  FFX_perm c L hdr tweak v1 = FFX_perm c L hdr tweak v2 -> v1 = v2.
Proof.
  intros HL Hv1 Hv2. rewrite !FFX_perm_feistel by assumption.
  assert (H1 : 4 <= L / 2 <= 64) by (Z.div_mod_to_equations; lia).
  assert (H2 : 4 <= L - L / 2 <= 64) by (Z.div_mod_to_equations; lia).
  assert (HLs : L / 2 + (L - L / 2) = L) by lia.
  pose proof (feistel_perm_inj
                (FFX_round_value c L (FFX.Encrypt c (FFX_header hdr (len tweak)))
                                 (FFX_q_prefix tweak))
                (Z.to_nat (RoundSchedule L)) (L / 2) (L - L / 2) ltac:(lia) ltac:(lia)
                (fun i b => FFX_round_value_range c L _ _ i b ltac:(lia) ltac:(lia))
                (RoundSchedule_even L) v1 v2) as H.
  rewrite HLs in H. exact (H Hv1 Hv2).
Qed.

Lemma FFX_perm_surj c L hdr tweak y :
  8 <= L <= 128 -> 0 <= y < 2 ^ L ->
  exists v, 0 <= v < 2 ^ L /\ FFX_perm c L hdr tweak v = y.
Proof.
  intros HL Hy.
  assert (H1 : 4 <= L / 2 <= 64) by (Z.div_mod_to_equations; lia).
  assert (H2 : 4 <= L - L / 2 <= 64) by (Z.div_mod_to_equations; lia).
  destruct (feistel_perm_surj
              (FFX_round_value c L (FFX.Encrypt c (FFX_header hdr (len tweak)))
                               (FFX_q_prefix tweak))
              (Z.to_nat (RoundSchedule L)) (L / 2) (L - L / 2) ltac:(lia) ltac:(lia)
              (fun i b => FFX_round_value_range c L _ _ i b ltac:(lia) ltac:(lia))
              (RoundSchedule_even L) y) as (v & Hv & E).
  { replace (L / 2 + (L - L / 2)) with L by lia. exact Hy. }
  replace (L / 2 + (L - L / 2)) with L in Hv by lia.
  exists v. split; [exact Hv|]. rewrite FFX_perm_feistel by assumption. exact E.
Qed.

(** ** The SHAKE engine as a function of its configuration *)

Arguments le_split _ _ : simpl never.
Arguments le_combine _ : simpl never.
Arguments big.SetBytes _ : simpl never.
Arguments Z.to_nat _ : simpl never.
Arguments Z.of_nat _ : simpl never.
Arguments Z.div _ _ : simpl never.
Arguments Z.modulo _ _ : simpl never.
Arguments Z.pow _ _ : simpl never.
Arguments Z.mul _ _ : simpl never.
Arguments Z.add _ _ : simpl never.
Arguments Z.sub _ _ : simpl never.
Arguments Z.shiftr _ _ : simpl never.
Arguments Z.land _ _ : simpl never.
Arguments Z.ltb _ _ : simpl never.
Arguments Z.gtb _ _ : simpl never.
Arguments Z.eqb _ _ : simpl never.
Arguments repeat {A} _ _ : simpl never.
Arguments skipn {A} _ _ : simpl never.
Arguments seq _ _ : simpl never.

Lemma FillBytes_Ret x n :
  0 <= x < 2 ^ (8 * Z.of_nat n) -> big.FillBytes x n = Ret (rev (le_split n x)).
Proof.
  intros Hx. unfold big.FillBytes. rewrite Z.abs_eq by lia.
  replace (x <? 2 ^ (8 * Z.of_nat n)) with true by (symmetry; apply Z.ltb_lt; lia).
  reflexivity.
Qed.

Arguments len {A} _ : simpl never.

(** Steps of monadic code. *)
Lemma run_modify {S B : Type} (f : S -> S) (k : unit -> M S B) s :
  bind (modify f) k s = k tt (f s).
Proof. reflexivity. Qed.

Lemma run_gets {S A B : Type} (f : S -> A) (k : A -> M S B) s :
  bind (gets f) k s = k (f s) s.
Proof. reflexivity. Qed.

Lemma run_get {S B : Type} (k : S -> M S B) s : bind get k s = k s s.
Proof. reflexivity. Qed.

Lemma run_ret {S A B : Type} (a : A) (k : A -> M S B) s : bind (ret a) k s = k a s.
Proof. reflexivity. Qed.

Lemma run_lift_Ret {S A B : Type} (a : A) (k : A -> M S B) s :
  bind (lift (Ret a)) k s = k a s.
Proof. reflexivity. Qed.

Lemma run_if_modify {S B : Type} (c : bool) (f : S -> S) (k : unit -> M S B) s :
  bind (if c then modify f else ret tt) k s = k tt (if c then f s else s).
Proof. destruct c; reflexivity. Qed.

Lemma run_bind_assoc {S A B C : Type} (m : M S A) (k1 : A -> M S B) (k2 : B -> M S C) s :
  bind (bind m k1) k2 s = bind m (fun a => bind (k1 a) k2) s.
Proof.
  unfold bind. destruct (m s) as [[a | e |] s']; reflexivity.
Qed.

Lemma slice_to_run n s :
  0 <= n <= len (FeistelSHAKE128.roundScratch s) ->
  FeistelSHAKE128.slice_to n s = (Ret (Z.to_nat n), s).
Proof.
  intros Hn. unfold FeistelSHAKE128.slice_to. rewrite run_get.
  replace ((n <? 0) || (len (FeistelSHAKE128.roundScratch s) <? n)) with false;
    [reflexivity|].
  symmetry. apply orb_false_iff. split; lia.
Qed.

Lemma len_write_scratch (data rs : list byte) :
  len data <= len rs -> len (data ++ skipn (length data) rs) = len rs.
Proof.
  unfold len. intros H. rewrite length_app, length_skipn. lia.
Qed.

Ltac shake_norm :=
  unfold FeistelSHAKE128.set_h, FeistelSHAKE128.set_roundScratch,
    sha3.Reset, sha3.Write;
  cbn [FeistelSHAKE128.h FeistelSHAKE128.key FeistelSHAKE128.lengthBits
       FeistelSHAKE128.rounds FeistelSHAKE128.in_ FeistelSHAKE128.a
       FeistelSHAKE128.b FeistelSHAKE128.c FeistelSHAKE128.f
       FeistelSHAKE128.mask FeistelSHAKE128.roundScratch
       sha3.xof sha3.absorbed sha3.squeezed].

Lemma SHAKE_RoundFunc_run xof key L s round b tweak :
  SHAKE_inv xof key L s ->
  b <> FeistelSHAKE128.f_ref ->
  0 <= FeistelSHAKE128.load b s
    < 2 ^ (if Z.land round 1 =? 0 then L / 2 else L - L / 2) ->
  exists s', FeistelSHAKE128.RoundFunc round b FeistelSHAKE128.f_ref tweak s
             = (Ret FeistelSHAKE128.f_ref, s')
    /\ FeistelSHAKE128.load FeistelSHAKE128.f_ref s'
       = SHAKE_round_value xof key L tweak round (FeistelSHAKE128.load b s)
    /\ SHAKE_frame FeistelSHAKE128.f_ref s s'
    /\ SHAKE_inv xof key L s'.
Proof.
  intros (I1 & I2 & I3 & I4 & I5) Hb Hrange.
  assert (H1 : 1 <= L / 2 <= L) by (Z.div_mod_to_equations; lia).
  assert (H2 : 1 <= L - L / 2 <= L) by (Z.div_mod_to_equations; lia).
  unfold SHAKE_round_value.
  set (inLenBits := if Z.land round 1 =? 0 then L / 2 else L - L / 2) in *.
  set (outLenBits := if Z.land round 1 =? 0 then L - L / 2 else L / 2).
  assert (Hin : 1 <= inLenBits <= L) by (subst inLenBits; destruct (_ =? _); lia).
  assert (Hout : 1 <= outLenBits <= L) by (subst outLenBits; destruct (_ =? _); lia).
  assert (Hinb : 1 <= (inLenBits + 7) / 8 <= (L + 7) / 8)
    by (Z.div_mod_to_equations; lia).
  assert (Houtb : 1 <= (outLenBits + 7) / 8 <= (L + 7) / 8)
    by (Z.div_mod_to_equations; lia).
  set (bval := FeistelSHAKE128.load b s) in *.
  set (nin := Z.to_nat ((inLenBits + 7) / 8)).
  set (nout := Z.to_nat ((outLenBits + 7) / 8)).
  assert (Hfill : big.FillBytes bval nin = Ret (rev (le_split nin bval))).
  { apply FillBytes_Ret. split; [lia|].
    eapply Z.lt_le_trans; [apply Hrange|]. apply Z.pow_le_mono_r; [lia|].
    subst nin. rewrite Z2Nat.id by lia. Z.div_mod_to_equations; lia. }
  set (scratch := rev (le_split nin bval)) in *.
  assert (Hlscr : length scratch = nin)
    by (subst scratch; rewrite length_rev, length_le_split; reflexivity).
  unfold FeistelSHAKE128.RoundFunc.
  rewrite run_get. rewrite I1.
  replace (if Z.land round 1 =? 0 then (L / 2, L - L / 2) else (L - L / 2, L / 2))
    with (inLenBits, outLenBits)
    by (subst inLenBits outLenBits; destruct (_ =? _); reflexivity).
  cbv iota beta.
  rewrite run_bind_assoc || idtac.
  rewrite run_if_modify.
  set (s1 := if len (FeistelSHAKE128.roundScratch s) <? (L + 7) / 8 then _ else s).
  assert (Hs1 : len (FeistelSHAKE128.roundScratch s1) >= (L + 7) / 8
                /\ FeistelSHAKE128.key s1 = key
                /\ (forall r, FeistelSHAKE128.load r s1 = FeistelSHAKE128.load r s)
                /\ sha3.xof (FeistelSHAKE128.h s1) = xof
                /\ FeistelSHAKE128.lengthBits s1 = L
                /\ FeistelSHAKE128.rounds s1 = RoundSchedule L).
  { subst s1. destruct (len (FeistelSHAKE128.roundScratch s) <? (L + 7) / 8) eqn:E.
    - cbn [FeistelSHAKE128.roundScratch FeistelSHAKE128.set_roundScratch
           FeistelSHAKE128.key FeistelSHAKE128.h FeistelSHAKE128.lengthBits
           FeistelSHAKE128.rounds].
      rewrite I1. unfold len. rewrite repeat_length.
      repeat split; auto; try lia.
    - repeat split; auto. lia. }
  destruct Hs1 as (Hrs1 & Hk1 & Hld1 & Hx1 & HL1 & Hr1).
  rewrite run_modify. unfold FeistelSHAKE128.h_Write.
  rewrite !run_modify.
  rewrite I2.
  clearbody s1. destruct s1 as [k1 lb1 rd1 vin va vb vc vf vmask rs hh].
  cbn in Hrs1, Hk1, Hx1, HL1, Hr1. subst k1 lb1 rd1.
  destruct hh as [xof' ab sq]. cbn in Hx1. subst xof'.
  shake_norm.
  rewrite app_nil_l.
  set (pre := SHAKE_prefix key outLenBits round tweak).
  assert (Hstep : forall (B : Type) (k : unit -> M FeistelSHAKE128.t B) rs0 sq0,
    bind (if len tweak >? 0
          then modify (fun s0 => FeistelSHAKE128.set_h s0
                         (sha3.Write (FeistelSHAKE128.h s0)
                            (binary.LittleEndian_PutUint64 (uint64 (len tweak))))) ;;
               modify (fun s0 => FeistelSHAKE128.set_h s0
                         (sha3.Write (FeistelSHAKE128.h s0) tweak))
          else ret tt) k
      (FeistelSHAKE128.mk key L (RoundSchedule L) vin va vb vc vf vmask rs0
         (sha3.mkSHAKE xof
            (((binary.LittleEndian_PutUint64 (uint64 (len key)) ++ key)
                ++ binary.LittleEndian_PutUint64 (uint64 outLenBits))
               ++ binary.LittleEndian_PutUint64 (uint64 round)) sq0))
    = k tt (FeistelSHAKE128.mk key L (RoundSchedule L) vin va vb vc vf vmask rs0
              (sha3.mkSHAKE xof pre sq0))).
  { intros B k rs0 sq0. subst pre. unfold SHAKE_prefix.
    destruct (len tweak >? 0).
    - rewrite run_bind_assoc, !run_modify.
      shake_norm.
      rewrite <- (app_assoc _ (binary.LittleEndian_PutUint64 (uint64 (len tweak))) tweak).
      reflexivity.
    - rewrite run_ret, app_nil_r. reflexivity. }
  rewrite Hstep. clear Hstep.
  erewrite bind_Ret by (apply slice_to_run; cbn [FeistelSHAKE128.roundScratch]; lia).
  rewrite run_gets.
  assert (Hldb : FeistelSHAKE128.load b
                   (FeistelSHAKE128.mk key L (RoundSchedule L) vin va vb vc vf vmask rs
                      (sha3.mkSHAKE xof pre 0)) = bval).
  { subst bval. rewrite <- Hld1. destruct b; reflexivity. }
  rewrite Hldb. fold nin. rewrite Hfill. rewrite run_lift_Ret.
  unfold FeistelSHAKE128.write_scratch at 1. rewrite !run_modify.
  shake_norm.
  assert (Hlen2 : len (scratch ++ skipn (length scratch) rs) = len rs).
  { apply len_write_scratch. unfold len in *. rewrite Hlscr. subst nin. lia. }
  erewrite bind_Ret by (apply slice_to_run; cbn [FeistelSHAKE128.roundScratch]; lia).
  rewrite run_get. fold nout.
  cbn [FeistelSHAKE128.h sha3.Read sha3.xof sha3.absorbed sha3.squeezed Nat.add].
  rewrite run_modify.
  unfold FeistelSHAKE128.write_scratch at 1. rewrite run_modify.
  shake_norm.
  set (ob := map (fun i : nat => xof (pre ++ scratch) i) (seq 0 nout)).
  assert (Hob : map (xof (pre ++ scratch)) (seq 0 nout) = ob) by reflexivity.
  rewrite ?Hob.
  assert (Hobl : length ob = nout) by (subst ob; rewrite length_map, length_seq; reflexivity).
  assert (Hframe : forall vf' rs' hh',
    SHAKE_frame FeistelSHAKE128.f_ref s
      (FeistelSHAKE128.mk key L (RoundSchedule L) vin va vb vc vf' vmask rs' hh')).
  { intros vf' rs' hh' r Hr. rewrite <- Hld1. destruct r; try reflexivity. congruence. }
  unfold mask_top.
  destruct (negb (outLenBits mod 8 =? 0)).
  - destruct ob as [|b0 rest]; [cbn in Hobl; lia|].
    rewrite run_bind_assoc. unfold FeistelSHAKE128.write_scratch.
    rewrite !run_modify, run_ret. shake_norm.
    eexists. split; [reflexivity|]. split; [reflexivity|].
    split; [apply Hframe | repeat split; auto].
  - rewrite run_ret, run_modify.
    eexists. split; [reflexivity|]. split; [reflexivity|].
    split; [apply Hframe | repeat split; auto].
Qed.

(** The first byte of the output after masking has [rem] bits. *)
Lemma masked_byte_range b0 rem :
  1 <= rem <= 7 ->
  0 <= byte.unsigned (byte.and b0 (to_byte (Z.shiftr 255 (8 - rem)))) < 2 ^ rem.
Proof.
  intros Hr. unfold byte.and, to_byte.
  rewrite !byte.unsigned_of_Z. unfold byte.wrap.
  pose proof (byte.unsigned_range b0) as Hb.
  assert (Hm : Z.shiftr 255 (8 - rem) mod 2 ^ 8 = 2 ^ rem - 1).
  { assert (C : rem = 1 \/ rem = 2 \/ rem = 3 \/ rem = 4 \/ rem = 5 \/ rem = 6 \/ rem = 7)
      by lia.
    destruct C as [-> | [-> | [-> | [-> | [-> | [-> | ->]]]]]]; reflexivity. }
  rewrite Hm. rewrite land_mask_mod by lia.
  assert (Hp : 0 < 2 ^ rem) by (apply Z.pow_pos_nonneg; lia).
  pose proof (Z.mod_pos_bound (byte.unsigned b0) (2 ^ rem) Hp) as Hlt.
  assert (Hle : 2 ^ rem <= 2 ^ 8) by (apply Z.pow_le_mono_r; lia).
  rewrite Z.mod_small; lia.
Qed.

Lemma SetBytes_bound bs : 0 <= big.SetBytes bs < 2 ^ (8 * Z.of_nat (length bs)).
Proof.
  unfold big.SetBytes. pose proof (le_combine_bound (rev bs)) as H.
  rewrite length_rev in H. exact H.
Qed.

Lemma SetBytes_cons b0 rest :
  big.SetBytes (b0 :: rest)
  = byte.unsigned b0 * 2 ^ (8 * Z.of_nat (length rest)) + big.SetBytes rest.
Proof.
  unfold big.SetBytes. cbn [rev]. rewrite le_combine_app, le_combine_1.
  rewrite length_rev. rewrite Z.lor_comm.
  pose proof (le_combine_bound (rev rest)) as H. rewrite length_rev in H.
  replace (Z.of_nat (length rest) * 8) with (8 * Z.of_nat (length rest)) by lia.
  apply shiftl_lor_add; [lia | exact H].
Qed.

Lemma mask_top_bound outLenBits ob :
  1 <= outLenBits -> length ob = Z.to_nat ((outLenBits + 7) / 8) ->
  0 <= big.SetBytes (mask_top outLenBits ob) < 2 ^ outLenBits.
Proof.
  intros Hout Hlen. unfold mask_top.
  destruct (outLenBits mod 8 =? 0) eqn:E; cbn [negb].
  - apply Z.eqb_eq in E. pose proof (SetBytes_bound ob) as H.
    rewrite Hlen in H. rewrite Z2Nat.id in H by (Z.div_mod_to_equations; lia).
    replace (8 * ((outLenBits + 7) / 8)) with outLenBits in H
      by (Z.div_mod_to_equations; lia).
    exact H.
  - apply Z.eqb_neq in E.
    destruct ob as [|b0 rest].
    { exfalso. cbn [length] in Hlen.
      assert (1 <= (outLenBits + 7) / 8) by (Z.div_mod_to_equations; lia). lia. }
    rewrite SetBytes_cons.
    pose proof (Z.mod_pos_bound outLenBits 8 ltac:(lia)) as Hm.
    pose proof (masked_byte_range b0 (outLenBits mod 8) ltac:(lia)) as Hb.
    pose proof (SetBytes_bound rest) as Hr.
    cbn [length] in Hlen.
    assert (Hk : 8 * Z.of_nat (length rest) = outLenBits - outLenBits mod 8).
    { assert (Z.of_nat (S (length rest)) = (outLenBits + 7) / 8).
      { rewrite Hlen. apply Z2Nat.id. Z.div_mod_to_equations; lia. }
      Z.div_mod_to_equations; lia. }
    pose proof (join_bound _ _ (outLenBits mod 8) (8 * Z.of_nat (length rest))
                  ltac:(lia) ltac:(lia) Hb Hr) as Hj.
    replace (outLenBits mod 8 + 8 * Z.of_nat (length rest)) with outLenBits in Hj by lia.
    exact Hj.
Qed.

Lemma SHAKE_round_value_range xof key L tweak round bval :
  2 <= L ->
  0 <= SHAKE_round_value xof key L tweak round bval
    < 2 ^ (if Z.even round then L - L / 2 else L / 2).
Proof.
  intros HL. unfold SHAKE_round_value. rewrite land_1_even.
  assert (H1 : 1 <= L / 2) by (Z.div_mod_to_equations; lia).
  assert (H2 : 1 <= L - L / 2) by (Z.div_mod_to_equations; lia).
  apply mask_top_bound.
  - destruct (Z.even round); lia.
  - rewrite length_map, length_seq. reflexivity.
Qed.

Lemma load_store_same r v s : FeistelSHAKE128.load r (FeistelSHAKE128.store r v s) = v.
Proof. destruct r; reflexivity. Qed.

Lemma load_store_other r r' v s :
  r <> r' -> FeistelSHAKE128.load r (FeistelSHAKE128.store r' v s) = FeistelSHAKE128.load r s.
Proof. destruct r, r'; intros H; try reflexivity; congruence. Qed.

Lemma SHAKE_inv_store xof key L r v s :
  SHAKE_inv xof key L s -> SHAKE_inv xof key L (FeistelSHAKE128.store r v s).
Proof. unfold SHAKE_inv. destruct r; cbn; auto. Qed.

Lemma SHAKE_rounds_loop_run xof key L tweak n : forall s i a b c,
  SHAKE_inv xof key L s -> rotating a b c ->
  halves_ok (L - L / 2) (L / 2) i (FeistelSHAKE128.load a s) (FeistelSHAKE128.load b s) ->
  exists s' a' b',
    FeistelSHAKE128.rounds_loop n i a b c FeistelSHAKE128.f_ref tweak s
    = (Ret (a', b'), s')
    /\ (FeistelSHAKE128.load a' s', FeistelSHAKE128.load b' s')
       = feistel (SHAKE_round_value xof key L tweak) n i
                 (FeistelSHAKE128.load a s) (FeistelSHAKE128.load b s)
    /\ SHAKE_inv xof key L s'.
Proof.
  induction n as [|n IH]; intros s i a b c Hinv Hrot Hok.
  - exists s, a, b. cbn. auto.
  - destruct Hrot as (Hab & Hbc & Hac & Haf & Hbf & Hcf).
    pose proof Hinv as (_ & _ & _ & _ & HL).
    cbn [FeistelSHAKE128.rounds_loop feistel].
    destruct (SHAKE_RoundFunc_run xof key L s i b tweak Hinv Hbf) as (s1 & E1 & Hf1 & Hfr1 & Hinv1).
    { rewrite land_1_even. unfold halves_ok in Hok. destruct (Z.even i); lia. }
    rewrite (bind_Ret _ _ _ _ _ E1). rewrite run_modify.
    set (s2 := FeistelSHAKE128.store c _ s1).
    assert (Ha2 : FeistelSHAKE128.load b s2 = FeistelSHAKE128.load b s).
    { subst s2. rewrite load_store_other by exact Hbc. apply Hfr1. exact Hbf. }
    assert (Hb2 : FeistelSHAKE128.load c s2
                  = Z.lxor (FeistelSHAKE128.load a s)
                      (SHAKE_round_value xof key L tweak i (FeistelSHAKE128.load b s))).
    { subst s2. rewrite load_store_same. rewrite Hf1. f_equal. apply Hfr1. exact Haf. }
    destruct (IH s2 (i + 1) b c a) as (s3 & a' & b' & E3 & Hv3 & Hinv3).
    + subst s2. apply SHAKE_inv_store. exact Hinv1.
    + unfold rotating. repeat split; auto.
    + rewrite Ha2, Hb2.
      assert (H1 : 0 <= L / 2) by (Z.div_mod_to_equations; lia).
      assert (H2 : 0 <= L - L / 2) by (Z.div_mod_to_equations; lia).
      exact (halves_ok_step (SHAKE_round_value xof key L tweak) _ _ H2 H1
               (fun i0 b0 => SHAKE_round_value_range xof key L tweak i0 b0 HL)
               i _ _ Hok).
    + exists s3, a', b'. split; [exact E3|]. split; [|exact Hinv3].
      rewrite Hv3, Ha2, Hb2. reflexivity.
Qed.

Lemma SHAKE_PermuteInPlace_run xof key L s v tweak :
  SHAKE_inv xof key L s -> 0 <= v < 2 ^ L ->
  exists s', FeistelSHAKE128.PermuteInPlace v tweak s
             = (Ret (SHAKE_perm xof key L tweak v), s')
             /\ SHAKE_inv xof key L s'.
Proof.
  intros Hinv Hv. pose proof Hinv as (I1 & I2 & I3 & I4 & I5).
  assert (H1 : 1 <= L / 2) by (Z.div_mod_to_equations; lia).
  assert (H2 : 1 <= L - L / 2) by (Z.div_mod_to_equations; lia).
  assert (Hp : 0 < 2 ^ (L / 2)) by (apply Z.pow_pos_nonneg; lia).
  unfold FeistelSHAKE128.PermuteInPlace, FeistelSHAKE128.split_halves.
  rewrite run_bind_assoc, run_get. rewrite I1.
  repeat (rewrite run_bind_assoc || rewrite run_modify). rewrite run_gets.
  set (s1 := FeistelSHAKE128.store FeistelSHAKE128.a_ref _ _).
  assert (Hinv1 : SHAKE_inv xof key L s1)
    by (subst s1; repeat apply SHAKE_inv_store; exact Hinv).
  assert (Hb1 : FeistelSHAKE128.load FeistelSHAKE128.b_ref s1 = v mod 2 ^ (L / 2)).
  { subst s1. destruct s; cbn. unfold big.SetInt64.
    rewrite Z.shiftl_1_l. apply land_mask_mod. lia. }
  assert (Ha1 : FeistelSHAKE128.load FeistelSHAKE128.a_ref s1 = v / 2 ^ (L / 2)).
  { subst s1. destruct s; cbn. apply Z.shiftr_div_pow2. lia. }
  assert (Hr1 : FeistelSHAKE128.rounds s1 = RoundSchedule L) by apply Hinv1.
  rewrite Hr1.
  assert (Hok : halves_ok (L - L / 2) (L / 2) 0 (v / 2 ^ (L / 2)) (v mod 2 ^ (L / 2))).
  { apply split_ok; try lia. replace (L - L / 2 + L / 2) with L by lia. exact Hv. }
  destruct (SHAKE_rounds_loop_run xof key L tweak (Z.to_nat (RoundSchedule L)) s1 0
              FeistelSHAKE128.a_ref FeistelSHAKE128.b_ref FeistelSHAKE128.c_ref Hinv1)
    as (s2 & a' & b' & E2 & Hv2 & Hinv2).
  { unfold rotating. repeat split; discriminate. }
  { rewrite Ha1, Hb1. exact Hok. }
  rewrite (bind_Ret _ _ _ _ _ E2).
  unfold FeistelSHAKE128.join_halves. rewrite run_get, !run_gets.
  exists s2. split; [|exact Hinv2].
  unfold ret. f_equal. f_equal.
  rewrite Ha1, Hb1 in Hv2.
  unfold SHAKE_perm, feistel_perm.
  pose proof (feistel_range (SHAKE_round_value xof key L tweak) (L - L / 2) (L / 2)
                ltac:(lia) ltac:(lia)
                (fun i b => SHAKE_round_value_range xof key L tweak i b I5)
                (Z.to_nat (RoundSchedule L)) 0 _ _ Hok) as Hrg.
  rewrite <- Hv2 in *. cbn [fst snd] in Hrg.
  unfold halves_ok in Hrg. rewrite Z.add_0_l, RoundSchedule_even in Hrg.
  destruct Hinv2 as (-> & _).
  apply shiftl_lor_add; lia.
Qed.

(** SHAKE_perm is a bijection of [[0, 2^L)]. *)
Lemma SHAKE_perm_range xof key L tweak v :
  2 <= L -> 0 <= v < 2 ^ L -> 0 <= SHAKE_perm xof key L tweak v < 2 ^ L.
Proof.
  intros HL Hv.
  assert (H1 : 1 <= L / 2) by (Z.div_mod_to_equations; lia).
  assert (H2 : 1 <= L - L / 2) by (Z.div_mod_to_equations; lia).
  assert (HLs : L - L / 2 + L / 2 = L) by lia.
  pose proof (feistel_perm_range (SHAKE_round_value xof key L tweak)
                (Z.to_nat (RoundSchedule L)) (L - L / 2) (L / 2) ltac:(lia) ltac:(lia)
                (fun i b => SHAKE_round_value_range xof key L tweak i b HL)
                (RoundSchedule_even L) v) as H.
  rewrite HLs in H. exact (H Hv).
Qed.

Lemma SHAKE_perm_inj xof key L tweak v1 v2 :
  2 <= L -> 0 <= v1 < 2 ^ L -> 0 <= v2 < 2 ^ L ->
  SHAKE_perm xof key L tweak v1 = SHAKE_perm xof key L tweak v2 -> v1 = v2.
Proof.
  intros HL Hv1 Hv2.
  assert (H1 : 1 <= L / 2) by (Z.div_mod_to_equations; lia).
  assert (H2 : 1 <= L - L / 2) by (Z.div_mod_to_equations; lia).
  assert (HLs : L - L / 2 + L / 2 = L) by lia.
  pose proof (feistel_perm_inj (SHAKE_round_value xof key L tweak)
                (Z.to_nat (RoundSchedule L)) (L - L / 2) (L / 2) ltac:(lia) ltac:(lia)
                (fun i b => SHAKE_round_value_range xof key L tweak i b HL)
                (RoundSchedule_even L) v1 v2) as H.
  rewrite HLs in H. exact (H Hv1 Hv2).
Qed.

Lemma SHAKE_perm_surj xof key L tweak y :
  2 <= L -> 0 <= y < 2 ^ L ->
  exists v, 0 <= v < 2 ^ L /\ SHAKE_perm xof key L tweak v = y.
Proof.
  intros HL Hy.
  assert (H1 : 1 <= L / 2) by (Z.div_mod_to_equations; lia).
  assert (H2 : 1 <= L - L / 2) by (Z.div_mod_to_equations; lia).
  assert (HLs : L - L / 2 + L / 2 = L) by lia.
  pose proof (feistel_perm_surj (SHAKE_round_value xof key L tweak)
                (Z.to_nat (RoundSchedule L)) (L - L / 2) (L / 2) ltac:(lia) ltac:(lia)
                (fun i b => SHAKE_round_value_range xof key L tweak i b HL)
                (RoundSchedule_even L) y) as H.
  rewrite HLs in H. exact (H Hy).
Qed.

(** ** Invariants kept by every call, whatever its outcome *)

Lemma preserves_bind {S A B : Type} (I : S -> Prop) (m : M S A) (k : A -> M S B) :
  preserves I m -> (forall a, preserves I (k a)) -> preserves I (bind m k).
Proof.
  intros Hm Hk s r s' Hs E. unfold bind in E.
  destruct (m s) as [[a | e |] s1] eqn:Em.
  - eapply Hk; [eapply Hm; eauto | exact E].
  - injection E as <- <-. eapply Hm; eauto.
  - injection E as <- <-. eapply Hm; eauto.
Qed.

Lemma preserves_modify {S : Type} (I : S -> Prop) (f : S -> S) :
  (forall s, I s -> I (f s)) -> preserves I (modify f).
Proof. intros Hf s r s' Hs E. injection E as <- <-. auto. Qed.

Lemma preserves_pure {S A : Type} (I : S -> Prop) (m : M S A) :
  (forall s, snd (m s) = s) -> preserves I m.
Proof. intros Hm s r s' Hs E. specialize (Hm s). rewrite E in Hm. cbn in Hm. subst. exact Hs. Qed.

Lemma preserves_ret {S A : Type} (I : S -> Prop) (a : A) : preserves I (ret a).
Proof. apply preserves_pure. reflexivity. Qed.

Lemma preserves_get {S : Type} (I : S -> Prop) : preserves I get.
Proof. apply preserves_pure. reflexivity. Qed.

Lemma preserves_gets {S A : Type} (I : S -> Prop) (f : S -> A) : preserves I (gets f).
Proof. apply preserves_pure. reflexivity. Qed.

Lemma preserves_throw {S A : Type} (I : S -> Prop) e : preserves I (@throw S A e).
Proof. apply preserves_pure. reflexivity. Qed.

Lemma preserves_lift {S A : Type} (I : S -> Prop) (r : result A) : preserves I (lift r).
Proof. apply preserves_pure. reflexivity. Qed.

Lemma preserves_if {S A : Type} (I : S -> Prop) (c : bool) (m1 m2 : M S A) :
  preserves I m1 -> preserves I m2 -> preserves I (if c then m1 else m2).
Proof. destruct c; auto. Qed.

Lemma preserves_bind_get {S B : Type} (I : S -> Prop) (k : S -> M S B) :
  (forall a, I a -> preserves I (k a)) -> preserves I (bind get k).
Proof. intros Hk s r s' Hs E. rewrite run_get in E. eapply Hk; eauto. Qed.

Ltac preserves_step :=
  lazymatch goal with
  | |- preserves _ (bind get _) => apply preserves_bind_get; intros ? ?
  | |- preserves _ (bind _ _) => apply preserves_bind; [|intros ?]
  | |- preserves _ (ret _) => apply preserves_ret
  | |- preserves _ get => apply preserves_get
  | |- preserves _ (gets _) => apply preserves_gets
  | |- preserves _ (throw _) => apply preserves_throw
  | |- preserves _ (lift _) => apply preserves_lift
  | |- preserves _ (modify _) => apply preserves_modify
  | |- preserves _ (if _ then _ else _) => apply preserves_if
  | |- preserves _ (match ?x with (_, _) => _ end) => destruct x eqn:?
  | |- preserves _ (match ?x with nil => _ | _ :: _ => _ end) => destruct x
  end.

Lemma SHAKE_inv_set_h xof key L s hh :
  SHAKE_inv xof key L s -> sha3.xof hh = xof ->
  SHAKE_inv xof key L (FeistelSHAKE128.set_h s hh).
Proof. unfold SHAKE_inv. cbn. intuition. Qed.

Lemma SHAKE_inv_set_roundScratch xof key L s rs :
  SHAKE_inv xof key L s -> SHAKE_inv xof key L (FeistelSHAKE128.set_roundScratch s rs).
Proof. unfold SHAKE_inv. cbn. intuition. Qed.

Ltac shake_inv_step :=
  intros ? ?;
  first [ apply SHAKE_inv_set_roundScratch; assumption
        | apply SHAKE_inv_store; assumption
        | apply SHAKE_inv_set_h; [assumption|];
          try (match goal with
               | E : sha3.Read _ _ = _ |- _ =>
                   unfold sha3.Read in E; injection E as <- <-
               end);
          cbn [sha3.xof sha3.Write sha3.Reset];
          match goal with
          | H : SHAKE_inv _ _ _ ?s |- sha3.xof (FeistelSHAKE128.h ?s) = _ => apply H
          end ].

Lemma SHAKE_RoundFunc_preserves xof key L round b out tweak :
  preserves (SHAKE_inv xof key L) (FeistelSHAKE128.RoundFunc round b out tweak).
Proof.
  unfold FeistelSHAKE128.RoundFunc, FeistelSHAKE128.h_Write,
    FeistelSHAKE128.slice_to, FeistelSHAKE128.write_scratch.
  apply preserves_bind_get. intros s0 Hs0.
  destruct (if Z.land round 1 =? 0 then _ else _) as [inLenBits outLenBits].
  repeat (preserves_step; try shake_inv_step).
Qed.

Lemma SHAKE_rounds_loop_preserves xof key L tweak n : forall i a b c f,
  preserves (SHAKE_inv xof key L) (FeistelSHAKE128.rounds_loop n i a b c f tweak).
Proof.
  induction n as [|n IH]; intros i a b c f; cbn [FeistelSHAKE128.rounds_loop].
  - apply preserves_ret.
  - apply preserves_bind; [apply SHAKE_RoundFunc_preserves | intros f'].
    apply preserves_bind; [|intros _; apply IH].
    apply preserves_modify. intros s Hs. apply SHAKE_inv_store. exact Hs.
Qed.

Lemma SHAKE_PermuteInPlace_preserves xof key L v tweak :
  preserves (SHAKE_inv xof key L) (FeistelSHAKE128.PermuteInPlace v tweak).
Proof.
  unfold FeistelSHAKE128.PermuteInPlace, FeistelSHAKE128.split_halves,
    FeistelSHAKE128.join_halves.
  repeat (preserves_step; try shake_inv_step);
    try apply SHAKE_rounds_loop_preserves.
Qed.

Lemma SHAKE_PermuteInt_preserves xof key L i :
  preserves (SHAKE_inv xof key L) (FeistelSHAKE128.PermuteInt i).
Proof.
  unfold FeistelSHAKE128.PermuteInt.
  repeat (preserves_step; try shake_inv_step);
    try apply SHAKE_PermuteInPlace_preserves.
Qed.

Lemma FFX_PermuteInPlace_preserves c L hdr v tweak :
  preserves (FFX_inv c L hdr) (FFX.PermuteInPlace v tweak).
Proof.
  intros s r s' Hs E.
  destruct (FFX_PermuteInPlace_run c L hdr s v tweak Hs) as (s1 & E1 & H1).
  rewrite E in E1. injection E1 as _ <-. exact H1.
Qed.

Lemma FFX_PermuteInt_preserves c L hdr i :
  preserves (FFX_inv c L hdr) (FFX.PermuteInt i).
Proof.
  unfold FFX.PermuteInt.
  repeat preserves_step; try apply FFX_PermuteInPlace_preserves;
    intros s Hs; (eapply FFX_inv_frame; [|exact Hs]); repeat split.
Qed.

(** ** Objects in use: the states reachable by calls *)

Lemma reachable_inv {P : Type} {PP : Permutation P} (I : P -> Prop) init s :
  (forall v tweak, preserves I (PermuteInPlace v tweak)) ->
  (forall i, preserves I (PermuteInt i)) ->
  I init -> reachable init s -> I s.
Proof.
  intros H1 H2 Hi Hr. induction Hr as [| s v tweak r s' _ IH E | s i r s' _ IH E].
  - exact Hi.
  - eapply H1; eauto.
  - eapply H2; eauto.
Qed.

Lemma Cmp_ltb x y : (big.Cmp x y <? 0) = (x <? y).
Proof.
  unfold big.Cmp. destruct (Z.compare_spec x y); symmetry.
  - subst. apply Z.ltb_irrefl.
  - apply Z.ltb_lt. assumption.
  - apply Z.ltb_ge. lia.
Qed.

Lemma Cmp_geb x y : (big.Cmp x y >=? 0) = (y <=? x).
Proof.
  unfold big.Cmp. destruct (Z.compare_spec x y).
  - subst. symmetry. apply Z.leb_refl.
  - symmetry. apply Z.leb_gt. assumption.
  - symmetry. apply Z.leb_le. lia.
Qed.

(** ** The adapter over any block permutation *)

Section Adapter.
Context {P : Type} {PP : Permutation P}.

(** The block permutation: an invariant [Inv] of the object, kept by
    every call, and the map [pi tweak] it computes on [[0, 2^L)]. *)
Variable Inv : P -> Prop.
Variable pi : list byte -> Z -> Z.
Variable L : Z.

Hypothesis block_run : forall s v tweak,
  Inv s -> 0 <= v < 2 ^ L ->
  exists s', PermuteInPlace v tweak s = (Ret (pi tweak v), s') /\ Inv s'.
Hypothesis block_preserves : forall v tweak, preserves Inv (PermuteInPlace v tweak).
Hypothesis pi_range : forall tweak v, 0 <= v < 2 ^ L -> 0 <= pi tweak v < 2 ^ L.
Hypothesis pi_inj : forall tweak v1 v2,
  0 <= v1 < 2 ^ L -> 0 <= v2 < 2 ^ L -> pi tweak v1 = pi tweak v2 -> v1 = v2.

Lemma iterate_walk N tweak fuel : forall a v,
  adapter_inv Inv N a -> 0 <= v < 2 ^ L ->
  exists a', ArbitraryN.iterate fuel v tweak a
             = (outcome (walk (pi tweak) N fuel v), a')
             /\ adapter_inv Inv N a'.
Proof.
  induction fuel as [|fuel IH]; intros a v [Hn Hi] Hv.
  - exists a. split; [reflexivity | split; assumption].
  - cbn [ArbitraryN.iterate walk].
    destruct (block_run (ArbitraryN.p a) v tweak Hi Hv) as (s' & E & Hi').
    assert (Ez : zoom ArbitraryN.p ArbitraryN.set_p (PermuteInPlace v tweak) a
                 = (Ret (pi tweak v), ArbitraryN.set_p a s')).
    { unfold zoom. rewrite E. reflexivity. }
    rewrite (bind_Ret _ _ _ _ _ Ez). rewrite run_get.
    cbn [ArbitraryN.n ArbitraryN.set_p]. rewrite Hn, Cmp_ltb.
    destruct (pi tweak v <? N) eqn:Elt.
    + eexists. split; [reflexivity|]. split; [exact Hn | exact Hi'].
    + apply IH; [split; [exact Hn | exact Hi'] | apply pi_range; exact Hv].
Qed.

Lemma adapter_in_range N tweak fuel a v :
  adapter_inv Inv N a -> 0 <= v < N -> N <= 2 ^ L ->
  exists a', ArbitraryN.PermuteInPlace fuel v tweak a
             = (outcome (walk (pi tweak) N fuel v), a')
             /\ adapter_inv Inv N a'.
Proof.
  intros Ha Hv HN. unfold ArbitraryN.PermuteInPlace. rewrite run_get.
  destruct Ha as [Hn Hi]. rewrite Hn, Cmp_geb.
  replace (N <=? v) with false by (symmetry; apply Z.leb_gt; lia).
  apply iterate_walk; [split; assumption | lia].
Qed.

Lemma adapter_out_of_range fuel tweak (a : ArbitraryN.t P) v :
  ArbitraryN.n a <= v ->
  ArbitraryN.PermuteInPlace fuel v tweak a = (Panic InputOutOfRange, a).
Proof.
  intros Hv. unfold ArbitraryN.PermuteInPlace. rewrite run_get, Cmp_geb.
  replace (ArbitraryN.n a <=? v) with true by (symmetry; apply Z.leb_le; lia).
  reflexivity.
Qed.

Lemma iterate_preserves N tweak fuel : forall v,
  preserves (adapter_inv Inv N) (ArbitraryN.iterate fuel v tweak).
Proof.
  induction fuel as [|fuel IH]; intros v; cbn [ArbitraryN.iterate].
  - apply preserves_lift.
  - apply preserves_bind.
    + intros a r a' [Hn Hi] E. unfold zoom in E.
      destruct (PermuteInPlace v tweak (ArbitraryN.p a)) as [r1 s1] eqn:E1.
      injection E as <- <-. split; [exact Hn|].
      eapply block_preserves; eauto.
    + intros y. apply preserves_bind_get. intros a Ha.
      apply preserves_if; [apply preserves_ret | apply IH].
Qed.

Lemma adapter_PermuteInPlace_preserves N fuel v tweak :
  preserves (adapter_inv Inv N) (ArbitraryN.PermuteInPlace fuel v tweak).
Proof.
  unfold ArbitraryN.PermuteInPlace. apply preserves_bind_get. intros a Ha.
  apply preserves_if; [apply preserves_throw | apply iterate_preserves].
Qed.

Lemma adapter_PermuteInt_preserves N fuel i :
  preserves (adapter_inv Inv N) (ArbitraryN.PermuteInt fuel i).
Proof.
  unfold ArbitraryN.PermuteInt.
  repeat preserves_step; try apply adapter_PermuteInPlace_preserves;
    intros ? [Hn Hi]; split; assumption.
Qed.

Lemma reachableN_inv N init a :
  adapter_inv Inv N init -> reachableN init a -> adapter_inv Inv N a.
Proof.
  intros Hi Hr. induction Hr as [| s fuel v tweak r s' _ IH E | s fuel i r s' _ IH E].
  - exact Hi.
  - eapply adapter_PermuteInPlace_preserves; eauto.
  - eapply adapter_PermuteInt_preserves; eauto.
Qed.

(** Termination of the walk, with the number of applications made. *)
Lemma adapter_terminates N tweak a v :
  adapter_inv Inv N a -> 0 <= v < N -> N <= 2 ^ L ->
  exists k y,
    (1 <= k <= Z.to_nat (2 ^ L))%nat
    /\ y = orbit (pi tweak) k v /\ 0 <= y < N
    /\ forall fuel, (Z.to_nat (2 ^ L) <= fuel)%nat ->
         exists a'', ArbitraryN.PermuteInPlace fuel v tweak a = (Ret y, a'')
                     /\ adapter_inv Inv N a''.
Proof.
  intros Ha Hv HN.
  destruct (walk_terminates (pi tweak) (2 ^ L) (pi_range tweak) (pi_inj tweak) N HN v Hv)
    as (y & Hw & Hy).
  destruct (walk_first _ _ _ _ _ Hw) as (k & Hk & Hyk & _).
  exists k, y. split; [exact Hk|]. split; [exact Hyk|]. split; [exact Hy|].
  intros fuel Hf.
  destruct (adapter_in_range N tweak fuel a v Ha Hv HN) as (a'' & E & Ha'').
  rewrite (walk_more_fuel _ _ _ _ _ _ Hw Hf) in E. eauto.
Qed.

Lemma adapter_range N tweak fuel a v y a' :
  adapter_inv Inv N a -> 0 <= v < N -> N <= 2 ^ L ->
  ArbitraryN.PermuteInPlace fuel v tweak a = (Ret y, a') -> 0 <= y < N.
Proof.
  intros Ha Hv HN E.
  destruct (adapter_in_range N tweak fuel a v Ha Hv HN) as (a'' & E' & _).
  rewrite E in E'. injection E' as E' _.
  destruct (walk (pi tweak) N fuel v) as [y'|] eqn:Hw; [|discriminate].
  injection E' as ->.
  destruct (walk_first _ _ _ _ _ Hw) as (k & _ & -> & Hlt & _).
  split; [|exact Hlt].
  apply (orbit_range (pi tweak) (2 ^ L) (pi_range tweak) k v). lia.
Qed.

Lemma adapter_inj N tweak f1 f2 a1 a2 v1 v2 y a1' a2' :
  adapter_inv Inv N a1 -> adapter_inv Inv N a2 -> N <= 2 ^ L ->
  0 <= v1 < N -> 0 <= v2 < N ->
  ArbitraryN.PermuteInPlace f1 v1 tweak a1 = (Ret y, a1') ->
  ArbitraryN.PermuteInPlace f2 v2 tweak a2 = (Ret y, a2') ->
  v1 = v2.
Proof.
  intros Ha1 Ha2 HN Hv1 Hv2 E1 E2.
  destruct (adapter_in_range N tweak f1 a1 v1 Ha1 Hv1 HN) as (? & E1' & _).
  destruct (adapter_in_range N tweak f2 a2 v2 Ha2 Hv2 HN) as (? & E2' & _).
  rewrite E1 in E1'. rewrite E2 in E2'.
  injection E1' as E1' _. injection E2' as E2' _.
  destruct (walk (pi tweak) N f1 v1) as [y1|] eqn:W1; [|discriminate].
  destruct (walk (pi tweak) N f2 v2) as [y2|] eqn:W2; [|discriminate].
  injection E1' as ->. injection E2' as ->.
  eapply (walk_inj (pi tweak) (2 ^ L) (pi_range tweak) (pi_inj tweak) N HN); eauto.
Qed.

Lemma adapter_deterministic N tweak f1 f2 a1 a2 v y1 y2 a1' a2' :
  adapter_inv Inv N a1 -> adapter_inv Inv N a2 -> N <= 2 ^ L -> 0 <= v < N ->
  ArbitraryN.PermuteInPlace f1 v tweak a1 = (Ret y1, a1') ->
  ArbitraryN.PermuteInPlace f2 v tweak a2 = (Ret y2, a2') ->
  y1 = y2.
Proof.
  intros Ha1 Ha2 HN Hv E1 E2.
  destruct (adapter_in_range N tweak f1 a1 v Ha1 Hv HN) as (? & E1' & _).
  destruct (adapter_in_range N tweak f2 a2 v Ha2 Hv HN) as (? & E2' & _).
  rewrite E1 in E1'. rewrite E2 in E2'.
  injection E1' as E1' _. injection E2' as E2' _.
  destruct (walk (pi tweak) N f1 v) as [z1|] eqn:W1; [|discriminate].
  destruct (walk (pi tweak) N f2 v) as [z2|] eqn:W2; [|discriminate].
  injection E1' as ->. injection E2' as ->.
  destruct (Nat.le_ge_cases f1 f2) as [Hle | Hle].
  - rewrite (walk_more_fuel _ _ _ _ _ _ W1 Hle) in W2. congruence.
  - rewrite (walk_more_fuel _ _ _ _ _ _ W2 Hle) in W1. congruence.
Qed.
End Adapter.

(** ** Fresh objects satisfy the invariants *)

Lemma NewFFX_inv hk ae key L e :
  FFX.NewFFX hk ae key L = Ret e ->
  8 <= L <= 128 /\ FFX_inv (ae (hk key)) L (FFX_hdr L) e.
Proof.
  unfold FFX.NewFFX. destruct ((L <? 8) || (L >? 128)) eqn:E; [discriminate|].
  apply orb_false_iff in E. destruct E as [E1 E2].
  intros H. injection H as <-. split; [lia|].
  unfold FFX_inv. cbn [FFX.lengthBits FFX.rounds FFX.mask FFX.aes FFX.tweakLen
                       FFX.p FFX.encryptedP].
  rewrite Z.shiftl_1_l.
  split; [reflexivity|]. split; [reflexivity|]. split; [reflexivity|].
  split; [reflexivity|]. split; [reflexivity|].
  left. split; [reflexivity|].
  unfold FFX_hdr. rewrite <- !app_assoc. reflexivity.
Qed.

Lemma NewPowerOf2_inv xof key L e :
  FeistelSHAKE128.NewPowerOf2 xof key L = Ret e -> SHAKE_inv xof key L e.
Proof.
  unfold FeistelSHAKE128.NewPowerOf2. destruct (L <=? 1) eqn:E; [discriminate|].
  intros H. injection H as <-. unfold SHAKE_inv. cbn.
  repeat split; try reflexivity. lia.
Qed.

Lemma FFX_reachable_inv hk ae key L e0 e :
  FFX.NewFFX hk ae key L = Ret e0 -> reachable e0 e ->
  8 <= L <= 128 /\ FFX_inv (ae (hk key)) L (FFX_hdr L) e.
Proof.
  intros H0 Hr. destruct (NewFFX_inv _ _ _ _ _ H0) as [HL Hinv]. split; [exact HL|].
  eapply (reachable_inv (FFX_inv (ae (hk key)) L (FFX_hdr L))); eauto.
  - intros v tweak. apply FFX_PermuteInPlace_preserves.
  - intros i. apply FFX_PermuteInt_preserves.
Qed.

Lemma SHAKE_reachable_inv xof key L e0 e :
  FeistelSHAKE128.NewPowerOf2 xof key L = Ret e0 -> reachable e0 e ->
  SHAKE_inv xof key L e.
Proof.
  intros H0 Hr.
  eapply (reachable_inv (SHAKE_inv xof key L)); eauto.
  - intros v tweak. apply SHAKE_PermuteInPlace_preserves.
  - intros i. apply SHAKE_PermuteInt_preserves.
  - apply NewPowerOf2_inv. exact H0.
Qed.

(** ** The two block permutations behind the interface *)

Lemma selects_FFX_true L : selects_FFX L = true <-> 8 <= L <= 128.
Proof. unfold selects_FFX. rewrite andb_true_iff. lia. Qed.

Lemma engine_run c xof key L e v tweak :
  engine_inv c xof key L e -> 0 <= v < 2 ^ L ->
  exists e', PermuteInPlace v tweak e = (Ret (engine_perm c xof key L tweak v), e')
             /\ engine_inv c xof key L e'.
Proof.
  intros [HL He] Hv. unfold engine_perm. destruct e as [e | e]; destruct He as [Hs Hinv];
    rewrite Hs; cbn [PermuteInPlace engine_Permutation dispatch].
  - destruct (FFX_PermuteInPlace_run c L (FFX_hdr L) e v tweak Hinv) as (e' & E & Hinv').
    rewrite E. exists (engine_FFX e'). split; [reflexivity|]. split; [exact HL|].
    split; assumption.
  - destruct (SHAKE_PermuteInPlace_run xof key L e v tweak Hinv Hv) as (e' & E & Hinv').
    rewrite E. exists (engine_SHAKE e'). split; [reflexivity|]. split; [exact HL|].
    split; assumption.
Qed.

Lemma engine_preserves c xof key L v tweak :
  preserves (engine_inv c xof key L) (PermuteInPlace v tweak).
Proof.
  intros e r e' [HL He] E.
  destruct e as [e | e]; destruct He as [Hs Hinv];
    cbn [PermuteInPlace engine_Permutation dispatch] in E.
  - destruct (FFX.PermuteInPlace v tweak e) as [r1 e1] eqn:E1. injection E as <- <-.
    split; [exact HL|]. split; [exact Hs|].
    eapply FFX_PermuteInPlace_preserves; eauto.
  - destruct (FeistelSHAKE128.PermuteInPlace v tweak e) as [r1 e1] eqn:E1.
    injection E as <- <-. split; [exact HL|]. split; [exact Hs|].
    eapply SHAKE_PermuteInPlace_preserves; eauto.
Qed.

Lemma engine_perm_range c xof key L tweak v :
  2 <= L -> 0 <= v < 2 ^ L -> 0 <= engine_perm c xof key L tweak v < 2 ^ L.
Proof.
  intros HL Hv. unfold engine_perm. destruct (selects_FFX L) eqn:E.
  - apply FFX_perm_range; [apply selects_FFX_true; exact E | exact Hv].
  - apply SHAKE_perm_range; assumption.
Qed.

Lemma engine_perm_inj c xof key L tweak v1 v2 :
  2 <= L -> 0 <= v1 < 2 ^ L -> 0 <= v2 < 2 ^ L ->
  engine_perm c xof key L tweak v1 = engine_perm c xof key L tweak v2 -> v1 = v2.
Proof.
  intros HL Hv1 Hv2. unfold engine_perm. destruct (selects_FFX L) eqn:E.
  - apply FFX_perm_inj; [apply selects_FFX_true; exact E | exact Hv1 | exact Hv2].
  - apply SHAKE_perm_inj; assumption.
Qed.

Lemma width_of_covers N : 1 <= N -> 2 <= width_of N /\ N <= 2 ^ width_of N.
Proof.
  intros HN. unfold width_of. split; [lia|].
  pose proof (BitLen_upper (N - 1) ltac:(lia)) as Hup.
  pose proof (BitLen_nonneg (N - 1)) as Hnn.
  assert (2 ^ big.BitLen (N - 1) <= 2 ^ Z.max 2 (big.BitLen (N - 1)))
    by (apply Z.pow_le_mono_r; lia).
  lia.
Qed.

Lemma NewN_inv hk ae xof key N a0 :
  1 <= N -> NewN hk ae xof key N = Ret a0 ->
  adapter_inv (engine_inv (ae (hk key)) xof key (width_of N)) N a0.
Proof.
  intros HN H0.
  destruct (NewN_Ret hk ae xof key N HN) as (a & Ha & Hn & _ & Hp).
  rewrite H0 in Ha. injection Ha as <-.
  destruct (width_of_covers N HN) as [H2 _].
  split; [exact Hn|]. split; [exact H2|].
  fold (width_of N) in Hp.
  destruct Hp as [(Hr & e & -> & He) | (Hr & e & -> & He)].
  - split; [apply selects_FFX_true; exact Hr|].
    apply (NewFFX_inv _ _ _ _ _ He).
  - split.
    + destruct (selects_FFX (width_of N)) eqn:E; [|reflexivity].
      apply selects_FFX_true in E. contradiction.
    + apply NewPowerOf2_inv. exact He.
Qed.

Lemma NewN_reachable_inv hk ae xof key N a0 a :
  1 <= N -> NewN hk ae xof key N = Ret a0 -> reachableN a0 a ->
  adapter_inv (engine_inv (ae (hk key)) xof key (width_of N)) N a.
Proof.
  intros HN H0 Hr.
  eapply reachableN_inv; [| eapply NewN_inv; eauto | exact Hr].
  intros v tweak. apply engine_preserves.
Qed.

(** ** The convenience method [PermuteInt] *)

Lemma int64_small z : - 2 ^ 63 <= z < 2 ^ 63 -> int64 z = z.
Proof. intros Hz. unfold int64. rewrite Z.mod_small; lia. Qed.

Lemma Int64_small y : 0 <= y < 2 ^ 63 -> big.Int64 y = y.
Proof.
  intros Hy. unfold big.Int64. rewrite Z.abs_eq by lia.
  replace (y <? 0) with false by (symmetry; apply Z.ltb_ge; lia).
  cbv zeta. rewrite (Z.mod_small y) by lia. apply int64_small. lia.
Qed.

Lemma adapter_PermuteInt_run {P : Type} {PP : Permutation P} fuel i (a : ArbitraryN.t P) :
  ArbitraryN.PermuteInt fuel i a
  = match ArbitraryN.PermuteInPlace fuel (int64 i) [] (ArbitraryN.set_in a (int64 i)) with
    | (Ret y, a') => (Ret (int64 (big.Int64 y)), ArbitraryN.set_in a' y)
    | (Panic e, a') => (Panic e, a')
    | (OutOfFuel, a') => (OutOfFuel, a')
    end.
Proof.
  unfold ArbitraryN.PermuteInt. rewrite run_modify, run_gets.
  unfold bind at 1. cbn [ArbitraryN.in_ ArbitraryN.set_in]. unfold big.SetInt64.
  destruct (ArbitraryN.PermuteInPlace fuel (int64 i) [] _) as [[y | e |] a']; reflexivity.
Qed.

Lemma adapter_inv_set_in {P : Type} {PP : Permutation P} (Inv : P -> Prop) N a x :
  adapter_inv Inv N a -> adapter_inv Inv N (ArbitraryN.set_in a x).
Proof. intros [Hn Hi]. split; assumption. Qed.

(** For ranges that fit a Go [int], [PermuteInt] returns what
    [PermuteInPlace] with an empty tweak returns. *)
Lemma adapter_PermuteInt_Ret {P : Type} {PP : Permutation P}
      (Inv : P -> Prop) (pi : list byte -> Z -> Z) (L N : Z) fuel i a y a' :
  (forall s v tweak, Inv s -> 0 <= v < 2 ^ L ->
     exists s', PermuteInPlace v tweak s = (Ret (pi tweak v), s') /\ Inv s') ->
  (forall tweak v, 0 <= v < 2 ^ L -> 0 <= pi tweak v < 2 ^ L) ->
  adapter_inv Inv N a -> N <= 2 ^ L -> N <= 2 ^ 63 -> 0 <= i < N ->
  ArbitraryN.PermuteInt fuel i a = (Ret y, a') ->
  exists a1, ArbitraryN.PermuteInPlace fuel i [] (ArbitraryN.set_in a i) = (Ret y, a1)
             /\ 0 <= y < N.
Proof.
  intros Hrun Hrg Ha HN H63 Hi E.
  rewrite adapter_PermuteInt_run in E. rewrite int64_small in E by lia.
  destruct (ArbitraryN.PermuteInPlace fuel i [] (ArbitraryN.set_in a i))
    as [[y1 | e |] a1] eqn:E1; try (injection E; discriminate).
  assert (Hy1 : 0 <= y1 < N).
  { exact (adapter_range Inv pi L Hrun Hrg N [] fuel (ArbitraryN.set_in a i) i y1 a1
             (adapter_inv_set_in Inv N a i Ha) Hi HN E1). }
  injection E as E _. rewrite Int64_small, int64_small in E by lia. subst y1.
  exists a1. split; [reflexivity | exact Hy1].
Qed.

(** ** The earlier revision [PowerOf2] computes the same function *)

Lemma PowerOf2_RoundFunc_eq round b out s :
  PowerOf2.RoundFunc round b out s = FeistelSHAKE128.RoundFunc round b out [] s.
Proof. reflexivity. Qed.

Lemma PowerOf2_rounds_loop_eq n : forall i a b c f s,
  PowerOf2.rounds_loop n i a b c f s = FeistelSHAKE128.rounds_loop n i a b c f [] s.
Proof.
  induction n as [|n IH]; intros i a b c f s; [reflexivity|].
  cbn [PowerOf2.rounds_loop FeistelSHAKE128.rounds_loop].
  unfold bind at 1 3. rewrite PowerOf2_RoundFunc_eq.
  destruct (FeistelSHAKE128.RoundFunc i b f [] s) as [[f' | e |] s1]; try reflexivity.
  rewrite !run_modify. apply IH.
Qed.

Lemma PowerOf2_PermuteInPlace_eq v s :
  PowerOf2.PermuteInPlace v s = FeistelSHAKE128.PermuteInPlace v [] s.
Proof.
  unfold PowerOf2.PermuteInPlace, FeistelSHAKE128.PermuteInPlace.
  unfold bind at 1 4.
  destruct (FeistelSHAKE128.split_halves v s) as [[[] | e |] s1]; try reflexivity.
  rewrite !run_gets. unfold bind at 1 2. rewrite PowerOf2_rounds_loop_eq. reflexivity.
Qed.

Lemma PowerOf2_PermuteInt_eq i s :
  PowerOf2.PermuteInt i s = FeistelSHAKE128.PermuteInt i s.
Proof.
  unfold PowerOf2.PermuteInt, FeistelSHAKE128.PermuteInt.
  rewrite !run_modify, !run_gets. unfold bind at 1 3.
  rewrite PowerOf2_PermuteInPlace_eq. reflexivity.
Qed.

Lemma PowerOf2_NewPowerOf2_eq xof key L :
  PowerOf2.NewPowerOf2 xof key L = FeistelSHAKE128.NewPowerOf2 xof key L.
Proof. reflexivity. Qed.

Lemma PowerOf2_reachable_current init s :
  PowerOf2_reachable init s -> reachable init s.
Proof.
  intros H. induction H as [| s v r s' _ IH E | s i r s' _ IH E].
  - apply reachable_init.
  - rewrite PowerOf2_PermuteInPlace_eq in E.
    exact (reachable_PermuteInPlace init s v [] r s' IH E).
  - rewrite PowerOf2_PermuteInt_eq in E.
    exact (reachable_PermuteInt init s i r s' IH E).
Qed.

(** ** The properties of the specification *)

(** C7.  For every supported [lengthBits], the constructors of both
    engines ([NewFFX] for the widths 8 to 128, [NewPowerOf2] of either
    revision for the widths from 2) return an object whose round count is
    [RoundSchedule lengthBits], the table of the specification: at most 9
    gives 36 rounds, at most 13 gives 30, at most 19 gives 24, at most 31
    gives 18 and anything larger gives 12.  The count depends on
    [lengthBits] alone: not on the key nor on the primitives. *)
Theorem constructors_round_schedule
        (hkdf_Key : list byte -> list byte)
        (aes_NewCipher : list byte -> list byte -> list byte)
        (shake128 : list byte -> nat -> byte)
        (key : list byte) (L : Z) :
  (8 <= L <= 128 ->
   exists e, FFX.NewFFX hkdf_Key aes_NewCipher key L = Ret e
             /\ FFX.rounds e = RoundSchedule L)
  /\ (2 <= L ->
      exists e, FeistelSHAKE128.NewPowerOf2 shake128 key L = Ret e
                /\ FeistelSHAKE128.rounds e = RoundSchedule L)
  /\ (2 <= L ->
      exists e, PowerOf2.NewPowerOf2 shake128 key L = Ret e
                /\ FeistelSHAKE128.rounds e = RoundSchedule L)
  /\ (L <= 9 -> RoundSchedule L = 36)
  /\ (9 < L <= 13 -> RoundSchedule L = 30)
  /\ (13 < L <= 19 -> RoundSchedule L = 24)
  /\ (19 < L <= 31 -> RoundSchedule L = 18)
  /\ (31 < L -> RoundSchedule L = 12).
Proof.
  split; [|split; [|split]].
  - intros HL. destruct (NewFFX_Ret hkdf_Key aes_NewCipher key L HL) as (e & He & _ & Hr & _). eauto.
  - intros HL. destruct (NewPowerOf2_Ret shake128 key L HL) as (e & He & _ & Hr & _). eauto.
  - intros HL. destruct (NewPowerOf2_Ret shake128 key L HL) as (e & He & _ & Hr & _).
    exists e. split; [exact He | exact Hr].
  - unfold RoundSchedule.
    destruct (L <=? 9) eqn:E1; [repeat split; intros; try reflexivity; lia|].
    destruct (L <=? 13) eqn:E2; [repeat split; intros; try reflexivity; lia|].
    destruct (L <=? 19) eqn:E3; [repeat split; intros; try reflexivity; lia|].
    destruct (L <=? 31) eqn:E4; repeat split; intros; try reflexivity; lia.
Qed.

Lemma constructors_round_schedule_witness :
  (exists e, FFX.NewFFX test_hkdf test_cipher mykey 10 = Ret e /\ FFX.rounds e = 30)
  /\ (exists e, FeistelSHAKE128.NewPowerOf2 keccak.shake128 mykey 40 = Ret e
                /\ FeistelSHAKE128.rounds e = 12)
  /\ (exists e, PowerOf2.NewPowerOf2 keccak.shake128 mykey 3 = Ret e
                /\ FeistelSHAKE128.rounds e = 36).
Proof.
  split; [|split].
  - destruct (constructors_round_schedule test_hkdf test_cipher keccak.shake128 mykey 10)
      as (H & _). destruct (H ltac:(lia)) as (e & He & Hr). exists e. split; [exact He|].
    rewrite Hr. reflexivity.
  - destruct (constructors_round_schedule test_hkdf test_cipher keccak.shake128 mykey 40)
      as (_ & H & _). destruct (H ltac:(lia)) as (e & He & Hr). exists e. split; [exact He|].
    rewrite Hr. reflexivity.
  - destruct (constructors_round_schedule test_hkdf test_cipher keccak.shake128 mykey 3)
      as (_ & _ & H & _). destruct (H ltac:(lia)) as (e & He & Hr). exists e.
    split; [exact He|]. rewrite Hr. reflexivity.
Defined.

(** C6.  For every [N >= 1], [NewN] returns an adapter for [N] over an
    engine whose [lengthBits] is the bit length of [N - 1] (the least [k]
    with [N - 1 < 2^k]) clamped to a minimum of 2.  So [N <= 2^lengthBits];
    [2^(lengthBits-1) < N] when [N > 2], and [lengthBits = 2] when
    [N <= 2].  The engine is FFX exactly when [lengthBits] is in
    [[8, 128]], and the SHAKE engine otherwise. *)
Theorem NewN_lengthBits_and_engine
        (hkdf_Key : list byte -> list byte)
        (aes_NewCipher : list byte -> list byte -> list byte)
        (shake128 : list byte -> nat -> byte)
        (key : list byte) (N : Z) :
  1 <= N ->
  exists a, NewN hkdf_Key aes_NewCipher shake128 key N = Ret a /\ ArbitraryN.n a = N /\
    let L := engine_lengthBits (ArbitraryN.p a) in
    L = Z.max 2 (big.BitLen (N - 1))
    /\ (forall k, 0 <= k -> (N - 1 < 2 ^ k <-> big.BitLen (N - 1) <= k))
    /\ N <= 2 ^ L
    /\ (N <= 2 -> L = 2)
    /\ (2 < N -> 2 ^ (L - 1) < N)
    /\ (is_FFX (ArbitraryN.p a) = true <-> 8 <= L <= 128).
Proof.
  intros HN.
  destruct (NewN_Ret hkdf_Key aes_NewCipher shake128 key N HN) as (a & Ha & Hn & _ & Hp).
  exists a. split; [exact Ha|]. split; [exact Hn|].
  set (L0 := Z.max 2 (big.BitLen (N - 1))) in *.
  assert (HLe : engine_lengthBits (ArbitraryN.p a) = L0
                /\ (is_FFX (ArbitraryN.p a) = true <-> 8 <= L0 <= 128)).
  { destruct Hp as [(Hr & e & Hpe & He) | (Hr & e & Hpe & He)]; rewrite Hpe; cbn.
    - destruct (NewFFX_Ret hkdf_Key aes_NewCipher key L0 Hr) as (e' & He' & Hl & _).
      rewrite He in He'. injection He' as <-.
      split; [exact Hl|]. split; intros; [exact Hr | reflexivity].
    - assert (H2 : 2 <= L0) by (subst L0; lia).
      destruct (NewPowerOf2_Ret shake128 key L0 H2) as (e' & He' & Hl & _).
      rewrite He in He'. injection He' as <-.
      split; [exact Hl|]. split; intros H; [discriminate | contradiction]. }
  destruct HLe as [HL HF]. cbn zeta. rewrite HL.
  pose proof (BitLen_upper (N - 1) ltac:(lia)) as Hup.
  pose proof (BitLen_nonneg (N - 1)) as Hnn.
  split; [reflexivity|].
  split; [intros k Hk; apply BitLen_least; lia|].
  split.
  { assert (2 ^ big.BitLen (N - 1) <= 2 ^ L0)
      by (apply Z.pow_le_mono_r; subst L0; lia). lia. }
  split.
  { intros Hle. subst L0.
    assert (big.BitLen (N - 1) <= 1) by (apply BitLen_least; lia). lia. }
  split; [|exact HF].
  intros Hgt.
  assert (Hb : 2 <= big.BitLen (N - 1)).
  { destruct (Z_le_gt_dec 2 (big.BitLen (N - 1))); [assumption|exfalso].
    assert (N - 1 < 2 ^ 1) by (apply BitLen_least; lia). lia. }
  replace L0 with (big.BitLen (N - 1)) by (subst L0; lia).
  pose proof (BitLen_lower (N - 1) ltac:(lia)). lia.
Qed.

Lemma NewN_lengthBits_and_engine_witness :
  1 <= 1000
  /\ exists a, NewN test_hkdf test_cipher keccak.shake128 mykey 1000 = Ret a
       /\ engine_lengthBits (ArbitraryN.p a) = 10
       /\ 2 ^ 9 < 1000 <= 2 ^ 10
       /\ is_FFX (ArbitraryN.p a) = true.
Proof.
  split; [lia|].
  destruct (NewN_lengthBits_and_engine test_hkdf test_cipher keccak.shake128 mykey 1000
              ltac:(lia)) as (a & Ha & _ & HL & _ & _ & _ & _ & HF).
  exists a. split; [exact Ha|]. split; [exact HL|]. split; [lia|].
  apply HF. rewrite HL. cbv. split; discriminate.
Defined.

(** The SHAKE engine computes a bijection of [[0, 2^L)]. *)
Lemma SHAKE_perm_bijective xof key L tweak :
  2 <= L -> bijective_on (2 ^ L) (SHAKE_perm xof key L tweak).
Proof.
  intros HL. split; [|split].
  - intros v Hv. apply SHAKE_perm_range; assumption.
  - intros v1 v2 H1 H2. apply SHAKE_perm_inj; assumption.
  - intros y Hy. apply SHAKE_perm_surj; assumption.
Qed.

(** C2. For every key, every supported [lengthBits] and every tweak, the
    value [PermuteInPlace] returns on an object built by [NewFFX] (widths 8
    to 128) or by [NewPowerOf2] (widths from 2; [FeistelSHAKE128] and the
    earlier [PowerOf2], which takes no tweak), in whatever state earlier
    calls left it, is a function [pi] of the input that is a bijection of
    [[0, 2^lengthBits)]: into the interval, injective and onto.  The block
    cipher, the key derivation and the hash are arbitrary functions. *)
Theorem fixed_domain_permute_bijection
        (hkdf_Key : list byte -> list byte)
        (aes_NewCipher : list byte -> list byte -> list byte)
        (shake128 : list byte -> nat -> byte)
        (key : list byte) (L : Z) (tweak : list byte) :
  (forall e0, FFX.NewFFX hkdf_Key aes_NewCipher key L = Ret e0 ->
     exists pi, bijective_on (2 ^ L) pi
       /\ forall e v, reachable e0 e -> 0 <= v < 2 ^ L ->
            exists e', FFX.PermuteInPlace v tweak e = (Ret (pi v), e'))
  /\ (forall e0, FeistelSHAKE128.NewPowerOf2 shake128 key L = Ret e0 ->
        exists pi, bijective_on (2 ^ L) pi
          /\ forall e v, reachable e0 e -> 0 <= v < 2 ^ L ->
               exists e', FeistelSHAKE128.PermuteInPlace v tweak e = (Ret (pi v), e'))
  /\ (forall e0, PowerOf2.NewPowerOf2 shake128 key L = Ret e0 ->
        exists pi, bijective_on (2 ^ L) pi
          /\ forall e v, PowerOf2_reachable e0 e -> 0 <= v < 2 ^ L ->
               exists e', PowerOf2.PermuteInPlace v e = (Ret (pi v), e')).
Proof.
  split; [|split]; intros e0 H0.
  - destruct (NewFFX_inv _ _ _ _ _ H0) as [HL _].
    exists (FFX_perm (aes_NewCipher (hkdf_Key key)) L (FFX_hdr L) tweak). split.
    + split; [|split].
      * intros v Hv. apply FFX_perm_range; assumption.
      * intros v1 v2 H1 H2. apply FFX_perm_inj; assumption.
      * intros y Hy. apply FFX_perm_surj; assumption.
    + intros e v Hr Hv.
      destruct (FFX_reachable_inv _ _ _ _ _ _ H0 Hr) as [_ Hinv].
      destruct (FFX_PermuteInPlace_run _ _ _ e v tweak Hinv) as (e' & E & _). eauto.
  - pose proof (NewPowerOf2_inv _ _ _ _ H0) as (_ & _ & _ & _ & HL).
    exists (SHAKE_perm shake128 key L tweak).
    split; [apply SHAKE_perm_bijective; exact HL|].
    intros e v Hr Hv.
    pose proof (SHAKE_reachable_inv _ _ _ _ _ H0 Hr) as Hinv.
    destruct (SHAKE_PermuteInPlace_run _ _ _ e v tweak Hinv Hv) as (e' & E & _). eauto.
  - rewrite PowerOf2_NewPowerOf2_eq in H0.
    pose proof (NewPowerOf2_inv _ _ _ _ H0) as (_ & _ & _ & _ & HL).
    exists (SHAKE_perm shake128 key L []).
    split; [apply SHAKE_perm_bijective; exact HL|].
    intros e v Hr Hv. apply PowerOf2_reachable_current in Hr.
    pose proof (SHAKE_reachable_inv _ _ _ _ _ H0 Hr) as Hinv.
    rewrite PowerOf2_PermuteInPlace_eq.
    destruct (SHAKE_PermuteInPlace_run _ _ _ e v [] Hinv Hv) as (e' & E & _). eauto.
Qed.

Lemma fixed_domain_permute_bijection_witness :
  (exists e0, FFX.NewFFX test_hkdf test_cipher mykey 8 = Ret e0
     /\ exists pi, bijective_on (2 ^ 8) pi
          /\ forall e v, reachable e0 e -> 0 <= v < 2 ^ 8 ->
               exists e', FFX.PermuteInPlace v [] e = (Ret (pi v), e'))
  /\ (exists e0, FeistelSHAKE128.NewPowerOf2 keccak.shake128 mykey 3 = Ret e0
        /\ exists pi, bijective_on (2 ^ 3) pi
             /\ forall e v, reachable e0 e -> 0 <= v < 2 ^ 3 ->
                  exists e', FeistelSHAKE128.PermuteInPlace v [] e = (Ret (pi v), e'))
  /\ (exists e0, PowerOf2.NewPowerOf2 keccak.shake128 mykey 3 = Ret e0
        /\ exists pi, bijective_on (2 ^ 3) pi
             /\ forall e v, PowerOf2_reachable e0 e -> 0 <= v < 2 ^ 3 ->
                  exists e', PowerOf2.PermuteInPlace v e = (Ret (pi v), e')).
Proof.
  split; [|split].
  - eexists. split; [reflexivity|].
    apply (proj1 (fixed_domain_permute_bijection test_hkdf test_cipher
                    keccak.shake128 mykey 8 [])).
    reflexivity.
  - eexists. split; [reflexivity|].
    apply (proj1 (proj2 (fixed_domain_permute_bijection test_hkdf test_cipher
                           keccak.shake128 mykey 3 []))).
    reflexivity.
  - eexists. split; [reflexivity|].
    apply (proj2 (proj2 (fixed_domain_permute_bijection test_hkdf test_cipher
                           keccak.shake128 mykey 3 []))).
    reflexivity.
Defined.

(** C3. Given that the underlying fixed-domain map [pi] is computed by the
    block permutation object and is injective from the finite interval
    [[0, 2^L)] into itself, with [N <= 2^L], the loop of
    [ArbitraryN.PermuteInPlace] started at a value below [N] terminates:
    after some number [k] of applications, at least one and at most [2^L],
    the value is below [N], and with that much fuel the call returns it. *)
Theorem cycle_walk_terminates
        {P : Type} {PP : Permutation P} (Inv : P -> Prop)
        (pi : list byte -> Z -> Z) (L N : Z) (tweak : list byte)
        (a : ArbitraryN.t P) (v : Z) :
  (forall s x t, Inv s -> 0 <= x < 2 ^ L ->
     exists s', PermuteInPlace x t s = (Ret (pi t x), s') /\ Inv s') ->
  (forall t x, 0 <= x < 2 ^ L -> 0 <= pi t x < 2 ^ L) ->
  (forall t x1 x2, 0 <= x1 < 2 ^ L -> 0 <= x2 < 2 ^ L -> pi t x1 = pi t x2 -> x1 = x2) ->
  N <= 2 ^ L -> ArbitraryN.n a = N -> Inv (ArbitraryN.p a) -> 0 <= v < N ->
  exists k y,
    (1 <= k <= Z.to_nat (2 ^ L))%nat /\ y = orbit (pi tweak) k v /\ 0 <= y < N
    /\ forall fuel, (Z.to_nat (2 ^ L) <= fuel)%nat ->
         exists a', ArbitraryN.PermuteInPlace fuel v tweak a = (Ret y, a').
Proof.
  intros Hrun Hrg Hinj HN Hn Hi Hv.
  destruct (adapter_terminates Inv pi L Hrun Hrg Hinj N tweak a v (conj Hn Hi) Hv HN)
    as (k & y & Hk & Hy & Hlt & Hf).
  exists k, y. repeat split; try assumption; try lia.
  intros fuel Hfuel. destruct (Hf fuel Hfuel) as (a' & E & _). eauto.
Qed.

Lemma cycle_walk_terminates_witness :
  exists k y,
    (1 <= k <= Z.to_nat (2 ^ 3))%nat
    /\ y = orbit (SHAKE_perm keccak.shake128 mykey 3 []) k 0 /\ 0 <= y < 5
    /\ forall fuel, (Z.to_nat (2 ^ 3) <= fuel)%nat ->
         exists a', ArbitraryN.PermuteInPlace fuel 0 []
                      (ArbitraryN.mk
                         (FeistelSHAKE128.mk mykey 3 36 0 0 0 0 0 0 []
                            (sha3.mkSHAKE keccak.shake128 [] 0)) 5 0)
                    = (Ret y, a').
Proof.
  apply (cycle_walk_terminates (SHAKE_inv keccak.shake128 mykey 3)
           (SHAKE_perm keccak.shake128 mykey 3) 3 5 []).
  - intros s x t Hs Hx. apply SHAKE_PermuteInPlace_run; assumption.
  - intros t x Hx. apply SHAKE_perm_range; [lia | exact Hx].
  - intros t x1 x2 H1 H2. apply SHAKE_perm_inj; [lia | exact H1 | exact H2].
  - cbv. discriminate.
  - reflexivity.
  - unfold SHAKE_inv. cbn. repeat split; try reflexivity. lia.
  - lia.
Defined.

(** The adapter built by [NewN] runs over a block permutation that
    computes an injective map of [[0, 2^width)]. *)
Lemma NewN_adapter hk ae xof key N a0 a :
  1 <= N -> NewN hk ae xof key N = Ret a0 -> reachableN a0 a ->
  let Inv := engine_inv (ae (hk key)) xof key (width_of N) in
  let pi := engine_perm (ae (hk key)) xof key (width_of N) in
  adapter_inv Inv N a /\ N <= 2 ^ width_of N
  /\ (forall s x t, Inv s -> 0 <= x < 2 ^ width_of N ->
        exists s', PermuteInPlace x t s = (Ret (pi t x), s') /\ Inv s')
  /\ (forall t x, 0 <= x < 2 ^ width_of N -> 0 <= pi t x < 2 ^ width_of N)
  /\ (forall t x1 x2, 0 <= x1 < 2 ^ width_of N -> 0 <= x2 < 2 ^ width_of N ->
        pi t x1 = pi t x2 -> x1 = x2).
Proof.
  intros HN H0 Hr Inv pi. destruct (width_of_covers N HN) as [H2 Hc].
  split; [eapply NewN_reachable_inv; eauto|]. split; [exact Hc|].
  split; [intros s x t; apply engine_run|].
  split; [intros t x; apply engine_perm_range; exact H2|].
  intros t x1 x2. apply engine_perm_inj. exact H2.
Qed.

(** C1, amended.  For every key, every tweak and every [N >= 1], on the
    adapter built by [NewN] in any state left by earlier calls:
    [PermuteInPlace] on an input of [[0, N)] returns (with enough fuel for
    its loop), every value it returns lies in [[0, N)], and two inputs of
    [[0, N)] with the same output are equal.  [PermuteInt] has the same
    three properties when [N <= 2^63], that is when the range fits a Go
    [int]; beyond that it truncates the result to 64 bits. *)
Theorem range_permute_injective
        (hkdf_Key : list byte -> list byte)
        (aes_NewCipher : list byte -> list byte -> list byte)
        (shake128 : list byte -> nat -> byte)
        (key : list byte) (N : Z) (a0 : ArbitraryN.t engine) (tweak : list byte) :
  1 <= N -> NewN hkdf_Key aes_NewCipher shake128 key N = Ret a0 ->
  (forall a v, reachableN a0 a -> 0 <= v < N ->
     exists fuel y a', ArbitraryN.PermuteInPlace fuel v tweak a = (Ret y, a'))
  /\ (forall a fuel v y a', reachableN a0 a -> 0 <= v < N ->
        ArbitraryN.PermuteInPlace fuel v tweak a = (Ret y, a') -> 0 <= y < N)
  /\ (forall a1 a2 f1 f2 v1 v2 y a1' a2',
        reachableN a0 a1 -> reachableN a0 a2 -> 0 <= v1 < N -> 0 <= v2 < N ->
        ArbitraryN.PermuteInPlace f1 v1 tweak a1 = (Ret y, a1') ->
        ArbitraryN.PermuteInPlace f2 v2 tweak a2 = (Ret y, a2') -> v1 = v2)
  /\ (N <= 2 ^ 63 ->
      (forall a i, reachableN a0 a -> 0 <= i < N ->
         exists fuel y a', ArbitraryN.PermuteInt fuel i a = (Ret y, a'))
      /\ (forall a fuel i y a', reachableN a0 a -> 0 <= i < N ->
            ArbitraryN.PermuteInt fuel i a = (Ret y, a') -> 0 <= y < N)
      /\ (forall a1 a2 f1 f2 i1 i2 y a1' a2',
            reachableN a0 a1 -> reachableN a0 a2 -> 0 <= i1 < N -> 0 <= i2 < N ->
            ArbitraryN.PermuteInt f1 i1 a1 = (Ret y, a1') ->
            ArbitraryN.PermuteInt f2 i2 a2 = (Ret y, a2') -> i1 = i2)).
Proof.
  intros HN H0.
  set (Inv := engine_inv (aes_NewCipher (hkdf_Key key)) shake128 key (width_of N)).
  set (pi := engine_perm (aes_NewCipher (hkdf_Key key)) shake128 key (width_of N)).
  assert (Had : forall a, reachableN a0 a ->
            adapter_inv Inv N a /\ N <= 2 ^ width_of N
            /\ (forall s x t, Inv s -> 0 <= x < 2 ^ width_of N ->
                  exists s', PermuteInPlace x t s = (Ret (pi t x), s') /\ Inv s')
            /\ (forall t x, 0 <= x < 2 ^ width_of N -> 0 <= pi t x < 2 ^ width_of N)
            /\ (forall t x1 x2, 0 <= x1 < 2 ^ width_of N -> 0 <= x2 < 2 ^ width_of N ->
                  pi t x1 = pi t x2 -> x1 = x2)).
  { intros a Hr. exact (NewN_adapter _ _ _ _ _ _ _ HN H0 Hr). }
  destruct (Had a0 (reachableN_init a0)) as (_ & HNL & Hrun & Hrg & Hinj).
  assert (Hterm : forall a v t, reachableN a0 a -> 0 <= v < N ->
            exists fuel y a', ArbitraryN.PermuteInPlace fuel v t a = (Ret y, a') /\ 0 <= y < N).
  { intros a v t Hr Hv. destruct (Had a Hr) as (Ha & _).
    destruct (adapter_terminates Inv pi _ Hrun Hrg Hinj N t a v Ha Hv HNL)
      as (k & y & _ & _ & Hy & Hf).
    destruct (Hf _ (Nat.le_refl _)) as (a' & E & _). eauto 6. }
  split; [|split; [|split]].
  - intros a v Hr Hv. destruct (Hterm a v tweak Hr Hv) as (fuel & y & a' & E & _). eauto.
  - intros a fuel v y a' Hr Hv E. destruct (Had a Hr) as (Ha & _).
    exact (adapter_range Inv pi _ Hrun Hrg N tweak fuel a v y a' Ha Hv HNL E).
  - intros a1 a2 f1 f2 v1 v2 y a1' a2' Hr1 Hr2 Hv1 Hv2 E1 E2.
    destruct (Had a1 Hr1) as (Ha1 & _). destruct (Had a2 Hr2) as (Ha2 & _).
    exact (adapter_inj Inv pi _ Hrun Hrg Hinj N tweak f1 f2 a1 a2 v1 v2 y a1' a2'
             Ha1 Ha2 HNL Hv1 Hv2 E1 E2).
  - intros H63. split; [|split].
    + intros a i Hr Hi. destruct (Had a Hr) as (Ha & _).
      destruct (adapter_terminates Inv pi _ Hrun Hrg Hinj N [] (ArbitraryN.set_in a i) i
                  (adapter_inv_set_in Inv N a i Ha) Hi HNL)
        as (k & y & _ & _ & Hy & Hf).
      destruct (Hf _ (Nat.le_refl _)) as (a' & E & _).
      exists (Z.to_nat (2 ^ width_of N)), (int64 (big.Int64 y)), (ArbitraryN.set_in a' y).
      rewrite adapter_PermuteInt_run, int64_small by lia. rewrite E. reflexivity.
    + intros a fuel i y a' Hr Hi E. destruct (Had a Hr) as (Ha & _).
      destruct (adapter_PermuteInt_Ret Inv pi _ N fuel i a y a' Hrun Hrg Ha HNL H63 Hi E)
        as (a1 & _ & Hy). exact Hy.
    + intros a1 a2 f1 f2 i1 i2 y a1' a2' Hr1 Hr2 Hi1 Hi2 E1 E2.
      destruct (Had a1 Hr1) as (Ha1 & _). destruct (Had a2 Hr2) as (Ha2 & _).
      destruct (adapter_PermuteInt_Ret Inv pi _ N f1 i1 a1 y a1' Hrun Hrg Ha1 HNL H63 Hi1 E1)
        as (b1 & F1 & _).
      destruct (adapter_PermuteInt_Ret Inv pi _ N f2 i2 a2 y a2' Hrun Hrg Ha2 HNL H63 Hi2 E2)
        as (b2 & F2 & _).
      exact (adapter_inj Inv pi _ Hrun Hrg Hinj N [] f1 f2 _ _ i1 i2 y b1 b2
               (adapter_inv_set_in Inv N a1 i1 Ha1) (adapter_inv_set_in Inv N a2 i2 Ha2)
               HNL Hi1 Hi2 F1 F2).
Qed.

Lemma range_permute_injective_witness :
  exists a0, NewN test_hkdf test_cipher keccak.shake128 mykey 5 = Ret a0
    /\ (forall a fuel v y a', reachableN a0 a -> 0 <= v < 5 ->
          ArbitraryN.PermuteInPlace fuel v [] a = (Ret y, a') -> 0 <= y < 5)
    /\ (forall a fuel i y a', reachableN a0 a -> 0 <= i < 5 ->
          ArbitraryN.PermuteInt fuel i a = (Ret y, a') -> 0 <= y < 5).
Proof.
  eexists. split; [reflexivity|].
  destruct (range_permute_injective test_hkdf test_cipher keccak.shake128 mykey 5 _ []
              ltac:(lia) eq_refl) as (_ & Hrange & _ & Hint).
  split; [exact Hrange|].
  destruct (Hint ltac:(lia)) as (_ & Hirange & _). exact Hirange.
Defined.

Lemma range_permute_injective_counterexample :
  0 <= 0 < 2 ^ 129
  /\ call (NewN test_hkdf test_cipher keccak.shake128 mykey (2 ^ 129))
          (ArbitraryN.PermuteInt 1 0) = Ret (-6010280138803252789)
  /\ ~ (0 <= -6010280138803252789 < 2 ^ 129).
Proof.
  split; [lia|]. split; [vm_compute; reflexivity | lia].
Qed.

Lemma NewN_engine_lengthBits hk ae xof key N a0 :
  1 <= N -> NewN hk ae xof key N = Ret a0 ->
  engine_lengthBits (ArbitraryN.p a0) = width_of N.
Proof.
  intros HN H0. destruct (NewN_inv _ _ _ _ _ _ HN H0) as (_ & _ & He).
  destruct (ArbitraryN.p a0) as [e | e]; destruct He as [_ Hinv]; apply Hinv.
Qed.

(** FFX does not refuse an input outside its domain: over the stand-in
    cipher, the object of width 8 maps 256 to 340. *)
Example FFX_input_out_of_domain :
  call (FFX.NewFFX test_hkdf test_cipher mykey 8) (FFX.PermuteInPlace 256 [])
  = Ret 340.
Proof. vm_compute. reflexivity. Qed.

(** The adapter does not refuse negative inputs: on the range 5
    with the key "mykey", [PermuteInt(-1)] returns -3. *)
Example PermuteInt_negative_input :
  call (NewN test_hkdf test_cipher keccak.shake128 mykey 5)
       (ArbitraryN.PermuteInt 8 (-1)) = Ret (-3).
Proof. vm_compute. reflexivity. Qed.

(** C5.  Determinism: for the same key, the same domain, the same tweak
    and the same in-domain input, two calls of [PermuteInPlace] return the
    same output, whether made on one object or on two objects built alike,
    and whatever calls (with other tweaks or inputs, returning or
    panicking) each object served before. *)
Theorem permute_deterministic
        (hkdf_Key : list byte -> list byte)
        (aes_NewCipher : list byte -> list byte -> list byte)
        (shake128 : list byte -> nat -> byte)
        (key : list byte) (tweak : list byte) :
  (forall L e0 e0' e1 e2 v,
     FFX.NewFFX hkdf_Key aes_NewCipher key L = Ret e0 ->
     FFX.NewFFX hkdf_Key aes_NewCipher key L = Ret e0' ->
     reachable e0 e1 -> reachable e0' e2 -> 0 <= v < 2 ^ L ->
     exists y e1' e2', FFX.PermuteInPlace v tweak e1 = (Ret y, e1')
                       /\ FFX.PermuteInPlace v tweak e2 = (Ret y, e2'))
  /\ (forall L e0 e0' e1 e2 v,
        FeistelSHAKE128.NewPowerOf2 shake128 key L = Ret e0 ->
        FeistelSHAKE128.NewPowerOf2 shake128 key L = Ret e0' ->
        reachable e0 e1 -> reachable e0' e2 -> 0 <= v < 2 ^ L ->
        exists y e1' e2', FeistelSHAKE128.PermuteInPlace v tweak e1 = (Ret y, e1')
                          /\ FeistelSHAKE128.PermuteInPlace v tweak e2 = (Ret y, e2'))
  /\ (forall N a0 a0' a1 a2 v,
        1 <= N ->
        NewN hkdf_Key aes_NewCipher shake128 key N = Ret a0 ->
        NewN hkdf_Key aes_NewCipher shake128 key N = Ret a0' ->
        reachableN a0 a1 -> reachableN a0' a2 -> 0 <= v < N ->
        (exists fuel y a1' a2',
           ArbitraryN.PermuteInPlace fuel v tweak a1 = (Ret y, a1')
           /\ ArbitraryN.PermuteInPlace fuel v tweak a2 = (Ret y, a2'))
        /\ (forall f1 f2 y1 y2 a1' a2',
              ArbitraryN.PermuteInPlace f1 v tweak a1 = (Ret y1, a1') ->
              ArbitraryN.PermuteInPlace f2 v tweak a2 = (Ret y2, a2') -> y1 = y2)).
Proof.
  split; [|split].
  - intros L e0 e0' e1 e2 v H0 H0' Hr1 Hr2 Hv.
    destruct (FFX_reachable_inv _ _ _ _ _ _ H0 Hr1) as [_ Hi1].
    destruct (FFX_reachable_inv _ _ _ _ _ _ H0' Hr2) as [_ Hi2].
    destruct (FFX_PermuteInPlace_run _ _ _ e1 v tweak Hi1) as (e1' & E1 & _).
    destruct (FFX_PermuteInPlace_run _ _ _ e2 v tweak Hi2) as (e2' & E2 & _).
    eauto.
  - intros L e0 e0' e1 e2 v H0 H0' Hr1 Hr2 Hv.
    pose proof (SHAKE_reachable_inv _ _ _ _ _ H0 Hr1) as Hi1.
    pose proof (SHAKE_reachable_inv _ _ _ _ _ H0' Hr2) as Hi2.
    destruct (SHAKE_PermuteInPlace_run _ _ _ e1 v tweak Hi1 Hv) as (e1' & E1 & _).
    destruct (SHAKE_PermuteInPlace_run _ _ _ e2 v tweak Hi2 Hv) as (e2' & E2 & _).
    eauto.
  - intros N a0 a0' a1 a2 v HN H0 H0' Hr1 Hr2 Hv.
    destruct (NewN_adapter _ _ _ _ _ _ _ HN H0 Hr1) as (Ha1 & HNL & Hrun & Hrg & Hinj).
    destruct (NewN_adapter _ _ _ _ _ _ _ HN H0' Hr2) as (Ha2 & _).
    split.
    + destruct (adapter_terminates _ _ _ Hrun Hrg Hinj N tweak a1 v Ha1 Hv HNL)
        as (k1 & y1 & _ & _ & _ & Hf1).
      destruct (adapter_terminates _ _ _ Hrun Hrg Hinj N tweak a2 v Ha2 Hv HNL)
        as (k2 & y2 & _ & _ & _ & Hf2).
      destruct (Hf1 _ (Nat.le_refl _)) as (a1' & E1 & _).
      destruct (Hf2 _ (Nat.le_refl _)) as (a2' & E2 & _).
      assert (y1 = y2)
        by exact (adapter_deterministic _ _ _ Hrun Hrg N tweak _ _ a1 a2 v y1 y2 a1' a2'
                    Ha1 Ha2 HNL Hv E1 E2).
      subst y2. eauto 6.
    + intros f1 f2 y1 y2 a1' a2' E1 E2.
      exact (adapter_deterministic _ _ _ Hrun Hrg N tweak f1 f2 a1 a2 v y1 y2 a1' a2'
               Ha1 Ha2 HNL Hv E1 E2).
Qed.

Lemma permute_deterministic_witness :
  exists e0, FFX.NewFFX test_hkdf test_cipher mykey 8 = Ret e0
    /\ forall e1 e2, reachable e0 e1 -> reachable e0 e2 ->
         exists y e1' e2', FFX.PermuteInPlace 7 [] e1 = (Ret y, e1')
                           /\ FFX.PermuteInPlace 7 [] e2 = (Ret y, e2').
Proof.
  eexists. split; [reflexivity|]. intros e1 e2 Hr1 Hr2.
  apply (proj1 (permute_deterministic test_hkdf test_cipher keccak.shake128 mykey [])
           8 _ _ e1 e2 7 eq_refl eq_refl Hr1 Hr2).
  lia.
Defined.

Lemma odd_halves L : Z.odd L = true -> L - L / 2 = (L + 1) / 2 /\ (L + 1) / 2 = L / 2 + 1.
Proof.
  intros Ho. pose proof (Zmod_odd L) as Hm. rewrite Ho in Hm.
  Z.div_mod_to_equations. lia.
Qed.

(** The split and the join of the SHAKE engine, in any state of an object
    of width [L]. *)
Lemma SHAKE_split_join xof key L e v :
  SHAKE_inv xof key L e -> 0 <= v < 2 ^ L ->
  let floor := L / 2 in
  let ceil := L - L / 2 in
  (exists e', FeistelSHAKE128.split_halves v e = (Ret tt, e')
              /\ FeistelSHAKE128.load FeistelSHAKE128.a_ref e' = v / 2 ^ floor
              /\ FeistelSHAKE128.load FeistelSHAKE128.b_ref e' = v mod 2 ^ floor
              /\ 0 <= v / 2 ^ floor < 2 ^ ceil
              /\ 0 <= v mod 2 ^ floor < 2 ^ floor)
  /\ (forall a b, 0 <= FeistelSHAKE128.load b e < 2 ^ floor ->
         FeistelSHAKE128.join_halves a b e
         = (Ret (FeistelSHAKE128.load a e * 2 ^ floor + FeistelSHAKE128.load b e), e)).
Proof.
  intros (I1 & _ & _ & _ & HL) Hv floor ceil.
  assert (Hf : 1 <= floor) by (subst floor; Z.div_mod_to_equations; lia).
  assert (Hp : 0 < 2 ^ floor) by (apply Z.pow_pos_nonneg; lia).
  assert (Hsum : ceil + floor = L) by (subst ceil floor; lia).
  assert (Hce : 1 <= ceil) by (subst ceil; Z.div_mod_to_equations; lia).
  split.
  - unfold FeistelSHAKE128.split_halves. rewrite run_get, I1. fold floor.
    rewrite !run_modify.
    eexists. split; [reflexivity|].
    split; [destruct e; cbn; apply Z.shiftr_div_pow2; lia|].
    split; [destruct e; cbn; unfold big.SetInt64; rewrite Z.shiftl_1_l;
            apply land_mask_mod; lia|].
    split; [|apply Z.mod_pos_bound; exact Hp].
    apply div_pow2_bound; [lia | lia | rewrite Hsum; exact Hv].
  - intros a b Hb. unfold FeistelSHAKE128.join_halves.
    rewrite run_get, !run_gets, I1. fold floor.
    rewrite shiftl_lor_add by lia. reflexivity.
Qed.

(** Arithmetic of the zero padding of [q]. *)
Lemma pad_reaches_7 n : (n + (7 - n) mod 16) mod 16 = 7.
Proof.
  rewrite Zplus_mod_idemp_r. replace (n + (7 - n)) with 7 by lia. reflexivity.
Qed.

(** The walk of the adapter for the range 5 under the key "mykey". *)
Lemma walk_mykey c :
  let pi := engine_perm c keccak.shake128 mykey (width_of 5) [] in
  walk pi 5 8 0 = Some 1 /\ walk pi 5 8 1 = Some 4 /\ walk pi 5 8 2 = Some 2
  /\ walk pi 5 8 3 = Some 0 /\ walk pi 5 8 4 = Some 3.
Proof. vm_compute. repeat split; reflexivity. Qed.

Lemma PermuteInt_of_walk hk ae xof key N a0 a fuel fuel0 i y :
  1 <= N -> NewN hk ae xof key N = Ret a0 -> reachableN a0 a ->
  0 <= i < N -> N <= 2 ^ 63 -> (fuel0 <= fuel)%nat ->
  walk (engine_perm (ae (hk key)) xof key (width_of N) []) N fuel0 i = Some y ->
  fst (ArbitraryN.PermuteInt fuel i a) = Ret y.
Proof.
  intros HN H0 Hr Hi H63 Hf W.
  destruct (NewN_adapter _ _ _ _ _ _ _ HN H0 Hr) as (Ha & HNL & Hrun & Hrg & Hinj).
  rewrite adapter_PermuteInt_run, int64_small by lia.
  destruct (adapter_in_range _ _ _ Hrun Hrg N [] fuel (ArbitraryN.set_in a i) i
              (adapter_inv_set_in _ N a i Ha) Hi HNL) as (a' & E & _).
  rewrite E. rewrite (walk_more_fuel _ _ _ _ _ _ W Hf). cbn [outcome fst].
  destruct (walk_first _ _ _ _ _ W) as (k & _ & Hy & Hlt & _).
  assert (0 <= y) by (rewrite Hy; apply (orbit_range _ (2 ^ width_of N) (Hrg []) k i); lia).
  rewrite Int64_small, int64_small by lia. reflexivity.
Qed.

(** C9.  With the key "mykey" and [N = 5], the adapter built by [NewNInt]
    maps 0 to 1, 1 to 4, 2 to 2, 3 to 0 and 4 to 3 under [PermuteInt], in
    every state of the object (the loop needs at most 8 iterations). *)
Theorem example_mykey_mapping
        (hkdf_Key : list byte -> list byte)
        (aes_NewCipher : list byte -> list byte -> list byte)
        (a0 a : ArbitraryN.t engine) (fuel : nat) :
  NewNInt hkdf_Key aes_NewCipher keccak.shake128 mykey 5 = Ret a0 ->
  reachableN a0 a -> (8 <= fuel)%nat ->
  fst (ArbitraryN.PermuteInt fuel 0 a) = Ret 1
  /\ fst (ArbitraryN.PermuteInt fuel 1 a) = Ret 4
  /\ fst (ArbitraryN.PermuteInt fuel 2 a) = Ret 2
  /\ fst (ArbitraryN.PermuteInt fuel 3 a) = Ret 0
  /\ fst (ArbitraryN.PermuteInt fuel 4 a) = Ret 3.
Proof.
  intros H0 Hr Hf. unfold NewNInt in H0. change (int64 5) with 5 in H0.
  destruct (walk_mykey (aes_NewCipher (hkdf_Key mykey))) as (W0 & W1 & W2 & W3 & W4).
  repeat split;
    eapply (PermuteInt_of_walk hkdf_Key aes_NewCipher keccak.shake128 mykey 5 a0 a fuel 8%nat);
    eauto; lia.
Qed.

Lemma example_mykey_mapping_witness :
  exists a0, NewNInt test_hkdf test_cipher keccak.shake128 mykey 5 = Ret a0
    /\ fst (ArbitraryN.PermuteInt 8 0 a0) = Ret 1
    /\ fst (ArbitraryN.PermuteInt 8 1 a0) = Ret 4
    /\ fst (ArbitraryN.PermuteInt 8 2 a0) = Ret 2
    /\ fst (ArbitraryN.PermuteInt 8 3 a0) = Ret 0
    /\ fst (ArbitraryN.PermuteInt 8 4 a0) = Ret 3.
Proof.
  eexists. split; [reflexivity|].
  exact (example_mykey_mapping test_hkdf test_cipher _ _ 8%nat eq_refl
           (reachableN_init _) (Nat.le_refl 8)).
Defined.

(** ** The walk in numbers: how many applications, and onto what *)

(** A list without duplicates of points of [[lo, hi)] has at most [hi - lo]
    elements. *)
Lemma NoDup_interval_length (l : list Z) lo hi :
  NoDup l -> (forall z, In z l -> lo <= z < hi) -> Z.of_nat (length l) <= Z.max 0 (hi - lo).
Proof.
  intros Hnd Hin.
  assert (Hincl : incl l (map (fun i => lo + Z.of_nat i) (seq 0 (Z.to_nat (hi - lo))))).
  { intros z Hz. apply Hin in Hz. apply in_map_iff.
    exists (Z.to_nat (z - lo)). split; [lia|]. apply in_seq. lia. }
  pose proof (NoDup_incl_length Hnd Hincl) as Hlen.
  rewrite length_map, length_seq in Hlen. lia.
Qed.

Lemma NoDup_map_in {A B : Type} (f : A -> B) (l : list A) :
  (forall x y, In x l -> In y l -> f x = f y -> x = y) -> NoDup l -> NoDup (map f l).
Proof.
  intros Hinj Hnd. induction Hnd as [|a l Ha Hnd IH]; cbn; constructor.
  - intros Hin. apply in_map_iff in Hin. destruct Hin as (x & E & Hx).
    apply Ha. replace a with x; [exact Hx|].
    apply Hinj; [right; exact Hx | left; reflexivity | exact E].
  - apply IH. intros x y Hx Hy. apply Hinj; right; assumption.
Qed.

(** An injective map of [[0, N)] into itself is onto. *)
Lemma interval_inj_onto (f : Z -> Z) N :
  (forall x, 0 <= x < N -> 0 <= f x < N) ->
  (forall x1 x2, 0 <= x1 < N -> 0 <= x2 < N -> f x1 = f x2 -> x1 = x2) ->
  forall y, 0 <= y < N -> exists x, 0 <= x < N /\ f x = y.
Proof.
  intros Hrg Hinj y Hy.
  set (l0 := map Z.of_nat (seq 0 (Z.to_nat N))).
  assert (Hl0 : forall z, In z l0 <-> 0 <= z < N).
  { intros z. subst l0. rewrite in_map_iff. split.
    - intros (i & <- & Hi). apply in_seq in Hi. lia.
    - intros Hz. exists (Z.to_nat z). split; [lia|]. apply in_seq. lia. }
  assert (Hnd0 : NoDup l0).
  { subst l0. apply NoDup_map_in; [|apply seq_NoDup].
    intros i j _ _. apply Nat2Z.inj. }
  assert (Hnd : NoDup (map f l0)).
  { apply NoDup_map_in; [|exact Hnd0].
    intros x1 x2 H1 H2. apply Hinj; apply Hl0; assumption. }
  assert (Hincl : incl (map f l0) l0).
  { intros z Hz. apply in_map_iff in Hz. destruct Hz as (x & <- & Hx).
    apply Hl0. apply Hrg. apply Hl0. exact Hx. }
  assert (Hback : incl l0 (map f l0)).
  { apply NoDup_length_incl; [exact Hnd | rewrite length_map; lia | exact Hincl]. }
  assert (Hyin : In y (map f l0)) by (apply Hback, Hl0; exact Hy).
  apply in_map_iff in Hyin. destruct Hyin as (x & E & Hx).
  exists x. split; [apply Hl0; exact Hx | exact E].
Qed.

Section WalkCount.
Variable pi : Z -> Z.
Variable M : Z.
Hypothesis pi_range : forall x, 0 <= x < M -> 0 <= pi x < M.
Hypothesis pi_inj : forall x y,
  0 <= x < M -> 0 <= y < M -> pi x = pi y -> x = y.
Variable N : Z.
Hypothesis N_le_M : N <= M.

(** The walk from a point below [N] makes exactly [k] applications, for a
    [k] of at most [M - N + 1]: the points it passes are different points
    of [[N, M)]. *)
Lemma walk_exact x :
  0 <= x < N ->
  exists k, (1 <= k)%nat /\ Z.of_nat k <= M - N + 1
    /\ 0 <= orbit pi k x < N
    /\ (forall m, (1 <= m < k)%nat -> N <= orbit pi m x < M)
    /\ (forall fuel, (k <= fuel)%nat -> walk pi N fuel x = Some (orbit pi k x))
    /\ (forall fuel, (fuel < k)%nat -> walk pi N fuel x = None).
Proof.
  intros Hx. assert (HxM : 0 <= x < M) by lia.
  destruct (walk_terminates pi M pi_range pi_inj N N_le_M x Hx) as (y & W & Hy).
  destruct (walk_first pi N _ _ _ W) as (k & Hk & Ey & _ & Hmin).
  assert (Hmid : forall m, (1 <= m < k)%nat -> N <= orbit pi m x < M).
  { intros m Hm. pose proof (orbit_range pi M pi_range m x HxM).
    specialize (Hmin m Hm). lia. }
  exists k. split; [lia|]. split; [|split; [subst y; exact Hy|split; [exact Hmid|split]]].
  - (* the bound *)
    destruct (orbit_dup_or_NoDup pi x k) as [Hnd | (i & j & Hij & E)].
    + replace k with (S (k - 1)) in Hnd by lia. rewrite <- cons_seq in Hnd.
      cbn [map] in Hnd. apply NoDup_cons_iff in Hnd. destruct Hnd as [_ Hnd].
      pose proof (NoDup_interval_length _ N M Hnd) as Hlen.
      rewrite length_map, length_seq in Hlen.
      assert (Hall : forall z, In z (map (fun k0 => orbit pi k0 x) (seq 1 (k - 1))) ->
                               N <= z < M).
      { intros z Hz. apply in_map_iff in Hz. destruct Hz as (m & <- & Hm).
        apply in_seq in Hm. apply Hmid. lia. }
      specialize (Hlen Hall). lia.
    + exfalso.
      replace j with (i + (j - i))%nat in E by lia.
      rewrite orbit_add in E.
      assert (E' : orbit pi i x = orbit pi i (orbit pi (j - i) x)).
      { rewrite <- orbit_add. replace (j - i + i)%nat with (i + (j - i))%nat by lia.
        rewrite orbit_add. exact E. }
      apply (orbit_inj pi M pi_range pi_inj i) in E';
        [|exact HxM | apply (orbit_range pi M pi_range); exact HxM].
      specialize (Hmid (j - i)%nat ltac:(lia)). lia.
  - intros fuel Hf. rewrite <- Ey.
    destruct (Nat.le_ge_cases fuel (Z.to_nat M)) as [Hle | Hge].
    + destruct (walk pi N fuel x) as [y'|] eqn:W'.
      * pose proof (walk_more_fuel pi N _ _ _ _ W' Hle) as W2.
        rewrite W in W2. exact (eq_sym W2).
      * exfalso.
        assert (Hr : exists j, (1 <= j <= fuel)%nat /\ orbit pi j x < N).
        { exists k. split; [lia|]. rewrite <- Ey. lia. }
        destruct (walk_reaches pi N fuel x Hr) as (y' & W2 & _). congruence.
    + exact (walk_more_fuel pi N _ _ _ _ W Hge).
  - intros fuel Hf. destruct (walk pi N fuel x) as [y'|] eqn:W'; [exfalso|reflexivity].
    destruct (walk_first pi N _ _ _ W') as (j & Hj & Ej & Hlt & _).
    specialize (Hmid j ltac:(lia)). lia.
Qed.

(** Every point below [N] is where the walk from some point below [N]
    ends. *)
Lemma walk_onto y :
  0 <= y < N -> exists x, 0 <= x < N /\ walk pi N (Z.to_nat M) x = Some y.
Proof.
  intros Hy.
  set (f := fun x => match walk pi N (Z.to_nat M) x with Some z => z | None => 0 end).
  assert (Hf : forall x, 0 <= x < N ->
                 walk pi N (Z.to_nat M) x = Some (f x) /\ 0 <= f x < N).
  { intros x Hx.
    destruct (walk_terminates pi M pi_range pi_inj N N_le_M x Hx) as (z & W & Hz).
    unfold f. rewrite W. split; [reflexivity | exact Hz]. }
  destruct (interval_inj_onto f N) with (y := y) as (x & Hx & E).
  - intros x Hx. apply Hf. exact Hx.
  - intros x1 x2 H1 H2 E.
    destruct (Hf x1 H1) as [W1 _]. destruct (Hf x2 H2) as [W2 _]. rewrite E in W1.
    exact (walk_inj pi M pi_range pi_inj N N_le_M _ _ x1 x2 (f x2) H1 H2 W1 W2).
  - exact Hy.
  - exists x. split; [exact Hx|]. destruct (Hf x Hx) as [W _]. rewrite E in W. exact W.
Qed.
End WalkCount.

(** ** Further properties of the adapter *)

Lemma iterate_below {P : Type} {PP : Permutation P} fuel :
  forall v tweak (a a' : ArbitraryN.t P) r,
  ArbitraryN.iterate fuel v tweak a = (r, a') ->
  ArbitraryN.n a' = ArbitraryN.n a /\ ArbitraryN.in_ a' = ArbitraryN.in_ a
  /\ forall y, r = Ret y -> y < ArbitraryN.n a.
Proof.
  induction fuel as [|fuel IH]; intros v tweak a a' r H.
  - cbn in H. injection H as <- <-. repeat split; intros; discriminate.
  - cbn [ArbitraryN.iterate] in H. unfold bind at 1 in H. unfold zoom in H.
    destruct (PermuteInPlace v tweak (ArbitraryN.p a)) as [[x | e |] s1].
    + rewrite run_get in H. cbn [ArbitraryN.n ArbitraryN.set_p] in H.
      rewrite Cmp_ltb in H. destruct (x <? ArbitraryN.n a) eqn:E.
      * injection H as <- <-. repeat split. intros y Hy. injection Hy as <-. lia.
      * apply IH in H. cbn [ArbitraryN.n ArbitraryN.in_ ArbitraryN.set_p] in H. exact H.
    + injection H as <- <-. repeat split. intros; discriminate.
    + injection H as <- <-. repeat split. intros; discriminate.
Qed.

(** X1.  Whatever the block permutation behind the interface does, and
    whatever the input, a call of [ArbitraryN.PermuteInPlace] leaves the
    bound [n] and the scratch [in] of the adapter as they were, and a value
    it returns is below [n], as was the input: the only way out of its loop
    is the test [inOut.Cmp(&p.n) < 0]. *)
Theorem adapter_result_below_bound {P : Type} {PP : Permutation P}
        (fuel : nat) (v : Z) (tweak : list byte) (a : ArbitraryN.t P) :
  ArbitraryN.n (snd (ArbitraryN.PermuteInPlace fuel v tweak a)) = ArbitraryN.n a
  /\ ArbitraryN.in_ (snd (ArbitraryN.PermuteInPlace fuel v tweak a)) = ArbitraryN.in_ a
  /\ forall y, fst (ArbitraryN.PermuteInPlace fuel v tweak a) = Ret y ->
               v < ArbitraryN.n a /\ y < ArbitraryN.n a.
Proof.
  unfold ArbitraryN.PermuteInPlace. rewrite run_get, Cmp_geb.
  destruct (ArbitraryN.n a <=? v) eqn:E.
  - cbn. repeat split; intros; discriminate.
  - destruct (ArbitraryN.iterate fuel v tweak a) as [r a'] eqn:H.
    apply iterate_below in H. destruct H as (Hn & Hi & Hy). cbn [fst snd].
    repeat split; try assumption; [lia | apply Hy; assumption].
Qed.

(** X2.  The adapter built by [NewN] for [N >= 1] on an input [v] of
    [[0, N)] applies its block permutation exactly [k] times, for some [k]
    between 1 and [2^lengthBits - N + 1]: the values after the first
    [k - 1] applications are in [[N, 2^lengthBits)], the value after the
    [k]-th is below [N] and is what [PermuteInPlace] returns; with less
    fuel than [k] the model of the loop is still running.  In particular a
    range that is a power of two ([N = 2^lengthBits]) takes one
    application. *)
Theorem cycle_walk_exact_count
        (hkdf_Key : list byte -> list byte)
        (aes_NewCipher : list byte -> list byte -> list byte)
        (shake128 : list byte -> nat -> byte)
        (key : list byte) (N : Z) (a0 a : ArbitraryN.t engine)
        (v : Z) (tweak : list byte) :
  1 <= N -> NewN hkdf_Key aes_NewCipher shake128 key N = Ret a0 ->
  reachableN a0 a -> 0 <= v < N ->
  let L := engine_lengthBits (ArbitraryN.p a0) in
  exists pi : Z -> Z,
    (forall x, 0 <= x < 2 ^ L ->
       exists e', PermuteInPlace x tweak (ArbitraryN.p a) = (Ret (pi x), e'))
    /\ exists k, (1 <= k)%nat /\ Z.of_nat k <= 2 ^ L - N + 1
         /\ 0 <= orbit pi k v < N
         /\ (forall m, (1 <= m < k)%nat -> N <= orbit pi m v < 2 ^ L)
         /\ (forall fuel, (k <= fuel)%nat ->
               exists a', ArbitraryN.PermuteInPlace fuel v tweak a
                          = (Ret (orbit pi k v), a'))
         /\ (forall fuel, (fuel < k)%nat ->
               exists a', ArbitraryN.PermuteInPlace fuel v tweak a = (OutOfFuel, a')).
Proof.
  intros HN H0 Hr Hv L.
  assert (HL : L = width_of N) by exact (NewN_engine_lengthBits _ _ _ _ _ _ HN H0).
  rewrite HL. clear L HL.
  destruct (NewN_adapter _ _ _ _ _ _ _ HN H0 Hr) as (Ha & HNL & Hrun & Hrg & Hinj).
  set (pi := engine_perm (aes_NewCipher (hkdf_Key key)) shake128 key (width_of N)) in *.
  exists (pi tweak). split.
  - intros x Hx. destruct Ha as [_ Hi].
    destruct (Hrun _ x tweak Hi Hx) as (e' & E & _). eauto.
  - destruct (walk_exact (pi tweak) _ (Hrg tweak) (Hinj tweak) N HNL v Hv)
      as (k & Hk & Hb & Hy & Hmid & Hge & Hlt).
    exists k. repeat split; try assumption; try lia; try (apply Hmid; assumption).
    + intros fuel Hf.
      destruct (adapter_in_range _ _ _ Hrun Hrg N tweak fuel a v Ha Hv HNL) as (a' & E & _).
      rewrite (Hge fuel Hf) in E. eauto.
    + intros fuel Hf.
      destruct (adapter_in_range _ _ _ Hrun Hrg N tweak fuel a v Ha Hv HNL) as (a' & E & _).
      rewrite (Hlt fuel Hf) in E. eauto.
Qed.

Lemma cycle_walk_exact_count_witness :
  exists a0, NewN test_hkdf test_cipher keccak.shake128 mykey 4 = Ret a0
    /\ exists pi k, (1 <= k)%nat /\ Z.of_nat k <= 2 ^ 2 - 4 + 1
         /\ forall fuel, (k <= fuel)%nat ->
              exists a', ArbitraryN.PermuteInPlace fuel 3 [] a0 = (Ret (orbit pi k 3), a').
Proof.
  eexists. split; [reflexivity|].
  destruct (cycle_walk_exact_count test_hkdf test_cipher keccak.shake128 mykey 4 _ _ 3 []
              ltac:(lia) eq_refl (reachableN_init _) ltac:(lia))
    as (pi & _ & k & Hk & Hb & _ & _ & Hge & _).
  exists pi, k. split; [exact Hk|]. split; [exact Hb | exact Hge].
Defined.

(** X3.  The adapter built by [NewN] for [N >= 1] is onto [[0, N)]: every
    value of the range is what [PermuteInPlace] returns for some input of
    the range (with [2^lengthBits] iterations allowed), in any state of the
    object and for every tweak.  With the range and injectivity properties,
    the adapter computes a permutation of [[0, N)]. *)
Theorem range_permute_onto
        (hkdf_Key : list byte -> list byte)
        (aes_NewCipher : list byte -> list byte -> list byte)
        (shake128 : list byte -> nat -> byte)
        (key : list byte) (N : Z) (a0 a : ArbitraryN.t engine)
        (tweak : list byte) (y : Z) :
  1 <= N -> NewN hkdf_Key aes_NewCipher shake128 key N = Ret a0 ->
  reachableN a0 a -> 0 <= y < N ->
  exists v a', 0 <= v < N
    /\ ArbitraryN.PermuteInPlace
         (Z.to_nat (2 ^ engine_lengthBits (ArbitraryN.p a0))) v tweak a = (Ret y, a').
Proof.
  intros HN H0 Hr Hy.
  rewrite (NewN_engine_lengthBits _ _ _ _ _ _ HN H0).
  destruct (NewN_adapter _ _ _ _ _ _ _ HN H0 Hr) as (Ha & HNL & Hrun & Hrg & Hinj).
  set (pi := engine_perm (aes_NewCipher (hkdf_Key key)) shake128 key (width_of N)) in *.
  destruct (walk_onto (pi tweak) _ (Hrg tweak) (Hinj tweak) N HNL y Hy) as (v & Hv & W).
  destruct (adapter_in_range _ _ _ Hrun Hrg N tweak (Z.to_nat (2 ^ width_of N)) a v
              Ha Hv HNL) as (a' & E & _).
  rewrite W in E. exists v, a'. split; [exact Hv | exact E].
Qed.

Lemma range_permute_onto_witness :
  exists a0, NewN test_hkdf test_cipher keccak.shake128 mykey 5 = Ret a0
    /\ exists v a', 0 <= v < 5
         /\ ArbitraryN.PermuteInPlace
              (Z.to_nat (2 ^ engine_lengthBits (ArbitraryN.p a0))) v [] a0 = (Ret 3, a').
Proof.
  eexists. split; [reflexivity|].
  apply (range_permute_onto test_hkdf test_cipher keccak.shake128 mykey 5 _ _ [] 3
           ltac:(lia) eq_refl (reachableN_init _)).
  lia.
Defined.

(** ** The state an FFX object is left in *)

(** The rounds do not touch the scratch integer [in]. *)
Lemma FFX_RoundFunc_in i B tw s r s' :
  FFX.RoundFunc i B tw s = (r, s') -> FFX.in_ s' = FFX.in_ s.
Proof.
  unfold FFX.RoundFunc. rewrite run_get. intros ER.
  destruct (length (FFX.q s) <? 8)%nat.
  - injection ER as _ <-. reflexivity.
  - rewrite !run_modify, run_get in ER. unfold bind at 1 in ER.
    unfold lift at 1 in ER.
    destruct (FFX.cbc_mac_loop _ _ _ _ _ _) as [[[inB outB] it] | e |].
    + rewrite run_modify, run_get in ER. injection ER as _ <-. reflexivity.
    + injection ER as _ <-. reflexivity.
    + injection ER as _ <-. reflexivity.
Qed.

Lemma FFX_rounds_loop_in n : forall i a b s r s',
  FFX.rounds_loop n i a b s = (r, s') -> FFX.in_ s' = FFX.in_ s.
Proof.
  induction n as [|n IH]; intros i a b s r s' E.
  - injection E as _ <-. reflexivity.
  - cbn [FFX.rounds_loop] in E. unfold bind at 1 in E.
    destruct (FFX.RoundFunc i b [] s) as [[f | e |] s1] eqn:ER.
    + apply IH in E. rewrite E. exact (FFX_RoundFunc_in _ _ _ _ _ _ ER).
    + injection E as _ <-. exact (FFX_RoundFunc_in _ _ _ _ _ _ ER).
    + injection E as _ <-. exact (FFX_RoundFunc_in _ _ _ _ _ _ ER).
Qed.

(** One call of [FFX.PermuteInPlace] in full: the value, and the fields of
    the object afterwards. *)
Lemma FFX_PermuteInPlace_state c L hdr s v tweak :
  FFX_inv c L hdr s ->
  exists s', FFX.PermuteInPlace v tweak s = (Ret (FFX_perm c L hdr tweak v), s')
             /\ FFX_inv c L hdr s'
             /\ FFX.masked s' = 0
             /\ FFX.tweakLen s' = len tweak
             /\ FFX.p s' = FFX_header hdr (len tweak)
             /\ FFX.encryptedP s' = FFX.Encrypt c (FFX.p s')
             /\ q_shape s' (FFX_q_prefix tweak)
             /\ FFX.in_ s' = FFX.in_ s.
Proof.
  intros Hinv. pose proof Hinv as (B1 & B2 & B3 & B4 & B5 & B6).
  unfold FFX.PermuteInPlace. unfold bind at 1, get at 1.
  rewrite (bind_Ret _ _ _ _ _ (FFX_split_halves_run v s)).
  set (s1 := FFX.set_masked s _).
  assert (Hinv1 : FFX_inv c L hdr s1) by (eapply FFX_inv_frame; [|exact Hinv]; repeat split).
  destruct (calculateEncryptedP_run c L hdr (FFX.lengthBits s / 2) (len tweak) s1 Hinv1
              ltac:(unfold len; lia)) as (s2 & E2 & Hinv2 & Henc2 & Htl2 & _).
  assert (Hin2 : FFX.in_ s2 = FFX.in_ s).
  { unfold FFX.calculateEncryptedP in E2. rewrite run_get in E2.
    destruct (len tweak =? FFX.tweakLen s1).
    - injection E2 as <-. reflexivity.
    - rewrite !run_modify in E2. injection E2 as <-. reflexivity. }
  rewrite (bind_Ret _ _ _ _ _ E2).
  rewrite (bind_Ret _ _ _ _ _ (build_q_run tweak s2)).
  set (s3 := FFX.set_q s2 _).
  assert (Hinv3 : FFX_inv c L hdr s3) by (eapply FFX_inv_frame; [|exact Hinv2]; repeat split).
  unfold bind at 1, gets at 1.
  destruct (rounds_loop_run (FFX_q_prefix tweak) (Z.to_nat (FFX.rounds s3)) s3 0
              (big.Uint64 (Z.shiftr v (FFX.lengthBits s - FFX.lengthBits s / 2)))
              (big.Uint64 (Z.land v (FFX.mask s))) (q_shape_build tweak s2))
    as (s4 & E4 & Hf4 & Hq4).
  assert (Hinv4 : FFX_inv c L hdr s4) by (eapply FFX_inv_frame; eauto).
  assert (Hin4 : FFX.in_ s4 = FFX.in_ s3) by exact (FFX_rounds_loop_in _ _ _ _ _ _ _ E4).
  destruct Hinv3 as (C1 & C2 & C3 & C4 & _).
  pose proof Hinv4 as (D1 & D2 & D3 & D4 & D5 & D6).
  assert (Henc3 : FFX.encryptedP s3 = FFX.Encrypt c (FFX_header hdr (len tweak)))
    by exact Henc2.
  rewrite C1, C2, C4, Henc3, B1, B3 in E4.
  rewrite B1, B3, C2.
  rewrite (bind_Ret _ _ _ _ _ E4).
  unfold FFX_perm.
  destruct (feistel _ _ _ _ _) as [a' b'].
  rewrite FFX_join_halves_run. rewrite D1.
  destruct Hf4 as (F1 & F2 & F3 & F4 & F5 & F6 & F7).
  assert (Htl4 : FFX.tweakLen s4 = len tweak) by (rewrite F3; exact Htl2).
  assert (Hp4 : FFX.p s4 = FFX_header hdr (len tweak)).
  { destruct D6 as [[Hm _] | [Hp _]].
    - rewrite Htl4 in Hm. unfold len in Hm. lia.
    - rewrite Hp, Htl4. reflexivity. }
  assert (Henc4 : FFX.encryptedP s4 = FFX.Encrypt c (FFX.p s4)).
  { rewrite Hp4, F6. exact Henc3. }
  eexists. split; [reflexivity|].
  split; [unfold FFX_inv; cbn; auto 10|].
  split; [reflexivity|]. split; [exact Htl4|]. split; [exact Hp4|].
  split; [exact Henc4|]. split; [exact Hq4|].
  cbn. rewrite Hin4. exact Hin2.
Qed.

(** ** The convenience method [PermuteInt] of the fixed-domain engines *)

Lemma FFX_PermuteInt_run c L hdr s i :
  FFX_inv c L hdr s -> 8 <= L <= 63 -> 0 <= i < 2 ^ L ->
  exists s', FFX.PermuteInt i s = (Ret (FFX_perm c L hdr [] i), s')
             /\ FFX_inv c L hdr s' /\ FFX.in_ s' = 0 /\ FFX.masked s' = 0.
Proof.
  intros Hinv HL Hi.
  assert (Hp : 2 ^ L <= 2 ^ 63) by (apply Z.pow_le_mono_r; lia).
  unfold FFX.PermuteInt. rewrite run_modify, run_gets.
  unfold big.SetInt64. rewrite int64_small by lia.
  cbn [FFX.in_ FFX.set_in].
  assert (Hinv1 : FFX_inv c L hdr (FFX.set_in s i))
    by (eapply FFX_inv_frame; [|exact Hinv]; repeat split).
  destruct (FFX_PermuteInPlace_state c L hdr _ i [] Hinv1)
    as (s1 & E & Hinv2 & Hm & _).
  rewrite (bind_Ret _ _ _ _ _ E). rewrite !run_modify.
  pose proof (FFX_perm_range c L hdr [] i ltac:(lia) Hi) as Hr.
  rewrite Int64_small, int64_small by lia.
  eexists. split; [reflexivity|].
  split; [eapply FFX_inv_frame; [|exact Hinv2]; repeat split|].
  split; [reflexivity | exact Hm].
Qed.

Lemma SHAKE_PermuteInt_run xof key L s i :
  SHAKE_inv xof key L s -> L <= 63 -> 0 <= i < 2 ^ L ->
  exists s', FeistelSHAKE128.PermuteInt i s = (Ret (SHAKE_perm xof key L [] i), s')
             /\ SHAKE_inv xof key L s'
             /\ FeistelSHAKE128.in_ s' = SHAKE_perm xof key L [] i.
Proof.
  intros Hinv HL Hi. pose proof Hinv as (_ & _ & _ & _ & H2).
  assert (Hp : 2 ^ L <= 2 ^ 63) by (apply Z.pow_le_mono_r; lia).
  unfold FeistelSHAKE128.PermuteInt. rewrite run_modify, run_gets.
  unfold big.SetInt64. rewrite int64_small by lia.
  rewrite load_store_same.
  destruct (SHAKE_PermuteInPlace_run xof key L _ i []
              (SHAKE_inv_store xof key L FeistelSHAKE128.in_ref i s Hinv) Hi)
    as (s1 & E & Hinv1).
  rewrite (bind_Ret _ _ _ _ _ E). rewrite run_modify.
  pose proof (SHAKE_perm_range xof key L [] i H2 Hi) as Hr.
  rewrite Int64_small, int64_small by lia.
  eexists. split; [reflexivity|].
  split; [apply SHAKE_inv_store; exact Hinv1|].
  exact (load_store_same FeistelSHAKE128.in_ref _ s1).
Qed.

(** X4.  For a width of at most 63 bits, so that every value of the domain
    is a Go [int], [PermuteInt] of each fixed-domain engine returns what
    [PermuteInPlace] with a nil tweak returns, and so computes a bijection
    of [[0, 2^lengthBits)], in whatever state earlier calls left the
    object.  [FFX.PermuteInt] leaves the scratch integers [in] and [masked]
    zero; [PermuteInt] of the SHAKE engine (both revisions) leaves the
    result in [in]. *)
Theorem fixed_domain_PermuteInt_bijection
        (hkdf_Key : list byte -> list byte)
        (aes_NewCipher : list byte -> list byte -> list byte)
        (shake128 : list byte -> nat -> byte)
        (key : list byte) (L : Z) :
  L <= 63 ->
  (forall e0, FFX.NewFFX hkdf_Key aes_NewCipher key L = Ret e0 ->
     exists pi, bijective_on (2 ^ L) pi
       /\ forall e i, reachable e0 e -> 0 <= i < 2 ^ L ->
            exists e1 e2, FFX.PermuteInt i e = (Ret (pi i), e1)
                          /\ FFX.PermuteInPlace i [] e = (Ret (pi i), e2)
                          /\ FFX.in_ e1 = 0 /\ FFX.masked e1 = 0)
  /\ (forall e0, FeistelSHAKE128.NewPowerOf2 shake128 key L = Ret e0 ->
        exists pi, bijective_on (2 ^ L) pi
          /\ forall e i, reachable e0 e -> 0 <= i < 2 ^ L ->
               exists e1 e2, FeistelSHAKE128.PermuteInt i e = (Ret (pi i), e1)
                             /\ FeistelSHAKE128.PermuteInPlace i [] e = (Ret (pi i), e2)
                             /\ FeistelSHAKE128.in_ e1 = pi i)
  /\ (forall e0, PowerOf2.NewPowerOf2 shake128 key L = Ret e0 ->
        exists pi, bijective_on (2 ^ L) pi
          /\ forall e i, PowerOf2_reachable e0 e -> 0 <= i < 2 ^ L ->
               exists e1 e2, PowerOf2.PermuteInt i e = (Ret (pi i), e1)
                             /\ PowerOf2.PermuteInPlace i e = (Ret (pi i), e2)
                             /\ FeistelSHAKE128.in_ e1 = pi i).
Proof.
  intros H63. split; [|split]; intros e0 H0.
  - destruct (NewFFX_inv _ _ _ _ _ H0) as [HL _].
    exists (FFX_perm (aes_NewCipher (hkdf_Key key)) L (FFX_hdr L) []). split.
    + split; [|split].
      * intros v Hv. apply FFX_perm_range; assumption.
      * intros v1 v2 H1 H2. apply FFX_perm_inj; assumption.
      * intros y Hy. apply FFX_perm_surj; assumption.
    + intros e i Hr Hi.
      destruct (FFX_reachable_inv _ _ _ _ _ _ H0 Hr) as [_ Hinv].
      destruct (FFX_PermuteInt_run _ _ _ e i Hinv ltac:(lia) Hi) as (e1 & E1 & _ & Hin & Hm).
      destruct (FFX_PermuteInPlace_run _ _ _ e i [] Hinv) as (e2 & E2 & _).
      exists e1, e2. auto.
  - pose proof (NewPowerOf2_inv _ _ _ _ H0) as (_ & _ & _ & _ & HL).
    exists (SHAKE_perm shake128 key L []).
    split; [apply SHAKE_perm_bijective; exact HL|].
    intros e i Hr Hi.
    pose proof (SHAKE_reachable_inv _ _ _ _ _ H0 Hr) as Hinv.
    destruct (SHAKE_PermuteInt_run _ _ _ e i Hinv H63 Hi) as (e1 & E1 & _ & Hin).
    destruct (SHAKE_PermuteInPlace_run _ _ _ e i [] Hinv Hi) as (e2 & E2 & _).
    exists e1, e2. auto.
  - rewrite PowerOf2_NewPowerOf2_eq in H0.
    pose proof (NewPowerOf2_inv _ _ _ _ H0) as (_ & _ & _ & _ & HL).
    exists (SHAKE_perm shake128 key L []).
    split; [apply SHAKE_perm_bijective; exact HL|].
    intros e i Hr Hi. apply PowerOf2_reachable_current in Hr.
    pose proof (SHAKE_reachable_inv _ _ _ _ _ H0 Hr) as Hinv.
    rewrite PowerOf2_PermuteInt_eq, PowerOf2_PermuteInPlace_eq.
    destruct (SHAKE_PermuteInt_run _ _ _ e i Hinv H63 Hi) as (e1 & E1 & _ & Hin).
    destruct (SHAKE_PermuteInPlace_run _ _ _ e i [] Hinv Hi) as (e2 & E2 & _).
    exists e1, e2. auto.
Qed.

Lemma fixed_domain_PermuteInt_bijection_witness :
  16 <= 63
  /\ exists e0, FFX.NewFFX test_hkdf test_cipher mykey 16 = Ret e0
       /\ exists pi, bijective_on (2 ^ 16) pi
            /\ forall e i, reachable e0 e -> 0 <= i < 2 ^ 16 ->
                 exists e1 e2, FFX.PermuteInt i e = (Ret (pi i), e1)
                               /\ FFX.PermuteInPlace i [] e = (Ret (pi i), e2)
                               /\ FFX.in_ e1 = 0 /\ FFX.masked e1 = 0.
Proof.
  split; [lia|]. eexists. split; [reflexivity|].
  apply (proj1 (fixed_domain_PermuteInt_bijection test_hkdf test_cipher keccak.shake128
                  mykey 16 ltac:(lia))).
  reflexivity.
Defined.

(** ** What FFX feeds to the cipher *)

Lemma le_split_inj n x y :
  0 <= x < 2 ^ (8 * Z.of_nat n) -> 0 <= y < 2 ^ (8 * Z.of_nat n) ->
  le_split n x = le_split n y -> x = y.
Proof.
  intros Hx Hy E. apply (f_equal le_combine) in E.
  rewrite !le_combine_split in E.
  replace (Z.of_nat n * 8) with (8 * Z.of_nat n) in E by lia.
  rewrite !Z.mod_small in E by lia. exact E.
Qed.

Lemma BigEndian_PutUint64_inj x y :
  0 <= x < 2 ^ 64 -> 0 <= y < 2 ^ 64 ->
  binary.BigEndian_PutUint64 x = binary.BigEndian_PutUint64 y -> x = y.
Proof.
  unfold binary.BigEndian_PutUint64. intros Hx Hy E.
  apply (f_equal (@rev byte)) in E. rewrite !rev_involutive in E.
  apply (le_split_inj 8); assumption.
Qed.

Lemma uint64_small z : 0 <= z < 2 ^ 64 -> uint64 z = z.
Proof. intros H. unfold uint64. apply Z.mod_small. exact H. Qed.

(** The header and the buffer together determine the tweak; the buffer
    alone does not. *)
Lemma FFX_header_q_inj hdr t1 t2 :
  len t1 < 2 ^ 64 -> len t2 < 2 ^ 64 ->
  FFX_header hdr (len t1) = FFX_header hdr (len t2) ->
  FFX_q_prefix t1 = FFX_q_prefix t2 -> t1 = t2.
Proof.
  intros H1 H2 Eh Eq. unfold FFX_header in Eh. apply app_inv_head in Eh.
  rewrite !uint64_small in Eh by (unfold len in *; lia).
  apply BigEndian_PutUint64_inj in Eh; try (unfold len in *; lia).
  unfold FFX_q_prefix in Eq. rewrite Eh in Eq.
  apply (f_equal (firstn (length t1))) in Eq.
  rewrite firstn_length_app in Eq by reflexivity.
  rewrite firstn_length_app in Eq by (unfold len in Eh; lia).
  exact Eq.
Qed.

(** X5.  After a call of [FFX.PermuteInPlace] with a tweak, on an object
    built by [NewFFX] in any state, the cache of the object belongs to that
    tweak: [tweakLen] is its length, the header block [p] is the eight
    bytes written by [NewFFX] followed by the length (big endian),
    [encryptedP] is the encryption of [p], and the buffer [q] is the
    tweak, its zero padding, the byte 1 and eight bytes for the last half;
    the width, the round count and the mask are those of the constructor
    and [masked] is zero again. *)
Theorem FFX_state_after_call
        (hkdf_Key : list byte -> list byte)
        (aes_NewCipher : list byte -> list byte -> list byte)
        (key : list byte) (L : Z) (e0 e : FFX.t) (v : Z) (tweak : list byte) :
  FFX.NewFFX hkdf_Key aes_NewCipher key L = Ret e0 -> reachable e0 e ->
  exists y e', FFX.PermuteInPlace v tweak e = (Ret y, e')
    /\ FFX.lengthBits e' = L /\ FFX.rounds e' = FFX.rounds e0
    /\ FFX.mask e' = FFX.mask e0
    /\ FFX.tweakLen e' = len tweak
    /\ FFX.p e' = firstn 8 (FFX.p e0) ++ binary.BigEndian_PutUint64 (uint64 (len tweak))
    /\ FFX.encryptedP e' = FFX.Encrypt (FFX.aes e') (FFX.p e')
    /\ (exists B8, length B8 = 8%nat
          /\ FFX.q e' = tweak ++ repeat Byte.x00 (Z.to_nat ((7 - len tweak) mod 16))
                        ++ [to_byte 1] ++ B8)
    /\ FFX.masked e' = 0.
Proof.
  intros H0 Hr.
  destruct (FFX_reachable_inv _ _ _ _ _ _ H0 Hr) as [HL Hinv].
  destruct (NewFFX_inv _ _ _ _ _ H0) as [_ (I1 & I2 & I3 & I4 & I5 & I6)].
  destruct (FFX_PermuteInPlace_state _ _ _ e v tweak Hinv)
    as (e' & E & (J1 & J2 & J3 & J4 & _) & Hm & Htl & Hp & Henc & (tl & m & Hq & Htl8 & _) & _).
  eexists. exists e'. split; [exact E|].
  split; [exact J1|]. split; [congruence|]. split; [congruence|].
  split; [exact Htl|]. split.
  { rewrite Hp. unfold FFX_header. f_equal.
    destruct I6 as [[_ Hp0] | [Hp0 _]]; rewrite Hp0.
    - rewrite firstn_length_app by exact I5. reflexivity.
    - unfold FFX_header. rewrite firstn_length_app by exact I5. reflexivity. }
  split; [rewrite J4; exact Henc|]. split; [|exact Hm].
  exists tl. split; [exact Htl8|]. rewrite Hq. unfold FFX_q_prefix.
  rewrite <- !app_assoc. reflexivity.
Qed.

Lemma FFX_state_after_call_witness :
  exists e0, FFX.NewFFX test_hkdf test_cipher mykey 8 = Ret e0
    /\ exists y e', FFX.PermuteInPlace 7 mykey e0 = (Ret y, e')
         /\ FFX.tweakLen e' = 5
         /\ FFX.encryptedP e' = FFX.Encrypt (FFX.aes e') (FFX.p e').
Proof.
  eexists. split; [reflexivity|].
  destruct (FFX_state_after_call test_hkdf test_cipher mykey 8 _ _ 7 mykey eq_refl
              (reachable_init _))
    as (y & e' & E & _ & _ & _ & Htl & _ & Henc & _).
  exists y, e'. split; [exact E|]. split; [exact Htl | exact Henc].
Defined.

(** X6.  What FFX feeds to the cipher determines the tweak: two calls with
    different tweaks (shorter than 2^64 bytes) leave different header
    blocks [p] or different buffers [q] (compared without the last eight
    bytes, which hold a half).  The length in the header is needed: the
    tweaks [[]] and [[0]] give the same buffer. *)
Theorem FFX_tweaks_kept_apart
        (hkdf_Key : list byte -> list byte)
        (aes_NewCipher : list byte -> list byte -> list byte)
        (key : list byte) (L : Z) (e0 e1 e2 : FFX.t) (v1 v2 : Z)
        (t1 t2 : list byte) :
  FFX.NewFFX hkdf_Key aes_NewCipher key L = Ret e0 ->
  reachable e0 e1 -> reachable e0 e2 ->
  len t1 < 2 ^ 64 -> len t2 < 2 ^ 64 -> t1 <> t2 ->
  let e1' := snd (FFX.PermuteInPlace v1 t1 e1) in
  let e2' := snd (FFX.PermuteInPlace v2 t2 e2) in
  FFX.p e1' <> FFX.p e2'
  \/ firstn (length (FFX.q e1') - 8) (FFX.q e1')
     <> firstn (length (FFX.q e2') - 8) (FFX.q e2').
Proof.
  intros H0 Hr1 Hr2 Hl1 Hl2 Hne e1' e2'.
  destruct (FFX_reachable_inv _ _ _ _ _ _ H0 Hr1) as [HL Hinv1].
  destruct (FFX_reachable_inv _ _ _ _ _ _ H0 Hr2) as [_ Hinv2].
  destruct (FFX_PermuteInPlace_state _ _ _ e1 v1 t1 Hinv1)
    as (s1 & E1 & _ & _ & _ & Hp1 & _ & (tl1 & m1 & Hq1 & Ht1 & _) & _).
  destruct (FFX_PermuteInPlace_state _ _ _ e2 v2 t2 Hinv2)
    as (s2 & E2 & _ & _ & _ & Hp2 & _ & (tl2 & m2 & Hq2 & Ht2 & _) & _).
  subst e1' e2'. rewrite E1, E2. cbn [snd].
  destruct (list_eq_dec Byte.byte_eq_dec (FFX.p s1) (FFX.p s2)) as [Ep | Np];
    [|left; exact Np].
  right. intros Eq. apply Hne.
  rewrite Hq1, Hq2 in Eq. rewrite !length_app, Ht1, Ht2 in Eq.
  rewrite !firstn_length_app in Eq by lia.
  rewrite Hp1, Hp2 in Ep.
  exact (FFX_header_q_inj _ t1 t2 Hl1 Hl2 Ep Eq).
Qed.

Lemma FFX_tweaks_kept_apart_witness :
  exists e0, FFX.NewFFX test_hkdf test_cipher mykey 8 = Ret e0
    /\ (FFX.p (snd (FFX.PermuteInPlace 7 [] e0))
        <> FFX.p (snd (FFX.PermuteInPlace 7 [Byte.x00] e0))
        \/ firstn (length (FFX.q (snd (FFX.PermuteInPlace 7 [] e0))) - 8)
                  (FFX.q (snd (FFX.PermuteInPlace 7 [] e0)))
           <> firstn (length (FFX.q (snd (FFX.PermuteInPlace 7 [Byte.x00] e0))) - 8)
                     (FFX.q (snd (FFX.PermuteInPlace 7 [Byte.x00] e0)))).
Proof.
  eexists. split; [reflexivity|].
  apply (FFX_tweaks_kept_apart test_hkdf test_cipher mykey 8 _ _ _ 7 7 [] [Byte.x00] eq_refl
           (reachable_init _) (reachable_init _)).
  - cbv. reflexivity.
  - cbv. reflexivity.
  - discriminate.
Defined.

(** The buffer alone does not tell a tweak from the same tweak followed by
    zero bytes of its padding. *)
Example FFX_q_prefix_padding : FFX_q_prefix [] = FFX_q_prefix [Byte.x00].
Proof. reflexivity. Qed.

(** X7.  [FFX.RoundFunc] is exported, and it reads the buffer [q] that
    [PermuteInPlace] builds: called on an object fresh from [NewFFX] it
    panics, slicing the empty buffer at [len(p.q)-8], and leaves the
    object as it was; called after a [PermuteInPlace] it returns a value of
    at most [lengthBits/2] bits in an even round and at most
    [lengthBits - lengthBits/2] bits in an odd one, whatever its
    arguments. *)
Theorem FFX_RoundFunc_needs_buffer
        (hkdf_Key : list byte -> list byte)
        (aes_NewCipher : list byte -> list byte -> list byte)
        (key : list byte) (L : Z) (e0 : FFX.t) :
  FFX.NewFFX hkdf_Key aes_NewCipher key L = Ret e0 ->
  (forall i B tw, FFX.RoundFunc i B tw e0 = (Panic SliceOutOfBounds, e0))
  /\ (forall e v tweak i B tw, reachable e0 e ->
        exists y e2,
          FFX.RoundFunc i B tw (snd (FFX.PermuteInPlace v tweak e)) = (Ret y, e2)
          /\ 0 <= y < 2 ^ (if Z.even i then L / 2 else L - L / 2)).
Proof.
  intros H0. split.
  - intros i B tw. unfold FFX.NewFFX in H0.
    destruct ((L <? 8) || (L >? 128)); [discriminate|]. injection H0 as <-.
    reflexivity.
  - intros e v tweak i B tw Hr.
    destruct (FFX_reachable_inv _ _ _ _ _ _ H0 Hr) as [HL Hinv].
    destruct (FFX_PermuteInPlace_state _ _ _ e v tweak Hinv)
      as (s1 & E1 & (J1 & _) & _ & _ & _ & _ & Hq & _).
    rewrite E1. cbn [snd].
    destruct (RoundFunc_run s1 _ i B tw Hq) as (s2 & E2 & _).
    eexists. exists s2. split; [exact E2|]. rewrite J1.
    apply FFX_round_value_range; Z.div_mod_to_equations; lia.
Qed.

Lemma FFX_RoundFunc_needs_buffer_witness :
  exists e0, FFX.NewFFX test_hkdf test_cipher mykey 9 = Ret e0
    /\ FFX.RoundFunc 0 5 [] e0 = (Panic SliceOutOfBounds, e0)
    /\ exists y e2,
         FFX.RoundFunc 1 5 [] (snd (FFX.PermuteInPlace 3 [] e0)) = (Ret y, e2)
         /\ 0 <= y < 2 ^ 5.
Proof.
  eexists. split; [reflexivity|].
  destruct (FFX_RoundFunc_needs_buffer test_hkdf test_cipher mykey 9 _ eq_refl) as [Hp Hr].
  split; [apply Hp|].
  exact (Hr _ 3 [] 1 5 [] (reachable_init _)).
Defined.

(** ** The round function of the SHAKE engine on any half *)

Lemma FillBytes_cases x n :
  (Z.abs x < 2 ^ (8 * Z.of_nat n)
   /\ big.FillBytes x n = Ret (rev (le_split n (Z.abs x))))
  \/ (2 ^ (8 * Z.of_nat n) <= Z.abs x /\ big.FillBytes x n = Panic BufferTooSmall).
Proof.
  unfold big.FillBytes. destruct (Z.abs x <? 2 ^ (8 * Z.of_nat n)) eqn:E.
  - left. split; [lia | reflexivity].
  - right. split; [lia | reflexivity].
Qed.

(** One call of [RoundFunc] on a half of any size: it panics in
    [FillBytes] when the half does not fit [inLenBytes] bytes, and
    otherwise absorbs the prefix and the half and stores the masked
    output in [out]. *)
Lemma SHAKE_RoundFunc_any xof key L s round b tweak :
  SHAKE_inv xof key L s ->
  b <> FeistelSHAKE128.f_ref ->
  let inLenBits := if Z.land round 1 =? 0 then L / 2 else L - L / 2 in
  let outLenBits := if Z.land round 1 =? 0 then L - L / 2 else L / 2 in
  let nin := Z.to_nat ((inLenBits + 7) / 8) in
  let nout := Z.to_nat ((outLenBits + 7) / 8) in
  let pre := SHAKE_prefix key outLenBits round tweak in
  let bval := FeistelSHAKE128.load b s in
  (Z.abs bval < 2 ^ (8 * Z.of_nat nin) ->
   let scratch := rev (le_split nin (Z.abs bval)) in
   exists s', FeistelSHAKE128.RoundFunc round b FeistelSHAKE128.f_ref tweak s
              = (Ret FeistelSHAKE128.f_ref, s')
     /\ FeistelSHAKE128.load FeistelSHAKE128.f_ref s'
        = big.SetBytes (mask_top outLenBits (map (xof (pre ++ scratch)) (seq 0 nout)))
     /\ sha3.absorbed (FeistelSHAKE128.h s') = pre ++ scratch
     /\ SHAKE_frame FeistelSHAKE128.f_ref s s'
     /\ SHAKE_inv xof key L s')
  /\ (2 ^ (8 * Z.of_nat nin) <= Z.abs bval ->
      exists s', FeistelSHAKE128.RoundFunc round b FeistelSHAKE128.f_ref tweak s
                 = (Panic BufferTooSmall, s')
        /\ SHAKE_frame FeistelSHAKE128.f_ref s s'
        /\ SHAKE_inv xof key L s').
Proof.
  intros (I1 & I2 & I3 & I4 & I5) Hb inLenBits outLenBits nin nout pre bval.
  assert (H1 : 1 <= L / 2 <= L) by (Z.div_mod_to_equations; lia).
  assert (H2 : 1 <= L - L / 2 <= L) by (Z.div_mod_to_equations; lia).
  assert (Hin : 1 <= inLenBits <= L) by (subst inLenBits; destruct (_ =? _); lia).
  assert (Hout : 1 <= outLenBits <= L) by (subst outLenBits; destruct (_ =? _); lia).
  assert (Hinb : 1 <= (inLenBits + 7) / 8 <= (L + 7) / 8)
    by (Z.div_mod_to_equations; lia).
  assert (Houtb : 1 <= (outLenBits + 7) / 8 <= (L + 7) / 8)
    by (Z.div_mod_to_equations; lia).
  set (scr := rev (le_split nin (Z.abs bval))).
  assert (Hlscr : length scr = nin)
    by (subst scr; rewrite length_rev, length_le_split; reflexivity).
  unfold FeistelSHAKE128.RoundFunc.
  rewrite run_get. rewrite I1.
  replace (if Z.land round 1 =? 0 then (L / 2, L - L / 2) else (L - L / 2, L / 2))
    with (inLenBits, outLenBits)
    by (subst inLenBits outLenBits; destruct (_ =? _); reflexivity).
  cbv iota beta.
  rewrite run_bind_assoc || idtac.
  rewrite run_if_modify.
  set (s1 := if len (FeistelSHAKE128.roundScratch s) <? (L + 7) / 8 then _ else s).
  assert (Hs1 : len (FeistelSHAKE128.roundScratch s1) >= (L + 7) / 8
                /\ FeistelSHAKE128.key s1 = key
                /\ (forall r, FeistelSHAKE128.load r s1 = FeistelSHAKE128.load r s)
                /\ sha3.xof (FeistelSHAKE128.h s1) = xof
                /\ FeistelSHAKE128.lengthBits s1 = L
                /\ FeistelSHAKE128.rounds s1 = RoundSchedule L).
  { subst s1. destruct (len (FeistelSHAKE128.roundScratch s) <? (L + 7) / 8) eqn:E.
    - cbn [FeistelSHAKE128.roundScratch FeistelSHAKE128.set_roundScratch
           FeistelSHAKE128.key FeistelSHAKE128.h FeistelSHAKE128.lengthBits
           FeistelSHAKE128.rounds].
      rewrite I1. unfold len. rewrite repeat_length.
      repeat split; auto; try lia.
    - repeat split; auto. lia. }
  destruct Hs1 as (Hrs1 & Hk1 & Hld1 & Hx1 & HL1 & Hr1).
  rewrite run_modify. unfold FeistelSHAKE128.h_Write.
  rewrite !run_modify.
  rewrite I2.
  clearbody s1. destruct s1 as [k1 lb1 rd1 vin va vb vc vf vmask rs hh].
  cbn in Hrs1, Hk1, Hx1, HL1, Hr1. subst k1 lb1 rd1.
  destruct hh as [xof' ab sq]. cbn in Hx1. subst xof'.
  shake_norm.
  rewrite app_nil_l.
  assert (Hstep : forall (B : Type) (k : unit -> M FeistelSHAKE128.t B) rs0 sq0,
    bind (if len tweak >? 0
          then modify (fun s0 => FeistelSHAKE128.set_h s0
                         (sha3.Write (FeistelSHAKE128.h s0)
                            (binary.LittleEndian_PutUint64 (uint64 (len tweak))))) ;;
               modify (fun s0 => FeistelSHAKE128.set_h s0
                         (sha3.Write (FeistelSHAKE128.h s0) tweak))
          else ret tt) k
      (FeistelSHAKE128.mk key L (RoundSchedule L) vin va vb vc vf vmask rs0
         (sha3.mkSHAKE xof
            (((binary.LittleEndian_PutUint64 (uint64 (len key)) ++ key)
                ++ binary.LittleEndian_PutUint64 (uint64 outLenBits))
               ++ binary.LittleEndian_PutUint64 (uint64 round)) sq0))
    = k tt (FeistelSHAKE128.mk key L (RoundSchedule L) vin va vb vc vf vmask rs0
              (sha3.mkSHAKE xof pre sq0))).
  { intros B k rs0 sq0. subst pre. unfold SHAKE_prefix.
    destruct (len tweak >? 0).
    - rewrite run_bind_assoc, !run_modify.
      shake_norm.
      rewrite <- (app_assoc _ (binary.LittleEndian_PutUint64 (uint64 (len tweak))) tweak).
      reflexivity.
    - rewrite run_ret, app_nil_r. reflexivity. }
  rewrite Hstep. clear Hstep.
  erewrite bind_Ret by (apply slice_to_run; cbn [FeistelSHAKE128.roundScratch]; lia).
  rewrite run_gets.
  assert (Hldb : FeistelSHAKE128.load b
                   (FeistelSHAKE128.mk key L (RoundSchedule L) vin va vb vc vf vmask rs
                      (sha3.mkSHAKE xof pre 0)) = bval).
  { subst bval. rewrite <- Hld1. destruct b; reflexivity. }
  rewrite Hldb. fold nin.
  assert (Hframe : forall vf' rs' hh',
    SHAKE_frame FeistelSHAKE128.f_ref s
      (FeistelSHAKE128.mk key L (RoundSchedule L) vin va vb vc vf' vmask rs' hh')).
  { intros vf' rs' hh' r Hr. rewrite <- Hld1. destruct r; try reflexivity. congruence. }
  split.
  - intros Hfit.
    assert (Hfill : big.FillBytes bval nin = Ret scr).
    { destruct (FillBytes_cases bval nin) as [[_ E] | [Hc _]]; [exact E | lia]. }
    rewrite Hfill. rewrite run_lift_Ret.
    unfold FeistelSHAKE128.write_scratch at 1. rewrite !run_modify.
    shake_norm.
    assert (Hlen2 : len (scr ++ skipn (length scr) rs) = len rs).
    { apply len_write_scratch. unfold len in *. rewrite Hlscr. subst nin. lia. }
    erewrite bind_Ret by (apply slice_to_run; cbn [FeistelSHAKE128.roundScratch]; lia).
    rewrite run_get. fold nout.
    cbn [FeistelSHAKE128.h sha3.Read sha3.xof sha3.absorbed sha3.squeezed Nat.add].
    rewrite run_modify.
    unfold FeistelSHAKE128.write_scratch at 1. rewrite run_modify.
    shake_norm.
    fold scr.
    set (ob := map (fun i : nat => xof (pre ++ scr) i) (seq 0 nout)).
    assert (Hob : map (xof (pre ++ scr)) (seq 0 nout) = ob) by reflexivity.
    rewrite ?Hob.
    assert (Hobl : length ob = nout)
      by (subst ob; rewrite length_map, length_seq; reflexivity).
    unfold mask_top.
    destruct (negb (outLenBits mod 8 =? 0)).
    + destruct ob as [|b0 rest]; [cbn in Hobl; lia|].
      rewrite run_bind_assoc. unfold FeistelSHAKE128.write_scratch.
      rewrite !run_modify, run_ret. shake_norm.
      eexists. split; [reflexivity|]. split; [reflexivity|]. split; [reflexivity|].
      split; [apply Hframe | repeat split; auto].
    + rewrite run_ret, run_modify.
      eexists. split; [reflexivity|]. split; [reflexivity|]. split; [reflexivity|].
      split; [apply Hframe | repeat split; auto].
  - intros Hbig.
    assert (Hfill : big.FillBytes bval nin = Panic BufferTooSmall).
    { destruct (FillBytes_cases bval nin) as [[Hc _] | [_ E]]; [lia | exact E]. }
    rewrite Hfill.
    eexists. split; [reflexivity|].
    split; [apply Hframe | repeat split; auto].
Qed.

Lemma lxor_keeps_high a f k :
  0 <= k -> 2 ^ k <= a -> 0 <= f < 2 ^ k -> 2 ^ k <= Z.lxor a f.
Proof.
  intros Hk Ha Hf.
  assert (Hp : 0 < 2 ^ k) by (apply Z.pow_pos_nonneg; lia).
  assert (Hnn : 0 <= Z.lxor a f) by (apply Z.lxor_nonneg; split; lia).
  destruct (Z_lt_le_dec (Z.lxor a f) (2 ^ k)) as [Hlt | Hge]; [exfalso | exact Hge].
  pose proof (lxor_range (Z.lxor a f) f k Hk ltac:(lia) Hf) as Hr.
  rewrite lxor_cancel_r in Hr. lia.
Qed.

Lemma SHAKE_high_width_ge L : 2 <= L -> L - L / 2 <= SHAKE_high_width L.
Proof. intros HL. unfold SHAKE_high_width. Z.div_mod_to_equations; lia. Qed.

Lemma SHAKE_RoundFunc_fits xof key L s round b tweak :
  SHAKE_inv xof key L s ->
  b <> FeistelSHAKE128.f_ref ->
  0 <= FeistelSHAKE128.load b s
    < 2 ^ (if Z.even round then L / 2 else SHAKE_high_width L) ->
  exists s', FeistelSHAKE128.RoundFunc round b FeistelSHAKE128.f_ref tweak s
             = (Ret FeistelSHAKE128.f_ref, s')
    /\ FeistelSHAKE128.load FeistelSHAKE128.f_ref s'
       = SHAKE_round_value xof key L tweak round (FeistelSHAKE128.load b s)
    /\ SHAKE_frame FeistelSHAKE128.f_ref s s'
    /\ SHAKE_inv xof key L s'.
Proof.
  intros Hinv Hb Hrange. pose proof Hinv as (_ & _ & _ & _ & HL).
  destruct (SHAKE_RoundFunc_any xof key L s round b tweak Hinv Hb) as [Hfit _].
  cbv zeta in Hfit. rewrite land_1_even in Hfit.
  assert (H1 : 1 <= L / 2 <= L) by (Z.div_mod_to_equations; lia).
  assert (H2 : 1 <= L - L / 2 <= L) by (Z.div_mod_to_equations; lia).
  rewrite Z.abs_eq in Hfit by lia.
  destruct Hfit as (s' & E & Hf & _ & Hfr & Hinv').
  { eapply Z.lt_le_trans; [apply Hrange|]. apply Z.pow_le_mono_r; [lia|].
    unfold SHAKE_high_width. destruct (Z.even round).
    - rewrite Z2Nat.id by (Z.div_mod_to_equations; lia). Z.div_mod_to_equations; lia.
    - rewrite Z2Nat.id by (Z.div_mod_to_equations; lia). lia. }
  exists s'. split; [exact E|]. split; [|split; assumption].
  rewrite Hf. unfold SHAKE_round_value. rewrite land_1_even. reflexivity.
Qed.

Lemma SHAKE_round_value_wide xof key L tweak round bval :
  2 <= L ->
  0 <= SHAKE_round_value xof key L tweak round bval
    < 2 ^ (if Z.even round then SHAKE_high_width L else L / 2).
Proof.
  intros HL. pose proof (SHAKE_round_value_range xof key L tweak round bval HL) as H.
  destruct (Z.even round); [|exact H].
  split; [lia|]. eapply Z.lt_le_trans; [apply H|].
  apply Z.pow_le_mono_r; [lia | apply SHAKE_high_width_ge; exact HL].
Qed.

(** The rounds on halves as wide as the byte buffers allow. *)
Lemma SHAKE_rounds_loop_wide xof key L tweak n : forall s i a b c,
  SHAKE_inv xof key L s -> rotating a b c ->
  halves_ok (SHAKE_high_width L) (L / 2) i
            (FeistelSHAKE128.load a s) (FeistelSHAKE128.load b s) ->
  exists s' a' b',
    FeistelSHAKE128.rounds_loop n i a b c FeistelSHAKE128.f_ref tweak s
    = (Ret (a', b'), s')
    /\ (FeistelSHAKE128.load a' s', FeistelSHAKE128.load b' s')
       = feistel (SHAKE_round_value xof key L tweak) n i
                 (FeistelSHAKE128.load a s) (FeistelSHAKE128.load b s)
    /\ SHAKE_inv xof key L s'.
Proof.
  induction n as [|n IH]; intros s i a b c Hinv Hrot Hok.
  - exists s, a, b. cbn. auto.
  - destruct Hrot as (Hab & Hbc & Hac & Haf & Hbf & Hcf).
    pose proof Hinv as (_ & _ & _ & _ & HL).
    cbn [FeistelSHAKE128.rounds_loop feistel].
    destruct (SHAKE_RoundFunc_fits xof key L s i b tweak Hinv Hbf)
      as (s1 & E1 & Hf1 & Hfr1 & Hinv1).
    { unfold halves_ok in Hok. destruct (Z.even i); lia. }
    rewrite (bind_Ret _ _ _ _ _ E1). rewrite run_modify.
    set (s2 := FeistelSHAKE128.store c _ s1).
    assert (Ha2 : FeistelSHAKE128.load b s2 = FeistelSHAKE128.load b s).
    { subst s2. rewrite load_store_other by exact Hbc. apply Hfr1. exact Hbf. }
    assert (Hb2 : FeistelSHAKE128.load c s2
                  = Z.lxor (FeistelSHAKE128.load a s)
                      (SHAKE_round_value xof key L tweak i (FeistelSHAKE128.load b s))).
    { subst s2. rewrite load_store_same. rewrite Hf1. f_equal. apply Hfr1. exact Haf. }
    destruct (IH s2 (i + 1) b c a) as (s3 & a' & b' & E3 & Hv3 & Hinv3).
    + subst s2. apply SHAKE_inv_store. exact Hinv1.
    + unfold rotating. repeat split; auto.
    + rewrite Ha2, Hb2.
      assert (H1 : 0 <= L / 2) by (Z.div_mod_to_equations; lia).
      assert (H2 : 0 <= SHAKE_high_width L)
        by (pose proof (SHAKE_high_width_ge L HL); Z.div_mod_to_equations; lia).
      exact (halves_ok_step (SHAKE_round_value xof key L tweak) _ _ H2 H1
               (fun i0 b0 => SHAKE_round_value_wide xof key L tweak i0 b0 HL)
               i _ _ Hok).
    + exists s3, a', b'. split; [exact E3|]. split; [|exact Hinv3].
      rewrite Hv3, Ha2, Hb2. reflexivity.
Qed.

(** A panic in a round ends the loop. *)
Lemma SHAKE_rounds_loop_panic n i a b c tweak s e s1 :
  FeistelSHAKE128.RoundFunc i b FeistelSHAKE128.f_ref tweak s = (Panic e, s1) ->
  FeistelSHAKE128.rounds_loop (S n) i a b c FeistelSHAKE128.f_ref tweak s = (Panic e, s1).
Proof.
  intros E. cbn [FeistelSHAKE128.rounds_loop]. unfold bind at 1. rewrite E. reflexivity.
Qed.

Lemma RoundSchedule_ge L : 12 <= RoundSchedule L.
Proof.
  destruct (RoundSchedule_cases L) as [-> | [-> | [-> | [-> | ->]]]]; lia.
Qed.

(** [FeistelSHAKE128.PermuteInPlace] on any non-negative integer. *)
Lemma SHAKE_PermuteInPlace_any xof key L s v tweak :
  SHAKE_inv xof key L s -> 0 <= v ->
  (v < 2 ^ (L / 2 + SHAKE_high_width L) ->
   exists s', FeistelSHAKE128.PermuteInPlace v tweak s
              = (Ret (SHAKE_perm xof key L tweak v), s')
              /\ SHAKE_inv xof key L s')
  /\ (2 ^ (L / 2 + SHAKE_high_width L) <= v ->
      exists s', FeistelSHAKE128.PermuteInPlace v tweak s = (Panic BufferTooSmall, s')
                 /\ SHAKE_inv xof key L s').
Proof.
  intros Hinv Hv. pose proof Hinv as (I1 & I2 & I3 & I4 & I5).
  assert (H1 : 1 <= L / 2) by (Z.div_mod_to_equations; lia).
  assert (H2 : 1 <= L - L / 2) by (Z.div_mod_to_equations; lia).
  pose proof (SHAKE_high_width_ge L I5) as HW.
  assert (Hp : 0 < 2 ^ (L / 2)) by (apply Z.pow_pos_nonneg; lia).
  unfold FeistelSHAKE128.PermuteInPlace, FeistelSHAKE128.split_halves.
  rewrite run_bind_assoc, run_get. rewrite I1.
  repeat (rewrite run_bind_assoc || rewrite run_modify). rewrite run_gets.
  set (s1 := FeistelSHAKE128.store FeistelSHAKE128.a_ref _ _).
  assert (Hinv1 : SHAKE_inv xof key L s1)
    by (subst s1; repeat apply SHAKE_inv_store; exact Hinv).
  assert (Hb1 : FeistelSHAKE128.load FeistelSHAKE128.b_ref s1 = v mod 2 ^ (L / 2)).
  { subst s1. destruct s; cbn. unfold big.SetInt64.
    rewrite Z.shiftl_1_l. apply land_mask_mod. lia. }
  assert (Ha1 : FeistelSHAKE128.load FeistelSHAKE128.a_ref s1 = v / 2 ^ (L / 2)).
  { subst s1. destruct s; cbn. apply Z.shiftr_div_pow2. lia. }
  assert (Hr1 : FeistelSHAKE128.rounds s1 = RoundSchedule L) by apply Hinv1.
  rewrite Hr1. clearbody s1.
  pose proof (Z.mod_pos_bound v (2 ^ (L / 2)) Hp) as Hbm.
  assert (Hrot : rotating FeistelSHAKE128.a_ref FeistelSHAKE128.b_ref FeistelSHAKE128.c_ref)
    by (unfold rotating; repeat split; discriminate).
  split.
  - intros Hlt.
    assert (Hok : halves_ok (SHAKE_high_width L) (L / 2) 0
                            (v / 2 ^ (L / 2)) (v mod 2 ^ (L / 2))).
    { apply split_ok; try lia.
      replace (SHAKE_high_width L + L / 2) with (L / 2 + SHAKE_high_width L) by lia.
      lia. }
    destruct (SHAKE_rounds_loop_wide xof key L tweak (Z.to_nat (RoundSchedule L)) s1 0
                FeistelSHAKE128.a_ref FeistelSHAKE128.b_ref FeistelSHAKE128.c_ref Hinv1 Hrot)
      as (s2 & a' & b' & E2 & Hv2 & Hinv2).
    { rewrite Ha1, Hb1. exact Hok. }
    rewrite (bind_Ret _ _ _ _ _ E2).
    unfold FeistelSHAKE128.join_halves. rewrite run_get, !run_gets.
    exists s2. split; [|exact Hinv2].
    unfold ret. f_equal. f_equal.
    rewrite Ha1, Hb1 in Hv2.
    unfold SHAKE_perm, feistel_perm.
    pose proof (feistel_range (SHAKE_round_value xof key L tweak) (SHAKE_high_width L) (L / 2)
                  ltac:(lia) ltac:(lia)
                  (fun i b => SHAKE_round_value_wide xof key L tweak i b I5)
                  (Z.to_nat (RoundSchedule L)) 0 _ _ Hok) as Hrg.
    rewrite <- Hv2 in *. cbn [fst snd] in Hrg.
    unfold halves_ok in Hrg. rewrite Z.add_0_l, RoundSchedule_even in Hrg.
    destruct Hinv2 as (-> & _).
    apply shiftl_lor_add; lia.
  - intros Hge.
    assert (Ha0 : 2 ^ SHAKE_high_width L <= v / 2 ^ (L / 2)).
    { apply Z.div_le_lower_bound; [lia|]. rewrite <- Z.pow_add_r by lia. exact Hge. }
    pose proof (RoundSchedule_ge L) as Hn.
    destruct (Z.to_nat (RoundSchedule L)) as [|[|n]] eqn:En; try lia.
    (* round 0 runs *)
    cbn [FeistelSHAKE128.rounds_loop].
    destruct (SHAKE_RoundFunc_fits xof key L s1 0 FeistelSHAKE128.b_ref tweak Hinv1
                ltac:(discriminate))
      as (s2 & E2 & Hf2 & Hfr2 & Hinv2).
    { rewrite Hb1. cbn. lia. }
    rewrite run_bind_assoc. rewrite (bind_Ret _ _ _ _ _ E2).
    rewrite run_bind_assoc, run_modify.
    set (s3 := FeistelSHAKE128.store FeistelSHAKE128.c_ref _ s2).
    assert (Hinv3 : SHAKE_inv xof key L s3) by (apply SHAKE_inv_store; exact Hinv2).
    assert (Hc3 : 2 ^ SHAKE_high_width L <= FeistelSHAKE128.load FeistelSHAKE128.c_ref s3).
    { subst s3. rewrite load_store_same. rewrite Hf2.
      rewrite (Hfr2 FeistelSHAKE128.a_ref ltac:(discriminate)), Ha1.
      apply lxor_keeps_high; [lia | exact Ha0 |].
      pose proof (SHAKE_round_value_wide xof key L tweak 0
                    (FeistelSHAKE128.load FeistelSHAKE128.b_ref s1) I5) as Hr.
      exact Hr. }
    (* round 1 panics *)
    destruct (SHAKE_RoundFunc_any xof key L s3 (0 + 1) FeistelSHAKE128.c_ref tweak Hinv3
                ltac:(discriminate)) as [_ Hpanic].
    cbv zeta in Hpanic. destruct Hpanic as (s4 & E4 & _ & Hinv4).
    { change (Z.land (0 + 1) 1 =? 0) with false. cbv iota.
      rewrite Z2Nat.id by (Z.div_mod_to_equations; lia).
      fold (SHAKE_high_width L). rewrite Z.abs_eq by lia. exact Hc3. }
    rewrite run_bind_assoc.
    unfold bind at 1. rewrite E4.
    exists s4. split; [reflexivity | exact Hinv4].
Qed.

(** ** What the SHAKE engine feeds to the hash *)

Lemma app_inj_length {A : Type} (l1 l2 r1 r2 : list A) :
  length l1 = length l2 -> l1 ++ r1 = l2 ++ r2 -> l1 = l2 /\ r1 = r2.
Proof.
  revert l2. induction l1 as [|x l1 IH]; intros [|y l2] Hlen E; try discriminate.
  - split; [reflexivity | exact E].
  - cbn in E. injection E as -> E. cbn in Hlen.
    destruct (IH l2 ltac:(lia) E) as [-> ->]. split; reflexivity.
Qed.

Lemma app_inj_length_tail {A : Type} (l1 l2 r1 r2 : list A) :
  length r1 = length r2 -> l1 ++ r1 = l2 ++ r2 -> l1 = l2 /\ r1 = r2.
Proof.
  intros Hlen E. apply app_inj_length; [|exact E].
  apply (f_equal (@length A)) in E. rewrite !length_app in E. lia.
Qed.

Lemma LittleEndian_PutUint64_inj x y :
  0 <= x < 2 ^ 64 -> 0 <= y < 2 ^ 64 ->
  binary.LittleEndian_PutUint64 (uint64 x) = binary.LittleEndian_PutUint64 (uint64 y) ->
  x = y.
Proof.
  intros Hx Hy E. rewrite !uint64_small in E by lia. unfold binary.LittleEndian_PutUint64 in E.
  apply (le_split_inj 8); assumption.
Qed.

Lemma len_0_nil {A : Type} (l : list A) : (len l >? 0) = false -> l = [].
Proof.
  unfold len. intros H. destruct l; [reflexivity|]. cbn [length] in H.
  rewrite Z.gtb_ltb in H. apply Z.ltb_ge in H. lia.
Qed.

(** The message of a round determines the key, the round, the tweak and
    the bytes of the half. *)
Lemma SHAKE_message_inj key1 key2 out1 out2 r1 r2 t1 t2 (scr1 scr2 : list byte) :
  len key1 < 2 ^ 64 -> len key2 < 2 ^ 64 -> len t1 < 2 ^ 64 -> len t2 < 2 ^ 64 ->
  0 <= r1 < 2 ^ 64 -> 0 <= r2 < 2 ^ 64 ->
  (r1 = r2 -> length scr1 = length scr2) ->
  SHAKE_prefix key1 out1 r1 t1 ++ scr1 = SHAKE_prefix key2 out2 r2 t2 ++ scr2 ->
  key1 = key2 /\ r1 = r2 /\ t1 = t2 /\ scr1 = scr2.
Proof.
  intros Hk1 Hk2 Ht1 Ht2 Hr1 Hr2 Hscr E. unfold SHAKE_prefix in E.
  rewrite <- !app_assoc in E.
  apply app_inj_length in E; [|reflexivity]. destruct E as [Ek E].
  apply LittleEndian_PutUint64_inj in Ek; try (unfold len in *; lia).
  apply app_inj_length in E; [|unfold len in Ek; lia]. destruct E as [-> E].
  apply app_inj_length in E; [|reflexivity]. destruct E as [_ E].
  apply app_inj_length in E; [|reflexivity]. destruct E as [Er E].
  apply LittleEndian_PutUint64_inj in Er; try lia. subst r2.
  specialize (Hscr eq_refl).
  apply app_inj_length_tail in E; [|exact Hscr]. destruct E as [Et ->].
  split; [reflexivity|]. split; [reflexivity|]. split; [|reflexivity].
  destruct (len t1 >? 0) eqn:E1; destruct (len t2 >? 0) eqn:E2.
  - apply app_inj_length in Et; [|reflexivity]. destruct Et as [_ Et]. exact Et.
  - apply (f_equal (@length byte)) in Et. unfold binary.LittleEndian_PutUint64 in Et.
    rewrite length_app, length_le_split in Et. cbn [length] in Et. lia.
  - apply (f_equal (@length byte)) in Et. unfold binary.LittleEndian_PutUint64 in Et.
    rewrite length_app, length_le_split in Et. cbn [length] in Et. lia.
  - apply len_0_nil in E1, E2. congruence.
Qed.

(** On the wider interval the engine is still a Feistel network, so it
    maps the interval into itself injectively, and the part of it outside
    the domain into that part. *)
Lemma SHAKE_perm_wide xof key L tweak v :
  2 <= L -> 0 <= v < 2 ^ (L / 2 + SHAKE_high_width L) ->
  0 <= SHAKE_perm xof key L tweak v < 2 ^ (L / 2 + SHAKE_high_width L)
  /\ (2 ^ L <= v -> 2 ^ L <= SHAKE_perm xof key L tweak v).
Proof.
  intros HL Hv.
  assert (H1 : 1 <= L / 2) by (Z.div_mod_to_equations; lia).
  assert (H2 : 1 <= L - L / 2) by (Z.div_mod_to_equations; lia).
  pose proof (SHAKE_high_width_ge L HL) as HW.
  assert (Hs : SHAKE_high_width L + L / 2 = L / 2 + SHAKE_high_width L) by lia.
  pose proof (feistel_perm_range (SHAKE_round_value xof key L tweak)
                (Z.to_nat (RoundSchedule L)) (SHAKE_high_width L) (L / 2)
                ltac:(lia) ltac:(lia)
                (fun i b => SHAKE_round_value_wide xof key L tweak i b HL)
                (RoundSchedule_even L) v) as Hrg.
  rewrite Hs in Hrg. specialize (Hrg Hv). fold (SHAKE_perm xof key L tweak v) in Hrg.
  split; [exact Hrg|]. intros Hout.
  destruct (Z_lt_le_dec (SHAKE_perm xof key L tweak v) (2 ^ L)) as [Hin | Hge];
    [exfalso | exact Hge].
  destruct (SHAKE_perm_surj xof key L tweak (SHAKE_perm xof key L tweak v) HL ltac:(lia))
    as (v' & Hv' & E).
  assert (Hp : 2 ^ L <= 2 ^ (L / 2 + SHAKE_high_width L))
    by (apply Z.pow_le_mono_r; lia).
  pose proof (feistel_perm_inj (SHAKE_round_value xof key L tweak)
                (Z.to_nat (RoundSchedule L)) (SHAKE_high_width L) (L / 2)
                ltac:(lia) ltac:(lia)
                (fun i b => SHAKE_round_value_wide xof key L tweak i b HL)
                (RoundSchedule_even L) v' v) as Hinj.
  rewrite Hs in Hinj. specialize (Hinj ltac:(lia) Hv E). lia.
Qed.

(** X8.  The SHAKE engine on an input outside its domain.  Let [bound] be
    [2^(lengthBits/2 + 8 * inLenBytes)], with [inLenBytes] the bytes of the
    buffer for the high half; [bound >= 2^lengthBits].  On a non-negative
    input below [bound], [PermuteInPlace] returns a value below [bound],
    raising no error, and for an input outside [[0, 2^lengthBits)] that
    value is outside it too; on an input of at least [bound] it panics in
    the second round, in [FillBytes] of [math/big] (buffer too small):
    there is no range error of its own. *)
Theorem SHAKE_input_too_wide
        (shake128 : list byte -> nat -> byte)
        (key : list byte) (L : Z) (e0 e : FeistelSHAKE128.t)
        (v : Z) (tweak : list byte) :
  FeistelSHAKE128.NewPowerOf2 shake128 key L = Ret e0 -> reachable e0 e -> 0 <= v ->
  let bound := 2 ^ (L / 2 + 8 * ((L - L / 2 + 7) / 8)) in
  2 ^ L <= bound
  /\ (v < bound ->
      exists y e', FeistelSHAKE128.PermuteInPlace v tweak e = (Ret y, e')
                   /\ 0 <= y < bound /\ (2 ^ L <= v -> 2 ^ L <= y))
  /\ (bound <= v ->
      exists e', FeistelSHAKE128.PermuteInPlace v tweak e = (Panic BufferTooSmall, e')).
Proof.
  intros H0 Hr Hv bound.
  pose proof (SHAKE_reachable_inv _ _ _ _ _ H0 Hr) as Hinv.
  pose proof Hinv as (_ & _ & _ & _ & HL).
  destruct (SHAKE_PermuteInPlace_any shake128 key L e v tweak Hinv Hv) as [Hlt Hge].
  fold (SHAKE_high_width L) in bound. fold bound in Hlt, Hge.
  split.
  { subst bound. apply Z.pow_le_mono_r; [lia|].
    pose proof (SHAKE_high_width_ge L HL). lia. }
  split.
  - intros Hb. destruct (Hlt Hb) as (e' & E & _).
    destruct (SHAKE_perm_wide shake128 key L tweak v HL ltac:(subst bound; lia)) as [Hy Ho].
    exists (SHAKE_perm shake128 key L tweak v), e'. auto.
  - intros Hb. destruct (Hge Hb) as (e' & E & _). eauto.
Qed.

Lemma SHAKE_input_too_wide_witness :
  exists e0, FeistelSHAKE128.NewPowerOf2 keccak.shake128 mykey 3 = Ret e0
    /\ (exists y e', FeistelSHAKE128.PermuteInPlace 8 [] e0 = (Ret y, e')
                     /\ 0 <= y < 512 /\ 8 <= y)
    /\ (exists e', FeistelSHAKE128.PermuteInPlace 1000 [] e0 = (Panic BufferTooSmall, e')).
Proof.
  eexists. split; [reflexivity|]. split.
  - destruct (SHAKE_input_too_wide keccak.shake128 mykey 3 _ _ 8 [] eq_refl
                (reachable_init _) ltac:(lia)) as (_ & H & _).
    destruct H as (y & e' & E & Hy & Ho); [cbv; reflexivity|].
    exists y, e'. split; [exact E|]. split; [exact Hy|]. apply Ho. cbv. discriminate.
  - destruct (SHAKE_input_too_wide keccak.shake128 mykey 3 _ _ 1000 [] eq_refl
                (reachable_init _) ltac:(lia)) as (_ & _ & H).
    apply H. cbv. discriminate.
Defined.

(** X9.  [FeistelSHAKE128.RoundFunc] on a field [b] of the object, with
    the field [f] for its result: when the magnitude of [b] fits the
    [inLenBytes] bytes of the round it returns [f], now holding a value
    of at most [outLenBits] bits, and leaves the other integers of the
    object alone; when it does not fit, the call panics in [FillBytes]. *)
Theorem SHAKE_RoundFunc_output
        (shake128 : list byte -> nat -> byte)
        (key : list byte) (L : Z) (e0 e : FeistelSHAKE128.t)
        (round : Z) (b : FeistelSHAKE128.ref) (tweak : list byte) :
  FeistelSHAKE128.NewPowerOf2 shake128 key L = Ret e0 -> reachable e0 e ->
  b <> FeistelSHAKE128.f_ref ->
  let inLenBits := if Z.land round 1 =? 0 then L / 2 else L - L / 2 in
  let outLenBits := if Z.land round 1 =? 0 then L - L / 2 else L / 2 in
  let inLenBytes := (inLenBits + 7) / 8 in
  (Z.abs (FeistelSHAKE128.load b e) < 2 ^ (8 * inLenBytes) ->
   exists e', FeistelSHAKE128.RoundFunc round b FeistelSHAKE128.f_ref tweak e
              = (Ret FeistelSHAKE128.f_ref, e')
     /\ 0 <= FeistelSHAKE128.load FeistelSHAKE128.f_ref e' < 2 ^ outLenBits
     /\ forall r, r <> FeistelSHAKE128.f_ref ->
                  FeistelSHAKE128.load r e' = FeistelSHAKE128.load r e)
  /\ (2 ^ (8 * inLenBytes) <= Z.abs (FeistelSHAKE128.load b e) ->
      exists e', FeistelSHAKE128.RoundFunc round b FeistelSHAKE128.f_ref tweak e
                 = (Panic BufferTooSmall, e')).
Proof.
  intros H0 Hr Hb inLenBits outLenBits inLenBytes.
  pose proof (SHAKE_reachable_inv _ _ _ _ _ H0 Hr) as Hinv.
  pose proof Hinv as (_ & _ & _ & _ & HL).
  assert (H1 : 1 <= L / 2 <= L) by (Z.div_mod_to_equations; lia).
  assert (H2 : 1 <= L - L / 2 <= L) by (Z.div_mod_to_equations; lia).
  assert (Hin : 1 <= inLenBits <= L) by (subst inLenBits; destruct (_ =? _); lia).
  assert (Hout : 1 <= outLenBits <= L) by (subst outLenBits; destruct (_ =? _); lia).
  destruct (SHAKE_RoundFunc_any shake128 key L e round b tweak Hinv Hb) as [Hfit Hpanic].
  cbv zeta in Hfit, Hpanic. fold inLenBits outLenBits in Hfit, Hpanic.
  rewrite Z2Nat.id in Hfit, Hpanic by (Z.div_mod_to_equations; lia).
  fold inLenBytes in Hfit, Hpanic.
  split.
  - intros Hlt. destruct (Hfit Hlt) as (e' & E & Hf & _ & Hfr & _).
    exists e'. split; [exact E|]. split; [|exact Hfr].
    rewrite Hf. apply mask_top_bound; [lia|].
    rewrite length_map, length_seq. reflexivity.
  - intros Hge. destruct (Hpanic Hge) as (e' & E & _). eauto.
Qed.

Lemma SHAKE_RoundFunc_output_witness :
  exists e0, FeistelSHAKE128.NewPowerOf2 keccak.shake128 mykey 3 = Ret e0
    /\ exists e', FeistelSHAKE128.RoundFunc 0 FeistelSHAKE128.b_ref FeistelSHAKE128.f_ref [] e0
                  = (Ret FeistelSHAKE128.f_ref, e')
         /\ 0 <= FeistelSHAKE128.load FeistelSHAKE128.f_ref e' < 2 ^ 2.
Proof.
  eexists. split; [reflexivity|].
  destruct (SHAKE_RoundFunc_output keccak.shake128 mykey 3 _ _ 0 FeistelSHAKE128.b_ref []
              eq_refl (reachable_init _) ltac:(discriminate)) as [H _].
  destruct H as (e' & E & Hf & _); [cbv; reflexivity|].
  exists e'. split; [exact E | exact Hf].
Defined.

(** X10.  The message the SHAKE engine hashes in a round tells the key,
    the round, the tweak and the half apart: if two calls of [RoundFunc]
    on objects of the same width (with keys and tweaks shorter than 2^64
    bytes, rounds that are non-negative Go ints and halves that fit their
    buffers) leave the hash having absorbed the same bytes, then the
    keys, the rounds, the tweaks and the magnitudes of the halves are the
    same. *)
Theorem SHAKE_hash_input_determines
        (shake128 : list byte -> nat -> byte) (L : Z)
        (key1 key2 : list byte) (e1 e2 s1 s2 : FeistelSHAKE128.t)
        (r1 r2 : Z) (b1 b2 : FeistelSHAKE128.ref) (t1 t2 : list byte) :
  FeistelSHAKE128.NewPowerOf2 shake128 key1 L = Ret e1 -> reachable e1 s1 ->
  FeistelSHAKE128.NewPowerOf2 shake128 key2 L = Ret e2 -> reachable e2 s2 ->
  len key1 < 2 ^ 64 -> len key2 < 2 ^ 64 -> len t1 < 2 ^ 64 -> len t2 < 2 ^ 64 ->
  0 <= r1 < 2 ^ 63 -> 0 <= r2 < 2 ^ 63 ->
  b1 <> FeistelSHAKE128.f_ref -> b2 <> FeistelSHAKE128.f_ref ->
  Z.abs (FeistelSHAKE128.load b1 s1)
    < 2 ^ (8 * (((if Z.land r1 1 =? 0 then L / 2 else L - L / 2) + 7) / 8)) ->
  Z.abs (FeistelSHAKE128.load b2 s2)
    < 2 ^ (8 * (((if Z.land r2 1 =? 0 then L / 2 else L - L / 2) + 7) / 8)) ->
  sha3.absorbed (FeistelSHAKE128.h
     (snd (FeistelSHAKE128.RoundFunc r1 b1 FeistelSHAKE128.f_ref t1 s1)))
  = sha3.absorbed (FeistelSHAKE128.h
     (snd (FeistelSHAKE128.RoundFunc r2 b2 FeistelSHAKE128.f_ref t2 s2))) ->
  key1 = key2 /\ r1 = r2 /\ t1 = t2
  /\ Z.abs (FeistelSHAKE128.load b1 s1) = Z.abs (FeistelSHAKE128.load b2 s2).
Proof.
  intros H01 Hr1 H02 Hr2 Hk1 Hk2 Ht1 Ht2 Hrd1 Hrd2 Hb1 Hb2 Hf1 Hf2 E.
  pose proof (SHAKE_reachable_inv _ _ _ _ _ H01 Hr1) as Hinv1.
  pose proof (SHAKE_reachable_inv _ _ _ _ _ H02 Hr2) as Hinv2.
  pose proof Hinv1 as (_ & _ & _ & _ & HL).
  assert (H1 : 1 <= L / 2 <= L) by (Z.div_mod_to_equations; lia).
  assert (H2 : 1 <= L - L / 2 <= L) by (Z.div_mod_to_equations; lia).
  destruct (SHAKE_RoundFunc_any shake128 key1 L s1 r1 b1 t1 Hinv1 Hb1) as [Hfit1 _].
  destruct (SHAKE_RoundFunc_any shake128 key2 L s2 r2 b2 t2 Hinv2 Hb2) as [Hfit2 _].
  cbv zeta in Hfit1, Hfit2.
  set (in1 := if Z.land r1 1 =? 0 then L / 2 else L - L / 2) in *.
  set (in2 := if Z.land r2 1 =? 0 then L / 2 else L - L / 2) in *.
  assert (Hin1 : 1 <= in1 <= L) by (subst in1; destruct (Z.land r1 1 =? 0); lia).
  assert (Hin2 : 1 <= in2 <= L) by (subst in2; destruct (Z.land r2 1 =? 0); lia).
  rewrite Z2Nat.id in Hfit1, Hfit2 by (Z.div_mod_to_equations; lia).
  destruct (Hfit1 Hf1) as (s1' & E1 & _ & A1 & _).
  destruct (Hfit2 Hf2) as (s2' & E2 & _ & A2 & _).
  rewrite E1, E2 in E. cbn [snd] in E. rewrite A1, A2 in E.
  apply SHAKE_message_inj in E; try lia.
  - destruct E as (Ek & Er & Et & Es). repeat split; try assumption.
    apply (f_equal (@rev byte)) in Es. rewrite !rev_involutive in Es.
    subst r2. change in2 with in1 in *. fold in1 in Es.
    apply le_split_inj in Es; [exact Es | |];
      rewrite Z2Nat.id by (Z.div_mod_to_equations; lia); lia.
  - intros ->. rewrite !length_rev, !length_le_split. reflexivity.
Qed.

Lemma SHAKE_hash_input_determines_witness :
  exists e0, FeistelSHAKE128.NewPowerOf2 keccak.shake128 mykey 3 = Ret e0
    /\ mykey = mykey /\ 0 = 0 /\ mykey = mykey
    /\ Z.abs (FeistelSHAKE128.load FeistelSHAKE128.b_ref e0)
       = Z.abs (FeistelSHAKE128.load FeistelSHAKE128.b_ref e0).
Proof.
  eexists. split; [reflexivity|].
  apply (SHAKE_hash_input_determines keccak.shake128 3 mykey mykey _ _ _ _ 0 0
           FeistelSHAKE128.b_ref FeistelSHAKE128.b_ref mykey mykey
           eq_refl (reachable_init _) eq_refl (reachable_init _)).
  - cbv. reflexivity.
  - cbv. reflexivity.
  - cbv. reflexivity.
  - cbv. reflexivity.
  - lia.
  - lia.
  - discriminate.
  - discriminate.
  - cbv. reflexivity.
  - cbv. reflexivity.
  - reflexivity.
Defined.

(** ** The adapter of the earlier revisions *)

Lemma PowerOf2_PermuteInPlace_preserves xof key L v :
  preserves (SHAKE_inv xof key L) (PowerOf2.PermuteInPlace v).
Proof.
  intros s r s' Hs E. rewrite PowerOf2_PermuteInPlace_eq in E.
  exact (SHAKE_PermuteInPlace_preserves xof key L v [] s r s' Hs E).
Qed.

Lemma PermutationN_iterate_walk xof key L N fuel : forall a v,
  PermutationN_inv xof key L N a -> 0 <= v < 2 ^ L ->
  exists a', PermutationN.iterate fuel v a
             = (outcome (walk (SHAKE_perm xof key L []) N fuel v), a')
             /\ PermutationN_inv xof key L N a'.
Proof.
  induction fuel as [|fuel IH]; intros a v [Hn Hi] Hv.
  - exists a. split; [reflexivity | split; assumption].
  - cbn [PermutationN.iterate walk]. pose proof Hi as (_ & _ & _ & _ & HL).
    destruct (SHAKE_PermuteInPlace_run xof key L (PermutationN.p a) v [] Hi Hv)
      as (s' & E & Hi').
    assert (Ez : zoom PermutationN.p PermutationN.set_p (PowerOf2.PermuteInPlace v) a
                 = (Ret (SHAKE_perm xof key L [] v), PermutationN.set_p a s')).
    { unfold zoom. rewrite PowerOf2_PermuteInPlace_eq, E. reflexivity. }
    rewrite (bind_Ret _ _ _ _ _ Ez). rewrite run_get.
    cbn [PermutationN.n PermutationN.set_p]. rewrite Hn, Cmp_ltb.
    destruct (SHAKE_perm xof key L [] v <? N) eqn:Elt.
    + eexists. split; [reflexivity|]. split; [exact Hn | exact Hi'].
    + apply IH; [split; [exact Hn | exact Hi'] | apply SHAKE_perm_range; assumption].
Qed.

Lemma PermutationN_in_range xof key L N fuel a v :
  PermutationN_inv xof key L N a -> 0 <= v < N -> N <= 2 ^ L ->
  exists a', PermutationN.PermuteInPlace fuel v a
             = (outcome (walk (SHAKE_perm xof key L []) N fuel v), a')
             /\ PermutationN_inv xof key L N a'.
Proof.
  intros Ha Hv HN. unfold PermutationN.PermuteInPlace. rewrite run_get.
  destruct Ha as [Hn Hi]. rewrite Hn, Cmp_geb.
  replace (N <=? v) with false by (symmetry; apply Z.leb_gt; lia).
  apply PermutationN_iterate_walk; [split; assumption | lia].
Qed.

Lemma PermutationN_out_of_range fuel (a : PermutationN.t) v :
  PermutationN.n a <= v ->
  PermutationN.PermuteInPlace fuel v a = (Panic InputOutOfRange, a).
Proof.
  intros Hv. unfold PermutationN.PermuteInPlace. rewrite run_get, Cmp_geb.
  replace (PermutationN.n a <=? v) with true by (symmetry; apply Z.leb_le; lia).
  reflexivity.
Qed.

Lemma PermutationN_iterate_preserves xof key L N fuel : forall v,
  preserves (PermutationN_inv xof key L N) (PermutationN.iterate fuel v).
Proof.
  induction fuel as [|fuel IH]; intros v; cbn [PermutationN.iterate].
  - apply preserves_lift.
  - apply preserves_bind.
    + intros a r a' [Hn Hi] E. unfold zoom in E.
      destruct (PowerOf2.PermuteInPlace v (PermutationN.p a)) as [r1 s1] eqn:E1.
      injection E as <- <-. split; [exact Hn|].
      eapply PowerOf2_PermuteInPlace_preserves; eauto.
    + intros y. apply preserves_bind_get. intros a Ha.
      apply preserves_if; [apply preserves_ret | apply IH].
Qed.

Lemma PermutationN_PermuteInPlace_preserves xof key L N fuel v :
  preserves (PermutationN_inv xof key L N) (PermutationN.PermuteInPlace fuel v).
Proof.
  unfold PermutationN.PermuteInPlace. apply preserves_bind_get. intros a Ha.
  apply preserves_if; [apply preserves_throw | apply PermutationN_iterate_preserves].
Qed.

Lemma PermutationN_PermuteInt_preserves xof key L N fuel i :
  preserves (PermutationN_inv xof key L N) (PermutationN.PermuteInt fuel i).
Proof.
  unfold PermutationN.PermuteInt.
  repeat preserves_step; try apply PermutationN_PermuteInPlace_preserves;
    intros ? [Hn Hi]; split; assumption.
Qed.

Lemma PermutationN_reachable_inv xof key L N init a :
  PermutationN_inv xof key L N init -> PermutationN_reachable init a ->
  PermutationN_inv xof key L N a.
Proof.
  intros Hi Hr. induction Hr as [| s fuel v r s' _ IH E | s fuel i r s' _ IH E].
  - exact Hi.
  - eapply PermutationN_PermuteInPlace_preserves; eauto.
  - eapply PermutationN_PermuteInt_preserves; eauto.
Qed.

Lemma NewPermutationN_inv xof key N a0 :
  PermutationN.NewPermutationN xof key N = Ret a0 ->
  PermutationN_inv xof key (width_of N) N a0 /\ PermutationN.in_ a0 = 0.
Proof.
  unfold PermutationN.NewPermutationN. rewrite PowerOf2_NewPowerOf2_eq.
  assert (HL : (if big.BitLen (N - 1) <=? 1 then 2 else big.BitLen (N - 1)) = width_of N).
  { unfold width_of. destruct (big.BitLen (N - 1) <=? 1) eqn:E; lia. }
  rewrite HL.
  destruct (FeistelSHAKE128.NewPowerOf2 xof key (width_of N)) as [e | e |] eqn:E;
    try discriminate.
  intros H. injection H as <-. split; [|reflexivity].
  split; [reflexivity|]. apply NewPowerOf2_inv. exact E.
Qed.

Lemma NewPermutationN_Ret xof key N :
  exists a0, PermutationN.NewPermutationN xof key N = Ret a0.
Proof.
  unfold PermutationN.NewPermutationN, PowerOf2.NewPowerOf2.
  pose proof (BitLen_nonneg (N - 1)).
  destruct (big.BitLen (N - 1) <=? 1) eqn:E.
  - eexists. reflexivity.
  - replace (big.BitLen (N - 1) <=? 1) with false. eexists. reflexivity.
Qed.

(** X11.  The adapter of the earlier revisions, built by
    [NewPermutationN] for any [N >= 1] (over the SHAKE engine, whatever the
    width), computes a permutation of [[0, N)] in any state left by
    earlier calls: on an input of the range [PermuteInPlace] returns a
    value of the range, two inputs of the range with the same output are
    equal, every value of the range is the output for some input; and an
    input of at least [N] makes it panic with the range error, leaving the
    object as it was. *)
Theorem PermutationN_permutes_range
        (shake128 : list byte -> nat -> byte) (key : list byte) (N : Z)
        (a0 a b : PermutationN.t) :
  1 <= N -> PermutationN.NewPermutationN shake128 key N = Ret a0 ->
  PermutationN_reachable a0 a -> PermutationN_reachable a0 b ->
  let fuel := Z.to_nat (2 ^ FeistelSHAKE128.lengthBits (PermutationN.p a0)) in
  (forall v, 0 <= v < N ->
     exists y a', PermutationN.PermuteInPlace fuel v a = (Ret y, a') /\ 0 <= y < N)
  /\ (forall f1 f2 v1 v2 y a' b', 0 <= v1 < N -> 0 <= v2 < N ->
        PermutationN.PermuteInPlace f1 v1 a = (Ret y, a') ->
        PermutationN.PermuteInPlace f2 v2 b = (Ret y, b') -> v1 = v2)
  /\ (forall y, 0 <= y < N ->
        exists v a', 0 <= v < N /\ PermutationN.PermuteInPlace fuel v a = (Ret y, a'))
  /\ (forall f v, N <= v ->
        PermutationN.PermuteInPlace f v a = (Panic InputOutOfRange, a)).
Proof.
  intros HN H0 Hra Hrb fuel.
  destruct (NewPermutationN_inv _ _ _ _ H0) as [Hinv0 _].
  pose proof (PermutationN_reachable_inv _ _ _ _ _ _ Hinv0 Hra) as Ha.
  pose proof (PermutationN_reachable_inv _ _ _ _ _ _ Hinv0 Hrb) as Hb.
  destruct (width_of_covers N HN) as [H2 HNL].
  assert (Hfuel : fuel = Z.to_nat (2 ^ width_of N)).
  { subst fuel. destruct Hinv0 as [_ (-> & _)]. reflexivity. }
  rewrite Hfuel. clear fuel Hfuel.
  set (pi := SHAKE_perm shake128 key (width_of N) []).
  assert (Hrg : forall x, 0 <= x < 2 ^ width_of N -> 0 <= pi x < 2 ^ width_of N)
    by (intros x; apply SHAKE_perm_range; exact H2).
  assert (Hinj : forall x y, 0 <= x < 2 ^ width_of N -> 0 <= y < 2 ^ width_of N ->
                             pi x = pi y -> x = y)
    by (intros x y; apply SHAKE_perm_inj; exact H2).
  split; [|split; [|split]].
  - intros v Hv.
    destruct (PermutationN_in_range _ _ _ _ (Z.to_nat (2 ^ width_of N)) a v Ha Hv HNL)
      as (a' & E & _).
    destruct (walk_terminates pi _ Hrg Hinj N HNL v Hv) as (y & W & Hy).
    fold pi in E. rewrite W in E. eauto.
  - intros f1 f2 v1 v2 y a' b' Hv1 Hv2 E1 E2.
    destruct (PermutationN_in_range _ _ _ _ f1 a v1 Ha Hv1 HNL) as (? & E1' & _).
    destruct (PermutationN_in_range _ _ _ _ f2 b v2 Hb Hv2 HNL) as (? & E2' & _).
    rewrite E1 in E1'. rewrite E2 in E2'.
    injection E1' as E1' _. injection E2' as E2' _. fold pi in E1', E2'.
    destruct (walk pi N f1 v1) as [y1|] eqn:W1; [|discriminate].
    destruct (walk pi N f2 v2) as [y2|] eqn:W2; [|discriminate].
    injection E1' as ->. injection E2' as ->.
    exact (walk_inj pi _ Hrg Hinj N HNL _ _ v1 v2 _ Hv1 Hv2 W1 W2).
  - intros y Hy.
    destruct (walk_onto pi _ Hrg Hinj N HNL y Hy) as (v & Hv & W).
    destruct (PermutationN_in_range _ _ _ _ (Z.to_nat (2 ^ width_of N)) a v Ha Hv HNL)
      as (a' & E & _).
    fold pi in E. rewrite W in E. eauto.
  - intros f v Hv. apply PermutationN_out_of_range. destruct Ha as [-> _]. exact Hv.
Qed.

Lemma PermutationN_permutes_range_witness :
  exists a0, PermutationN.NewPermutationN keccak.shake128 mykey 1000 = Ret a0
    /\ (forall v, 0 <= v < 1000 ->
          exists y a',
            PermutationN.PermuteInPlace
              (Z.to_nat (2 ^ FeistelSHAKE128.lengthBits (PermutationN.p a0))) v a0
            = (Ret y, a') /\ 0 <= y < 1000)
    /\ PermutationN.PermuteInPlace 1 1000 a0 = (Panic InputOutOfRange, a0).
Proof.
  eexists. split; [reflexivity|].
  destruct (PermutationN_permutes_range keccak.shake128 mykey 1000 _ _ _ ltac:(lia) eq_refl
              (PermutationN_reachable_init _) (PermutationN_reachable_init _))
    as (Hrange & _ & _ & Hpanic).
  split; [exact Hrange|]. apply Hpanic. lia.
Defined.

Lemma selects_FFX_outside N :
  1 <= N -> N <= 2 ^ 7 \/ 2 ^ 128 < N -> selects_FFX (width_of N) = false.
Proof.
  intros HN Hout. destruct (selects_FFX (width_of N)) eqn:E; [exfalso|reflexivity].
  apply selects_FFX_true in E. unfold width_of in E.
  destruct Hout as [Hs | Hb].
  - assert (big.BitLen (N - 1) <= 7) by (apply BitLen_least; lia). lia.
  - assert (Hle : big.BitLen (N - 1) <= 128) by lia.
    apply BitLen_least in Hle; lia.
Qed.

(** X12.  For a range that the current [NewN] serves with the SHAKE engine
    ([N <= 2^7] or [N > 2^128], so that the width is outside [[8, 128]]),
    the current adapter with a nil tweak and the adapter of the earlier
    revisions give the same outcome on every non-negative input: the same
    value, the same panic, or both still running with the fuel given.  In
    between the two revisions use different engines. *)
Theorem PermutationN_agrees_with_ArbitraryN
        (hkdf_Key : list byte -> list byte)
        (aes_NewCipher : list byte -> list byte -> list byte)
        (shake128 : list byte -> nat -> byte)
        (key : list byte) (N : Z)
        (a0 a : ArbitraryN.t engine) (b0 b : PermutationN.t)
        (fuel : nat) (v : Z) :
  1 <= N -> N <= 2 ^ 7 \/ 2 ^ 128 < N ->
  NewN hkdf_Key aes_NewCipher shake128 key N = Ret a0 ->
  PermutationN.NewPermutationN shake128 key N = Ret b0 ->
  reachableN a0 a -> PermutationN_reachable b0 b -> 0 <= v ->
  is_FFX (ArbitraryN.p a0) = false
  /\ fst (ArbitraryN.PermuteInPlace fuel v [] a)
     = fst (PermutationN.PermuteInPlace fuel v b).
Proof.
  intros HN Hout H0 H0' Hra Hrb Hv.
  pose proof (selects_FFX_outside N HN Hout) as Hsel.
  destruct (NewN_adapter _ _ _ _ _ _ _ HN H0 Hra) as (Ha & HNL & Hrun & Hrg & _).
  destruct (NewPermutationN_inv _ _ _ _ H0') as [Hinv0 _].
  pose proof (PermutationN_reachable_inv _ _ _ _ _ _ Hinv0 Hrb) as Hb.
  split.
  { pose proof (NewN_inv _ _ _ _ _ _ HN H0) as [_ [_ He]].
    destruct (ArbitraryN.p a0) as [e | e]; [|reflexivity].
    destruct He as [He _]. congruence. }
  destruct (Z_lt_le_dec v N) as [Hlt | Hge].
  - destruct (adapter_in_range _ _ _ Hrun Hrg N [] fuel a v Ha ltac:(lia) HNL)
      as (a' & E & _).
    destruct (PermutationN_in_range _ _ _ _ fuel b v Hb ltac:(lia) HNL) as (b' & E' & _).
    rewrite E, E'. cbn [fst]. unfold engine_perm. rewrite Hsel. reflexivity.
  - rewrite adapter_out_of_range by (destruct Ha as [-> _]; exact Hge).
    rewrite PermutationN_out_of_range by (destruct Hb as [-> _]; exact Hge).
    reflexivity.
Qed.

Lemma PermutationN_agrees_with_ArbitraryN_witness :
  exists a0 b0,
    NewN test_hkdf test_cipher keccak.shake128 mykey 100 = Ret a0
    /\ PermutationN.NewPermutationN keccak.shake128 mykey 100 = Ret b0
    /\ is_FFX (ArbitraryN.p a0) = false
    /\ fst (ArbitraryN.PermuteInPlace 128 42 [] a0)
       = fst (PermutationN.PermuteInPlace 128 42 b0).
Proof.
  eexists. eexists. split; [reflexivity|]. split; [reflexivity|].
  apply (PermutationN_agrees_with_ArbitraryN test_hkdf test_cipher keccak.shake128
           mykey 100 _ _ _ _ 128 42 ltac:(lia) ltac:(left; lia) eq_refl eq_refl
           (reachableN_init _) (PermutationN_reachable_init _) ltac:(lia)).
Defined.

(** ** The constructor [NewN] on any integer *)

Lemma PermuteInPlace_n {P : Type} {PP : Permutation P} fuel v tweak
      (a a' : ArbitraryN.t P) r :
  ArbitraryN.PermuteInPlace fuel v tweak a = (r, a') ->
  ArbitraryN.n a' = ArbitraryN.n a.
Proof.
  unfold ArbitraryN.PermuteInPlace. rewrite run_get.
  destruct (big.Cmp v (ArbitraryN.n a) >=? 0).
  - intros E. injection E as _ <-. reflexivity.
  - intros E. apply iterate_below in E. apply E.
Qed.

Lemma PermuteInt_n {P : Type} {PP : Permutation P} fuel i (a a' : ArbitraryN.t P) r :
  ArbitraryN.PermuteInt fuel i a = (r, a') -> ArbitraryN.n a' = ArbitraryN.n a.
Proof.
  rewrite adapter_PermuteInt_run.
  destruct (ArbitraryN.PermuteInPlace fuel (int64 i) [] (ArbitraryN.set_in a (int64 i)))
    as [[y | e |] a1] eqn:E; intros H; injection H as <- <-;
    apply PermuteInPlace_n in E; exact E.
Qed.

Lemma reachableN_n {P : Type} {PP : Permutation P} (a0 a : ArbitraryN.t P) :
  reachableN a0 a -> ArbitraryN.n a = ArbitraryN.n a0.
Proof.
  intros Hr. induction Hr as [| s fuel v tweak r s' _ IH E | s fuel i r s' _ IH E].
  - reflexivity.
  - rewrite (PermuteInPlace_n _ _ _ _ _ _ E). exact IH.
  - rewrite (PermuteInt_n _ _ _ _ _ E). exact IH.
Qed.

Lemma NewN_total hk ae xof key N :
  exists a0, NewN hk ae xof key N = Ret a0 /\ ArbitraryN.n a0 = N
    /\ ArbitraryN.in_ a0 = 0
    /\ engine_lengthBits (ArbitraryN.p a0) = width_of N.
Proof.
  unfold NewN.
  pose proof (BitLen_nonneg (N - 1)) as Hnn.
  assert (HL : (if big.BitLen (N - 1) <=? 1 then 2 else big.BitLen (N - 1)) = width_of N).
  { unfold width_of. destruct (big.BitLen (N - 1) <=? 1) eqn:E; lia. }
  rewrite HL. assert (H2 : 2 <= width_of N) by (unfold width_of; lia).
  destruct ((width_of N >=? 8) && (width_of N <=? 128)) eqn:E.
  - apply andb_true_iff in E. destruct E as [E1 E2].
    destruct (NewFFX_Ret hk ae key (width_of N) ltac:(lia)) as (e & He & Hl & _).
    rewrite He. eexists. split; [reflexivity|]. cbn. auto.
  - destruct (NewPowerOf2_Ret xof key (width_of N) H2) as (e & He & Hl & _).
    rewrite He. eexists. split; [reflexivity|]. cbn. auto.
Qed.

(** X13.  [NewN] never panics: for every integer [n], also zero or
    negative, the width it passes on is at least 2 and meets the guard of
    the constructor it selects, and it returns an adapter with bound [n]
    (so does [NewNInt]).  The bound never changes afterwards, so the
    adapter for an empty range ([n <= 0]) refuses every non-negative
    input: [PermuteInPlace] panics with the range error, and so does
    [PermuteInt] on every non-negative Go int. *)
Theorem NewN_never_panics
        (hkdf_Key : list byte -> list byte)
        (aes_NewCipher : list byte -> list byte -> list byte)
        (shake128 : list byte -> nat -> byte)
        (key : list byte) (N : Z) :
  exists a0, NewN hkdf_Key aes_NewCipher shake128 key N = Ret a0
    /\ (- 2 ^ 63 <= N < 2 ^ 63 ->
        NewNInt hkdf_Key aes_NewCipher shake128 key N = Ret a0)
    /\ ArbitraryN.n a0 = N /\ 2 <= engine_lengthBits (ArbitraryN.p a0)
    /\ (forall a, reachableN a0 a -> ArbitraryN.n a = N)
    /\ (N <= 0 ->
        forall a fuel v tweak i, reachableN a0 a ->
          (0 <= v -> ArbitraryN.PermuteInPlace fuel v tweak a = (Panic InputOutOfRange, a))
          /\ (0 <= i < 2 ^ 63 ->
              fst (ArbitraryN.PermuteInt fuel i a) = Panic InputOutOfRange)).
Proof.
  destruct (NewN_total hkdf_Key aes_NewCipher shake128 key N) as (a0 & H0 & Hn & _ & HL).
  exists a0. split; [exact H0|].
  split; [intros HN; unfold NewNInt; rewrite int64_small by lia; exact H0|].
  split; [exact Hn|]. split; [rewrite HL; unfold width_of; lia|].
  assert (Hconst : forall a, reachableN a0 a -> ArbitraryN.n a = N).
  { intros a Hr. rewrite (reachableN_n a0 a Hr). exact Hn. }
  split; [exact Hconst|].
  intros HN a fuel v tweak i Hr. specialize (Hconst a Hr). split.
  - intros Hv. apply adapter_out_of_range. lia.
  - intros Hi. rewrite adapter_PermuteInt_run. rewrite int64_small by lia.
    rewrite adapter_out_of_range by (cbn; lia). reflexivity.
Qed.

Lemma NewN_never_panics_witness :
  exists a0, NewN test_hkdf test_cipher keccak.shake128 mykey 0 = Ret a0
    /\ ArbitraryN.PermuteInPlace 8 0 [] a0 = (Panic InputOutOfRange, a0).
Proof.
  destruct (NewN_never_panics test_hkdf test_cipher keccak.shake128 mykey 0)
    as (a0 & H0 & _ & _ & _ & _ & Hempty).
  exists a0. split; [exact H0|].
  apply (Hempty ltac:(lia) a0 8%nat 0 [] 0 (reachableN_init _)). lia.
Defined.

(** X14.  On an adapter built by [NewN] for [1 <= N <= 2^63], in any
    state, [PermuteInt] on an input of [[0, N)] returns what
    [PermuteInPlace] returns for that input and a nil tweak, and leaves it
    in the scratch integer [in]; on a Go int that is at least [N] it
    panics with the range error, having stored the input in [in]. *)
Theorem ArbitraryN_PermuteInt_agrees
        (hkdf_Key : list byte -> list byte)
        (aes_NewCipher : list byte -> list byte -> list byte)
        (shake128 : list byte -> nat -> byte)
        (key : list byte) (N : Z) (a0 a : ArbitraryN.t engine) (fuel : nat) (i : Z) :
  1 <= N <= 2 ^ 63 -> NewN hkdf_Key aes_NewCipher shake128 key N = Ret a0 ->
  reachableN a0 a ->
  (0 <= i < N ->
   fst (ArbitraryN.PermuteInt fuel i a) = fst (ArbitraryN.PermuteInPlace fuel i [] a)
   /\ forall y, fst (ArbitraryN.PermuteInt fuel i a) = Ret y ->
                ArbitraryN.in_ (snd (ArbitraryN.PermuteInt fuel i a)) = y)
  /\ (N <= i < 2 ^ 63 ->
      ArbitraryN.PermuteInt fuel i a = (Panic InputOutOfRange, ArbitraryN.set_in a i)).
Proof.
  intros HN H0 Hr.
  destruct (NewN_adapter _ _ _ _ _ _ _ (proj1 HN) H0 Hr) as (Ha & HNL & Hrun & Hrg & Hinj).
  split.
  - intros Hi. rewrite adapter_PermuteInt_run. rewrite int64_small by lia.
    destruct (adapter_in_range _ _ _ Hrun Hrg N [] fuel (ArbitraryN.set_in a i) i
                (adapter_inv_set_in _ N a i Ha) Hi HNL) as (a1 & E1 & _).
    destruct (adapter_in_range _ _ _ Hrun Hrg N [] fuel a i Ha Hi HNL) as (a2 & E2 & _).
    rewrite E1, E2.
    destruct (walk _ N fuel i) as [y|] eqn:W; cbn [outcome fst snd].
    + destruct (walk_first _ _ _ _ _ W) as (k & _ & Ey & Hlt & _).
      assert (Hy : 0 <= y < N).
      { split; [|exact Hlt]. rewrite Ey.
        apply (orbit_range _ (2 ^ width_of N) (Hrg [])). lia. }
      rewrite Int64_small, int64_small by lia.
      split; [reflexivity|]. intros y' Hy'. injection Hy' as <-. reflexivity.
    + split; [reflexivity|]. intros; discriminate.
  - intros Hi. rewrite adapter_PermuteInt_run. rewrite int64_small by lia.
    rewrite adapter_out_of_range by (destruct Ha as [Hn _]; cbn; lia). reflexivity.
Qed.

Lemma ArbitraryN_PermuteInt_agrees_witness :
  exists a0, NewN test_hkdf test_cipher keccak.shake128 mykey 5 = Ret a0
    /\ fst (ArbitraryN.PermuteInt 8 2 a0) = fst (ArbitraryN.PermuteInPlace 8 2 [] a0)
    /\ ArbitraryN.PermuteInt 8 5 a0 = (Panic InputOutOfRange, ArbitraryN.set_in a0 5).
Proof.
  eexists. split; [reflexivity|].
  destruct (ArbitraryN_PermuteInt_agrees test_hkdf test_cipher keccak.shake128 mykey 5
              _ _ 8 2 ltac:(lia) eq_refl (reachableN_init _)) as [Hin _].
  destruct (ArbitraryN_PermuteInt_agrees test_hkdf test_cipher keccak.shake128 mykey 5
              _ _ 8 5 ltac:(lia) eq_refl (reachableN_init _)) as [_ Hout].
  split; [apply Hin; lia | apply Hout; lia].
Defined.

(** ** FFX on an input outside its domain *)

(** FFX reads the low [lengthBits - split] bits of its input and the 64
    bits above them. *)
Lemma FFX_perm_wrap c L hdr tweak v k :
  8 <= L <= 128 -> 0 <= v -> 0 <= k ->
  FFX_perm c L hdr tweak (v + k * 2 ^ (L - L / 2 + 64)) = FFX_perm c L hdr tweak v.
Proof.
  intros HL Hv Hk. unfold FFX_perm.
  assert (Hw : 4 <= L - L / 2 <= 64) by (Z.div_mod_to_equations; lia).
  set (w := L - L / 2) in *.
  assert (Hp : 0 < 2 ^ w) by (apply Z.pow_pos_nonneg; lia).
  assert (EK : k * 2 ^ (w + 64) = k * 2 ^ 64 * 2 ^ w).
  { rewrite Z.pow_add_r by lia. ring. }
  rewrite EK.
  assert (Eb : Z.land (v + k * 2 ^ 64 * 2 ^ w) (2 ^ w - 1) = Z.land v (2 ^ w - 1)).
  { rewrite !land_mask_mod by lia. apply Z.mod_add. lia. }
  assert (Ea : big.Uint64 (Z.shiftr (v + k * 2 ^ 64 * 2 ^ w) w) = big.Uint64 (Z.shiftr v w)).
  { rewrite !Z.shiftr_div_pow2 by lia. rewrite Z.div_add by lia.
    assert (Hd : 0 <= v / 2 ^ w) by (apply Z.div_pos; lia).
    unfold big.Uint64. rewrite !Z.abs_eq by nia.
    apply Z.mod_add. lia. }
  rewrite Eb, Ea. reflexivity.
Qed.

(** X15.  [FFX.PermuteInPlace] makes no range check and reads only the low
    [lengthBits - lengthBits/2 + 64] bits of a non-negative input: adding
    a multiple of [2^(lengthBits - lengthBits/2 + 64)] to the input does
    not change the value returned.  So beyond its domain FFX is not
    injective, and an input outside the domain can return a value of the
    domain. *)
Theorem FFX_input_wraps
        (hkdf_Key : list byte -> list byte)
        (aes_NewCipher : list byte -> list byte -> list byte)
        (key : list byte) (L : Z) (e0 e1 e2 : FFX.t)
        (v k : Z) (tweak : list byte) :
  FFX.NewFFX hkdf_Key aes_NewCipher key L = Ret e0 ->
  reachable e0 e1 -> reachable e0 e2 -> 0 <= v -> 0 <= k ->
  exists y e1' e2',
    FFX.PermuteInPlace v tweak e1 = (Ret y, e1')
    /\ FFX.PermuteInPlace (v + k * 2 ^ (L - L / 2 + 64)) tweak e2 = (Ret y, e2')
    /\ (v < 2 ^ L -> 0 <= y < 2 ^ L).
Proof.
  intros H0 Hr1 Hr2 Hv Hk.
  destruct (FFX_reachable_inv _ _ _ _ _ _ H0 Hr1) as [HL Hinv1].
  destruct (FFX_reachable_inv _ _ _ _ _ _ H0 Hr2) as [_ Hinv2].
  destruct (FFX_PermuteInPlace_run _ _ _ e1 v tweak Hinv1) as (e1' & E1 & _).
  destruct (FFX_PermuteInPlace_run _ _ _ e2 (v + k * 2 ^ (L - L / 2 + 64)) tweak Hinv2)
    as (e2' & E2 & _).
  rewrite FFX_perm_wrap in E2 by assumption.
  eexists. exists e1', e2'. split; [exact E1|]. split; [exact E2|].
  intros Hlt. apply FFX_perm_range; [exact HL | lia].
Qed.

Lemma FFX_input_wraps_witness :
  exists e0, FFX.NewFFX test_hkdf test_cipher mykey 8 = Ret e0
    /\ exists y e1' e2',
         FFX.PermuteInPlace 7 [] e0 = (Ret y, e1')
         /\ FFX.PermuteInPlace (7 + 1 * 2 ^ (8 - 8 / 2 + 64)) [] e0 = (Ret y, e2')
         /\ (7 < 2 ^ 8 -> 0 <= y < 2 ^ 8).
Proof.
  eexists. split; [reflexivity|].
  apply (FFX_input_wraps test_hkdf test_cipher mykey 8 _ _ _ 7 1 [] eq_refl
           (reachable_init _) (reachable_init _)); lia.
Defined.

(** ** The two revisions of the SHAKE engine *)

(** X16.  The tweak was added to the SHAKE engine without changing what
    it computes without one: on every object and every input, with a nil
    (or empty) tweak [FeistelSHAKE128.PermuteInPlace] gives the outcome
    and leaves the state that [PowerOf2.PermuteInPlace] of the earlier
    revision does, round by round; so do the two [PermuteInt] and the two
    constructors. *)
Theorem PowerOf2_is_FeistelSHAKE128_without_tweak
        (shake128 : list byte -> nat -> byte) (key : list byte) (L : Z)
        (s : FeistelSHAKE128.t) (v : Z) (round : Z) (b out : FeistelSHAKE128.ref) :
  PowerOf2.NewPowerOf2 shake128 key L = FeistelSHAKE128.NewPowerOf2 shake128 key L
  /\ PowerOf2.RoundFunc round b out s = FeistelSHAKE128.RoundFunc round b out [] s
  /\ PowerOf2.PermuteInPlace v s = FeistelSHAKE128.PermuteInPlace v [] s
  /\ PowerOf2.PermuteInt v s = FeistelSHAKE128.PermuteInt v s.
Proof.
  split; [apply PowerOf2_NewPowerOf2_eq|].
  split; [apply PowerOf2_RoundFunc_eq|].
  split; [apply PowerOf2_PermuteInPlace_eq | apply PowerOf2_PermuteInt_eq].
Qed.

(** ** The working buffer of FFX inside a call *)

(** The first half of [FFX.PermuteInPlace]: the halves are taken, the
    header is encrypted and the buffer is built; what remains of the call
    are the rounds and the join, run from the state [s1]. *)
Lemma FFX_PermuteInPlace_start c L hdr s v tweak :
  FFX_inv c L hdr s ->
  exists a b s1,
    FFX.PermuteInPlace v tweak s
    = (r <- gets FFX.rounds ;;
       '(a', b') <- FFX.rounds_loop (Z.to_nat r) 0 a b ;;
       FFX.join_halves a' b') s1
    /\ FFX.q s1 = FFX_q_prefix tweak ++ repeat Byte.x00 8
    /\ FFX_inv c L hdr s1
    /\ q_shape s1 (FFX_q_prefix tweak).
Proof.
  intros Hinv.
  unfold FFX.PermuteInPlace. unfold bind at 1, get at 1.
  rewrite (bind_Ret _ _ _ _ _ (FFX_split_halves_run v s)).
  set (s1 := FFX.set_masked s _).
  assert (Hinv1 : FFX_inv c L hdr s1) by (eapply FFX_inv_frame; [|exact Hinv]; repeat split).
  destruct (calculateEncryptedP_run c L hdr (FFX.lengthBits s / 2) (len tweak) s1 Hinv1
              ltac:(unfold len; lia)) as (s2 & E2 & Hinv2 & _).
  rewrite (bind_Ret _ _ _ _ _ E2).
  rewrite (bind_Ret _ _ _ _ _ (build_q_run tweak s2)).
  eexists _, _, _. split; [reflexivity|].
  split; [reflexivity|].
  split; [eapply FFX_inv_frame; [|exact Hinv2]; repeat split|].
  apply q_shape_build.
Qed.

(** One call of [FFX.RoundFunc] on a buffer of whole blocks, with the run
    of its CBC-MAC loop: the loop is started on the buffer that now holds
    [B] in its last eight bytes, with [outBytes] set to the encrypted
    header, and its results are what the call leaves in [inBytes] and
    [outBytes]. *)
Lemma FFX_RoundFunc_loop s qpre i B tw :
  q_shape s qpre ->
  exists f s' inB outB,
    FFX.RoundFunc i B tw s = (Ret f, s')
    /\ FFX.q s' = qpre ++ binary.BigEndian_PutUint64 B
    /\ FFX.cbc_mac_loop (length (FFX.q s')) (FFX.aes s) (FFX.inBytes s)
         (block16 (FFX.encryptedP s)) (FFX.q s') 0
       = Ret (inB, outB, Z.to_nat (len (FFX.q s) / 16))
    /\ FFX.inBytes s' = inB /\ FFX.outBytes s' = outB
    /\ FFX_frame s s' /\ q_shape s' qpre.
Proof.
  intros (tail & m & Hq & Htail & Hlen).
  assert (Hpre : firstn (length (FFX.q s) - 8) (FFX.q s) = qpre).
  { rewrite Hq. rewrite length_app, Htail.
    replace (length qpre + 8 - 8)%nat with (length qpre + 0)%nat by lia.
    rewrite firstn_app_2. cbn. apply app_nil_r. }
  set (q1 := qpre ++ binary.BigEndian_PutUint64 B).
  assert (Hlen1 : length q1 = (16 * S m)%nat).
  { subst q1. rewrite length_app, length_BigEndian_PutUint64.
    rewrite Hq, length_app, Htail in Hlen. exact Hlen. }
  assert (Hcount : Z.to_nat (len (FFX.q s) / 16) = S m).
  { unfold len. rewrite Hlen. rewrite Nat2Z.inj_mul. change (Z.of_nat 16) with 16.
    rewrite Z.mul_comm, Z.div_mul by lia. apply Nat2Z.id. }
  destruct (cbc_mac_loop_run (FFX.aes s) (S m) (length q1) (FFX.inBytes s)
              (block16 (FFX.encryptedP s)) q1 0 Hlen1 ltac:(lia)) as (inB & outB & E).
  unfold FFX.RoundFunc.
  unfold bind at 1. cbn [get].
  replace (length (FFX.q s) <? 8)%nat with false
    by (symmetry; apply Nat.ltb_ge; lia).
  unfold bind, modify, get, lift, ret. cbn.
  rewrite Hpre. fold q1. rewrite E.
  eexists _, _, inB, outB. split; [reflexivity|]. cbn.
  split; [reflexivity|]. split; [rewrite Hcount; exact E|].
  split; [reflexivity|]. split; [reflexivity|].
  split; [repeat split|].
  exists (binary.BigEndian_PutUint64 B), m. cbn.
  repeat split; auto using length_BigEndian_PutUint64.
Qed.

(** Round [k] of the loop of [PermuteInPlace], for every [k]: the state
    after [k] rounds, the call of [RoundFunc] made in it, and the state
    after [k + 1] rounds. *)
Lemma FFX_rounds_each qpre : forall k s i a b,
  q_shape s qpre ->
  exists ak bk sk f sk' inB outB,
    FFX.rounds_loop k i a b s = (Ret (ak, bk), sk)
    /\ FFX.RoundFunc (i + Z.of_nat k) bk [] sk = (Ret f, sk')
    /\ FFX.rounds_loop (S k) i a b s = (Ret (bk, Z.lxor ak f), sk')
    /\ FFX_frame s sk /\ q_shape sk qpre
    /\ FFX.q sk' = qpre ++ binary.BigEndian_PutUint64 bk
    /\ FFX.cbc_mac_loop (length (FFX.q sk')) (FFX.aes sk) (FFX.inBytes sk)
         (block16 (FFX.encryptedP sk)) (FFX.q sk') 0
       = Ret (inB, outB, Z.to_nat (len (FFX.q sk) / 16))
    /\ FFX.inBytes sk' = inB /\ FFX.outBytes sk' = outB.
Proof.
  induction k as [|k IH]; intros s i a b Hq.
  - destruct (FFX_RoundFunc_loop s qpre i b [] Hq)
      as (f & s' & inB & outB & E & Q & Loop & HI & HO & _ & _).
    exists a, b, s, f, s', inB, outB.
    replace (i + Z.of_nat 0) with i by lia.
    split; [reflexivity|]. split; [exact E|].
    split; [cbn [FFX.rounds_loop]; rewrite (bind_Ret _ _ _ _ _ E); reflexivity|].
    split; [apply FFX_frame_refl|]. auto 10.
  - destruct (RoundFunc_run s qpre i b [] Hq) as (s1 & E1 & Hf1 & Hq1).
    destruct (IH s1 (i + 1) b (Z.lxor a (FFX_round_value (FFX.aes s) (FFX.lengthBits s)
                                           (FFX.encryptedP s) qpre i b)) Hq1)
      as (ak & bk & sk & f & sk' & inB & outB & Ek & Er & Es & Hfk & Hqk & Q & Loop & HI & HO).
    exists ak, bk, sk, f, sk', inB, outB.
    replace (i + Z.of_nat (S k)) with (i + 1 + Z.of_nat k) by lia.
    split.
    { cbn [FFX.rounds_loop]. rewrite (bind_Ret _ _ _ _ _ E1). exact Ek. }
    split; [exact Er|].
    split.
    { change (FFX.rounds_loop (S (S k)) i a b s)
        with (bind (FFX.RoundFunc i b [])
                   (fun f => FFX.rounds_loop (S k) (i + 1) b (Z.lxor a f)) s).
      rewrite (bind_Ret _ _ _ _ _ E1). exact Es. }
    split; [eapply FFX_frame_trans; eauto|]. auto 10.
Qed.

(** C10.  For every tweak, in a call of [FFX.PermuteInPlace] on an object
    built by [NewFFX], in whatever state earlier calls left it: the
    buffer [q] is the tweak, zero bytes up to a length congruent to 7
    modulo 16, the byte 1 and eight zero bytes when the rounds start, and
    its length is a positive multiple of 16.  In every round of the call,
    [RoundFunc] runs its CBC-MAC loop over a buffer of that length (the
    last eight bytes now hold the half [b]): the loop takes every 16-byte
    slice within bounds and ends after exactly [len(q)/16] iterations.
    So the call returns, leaving a buffer of the same length, on which
    every later call of [RoundFunc] returns too. *)
Theorem q_buffer_whole_blocks
        (hkdf_Key : list byte -> list byte)
        (aes_NewCipher : list byte -> list byte -> list byte)
        (key : list byte) (L : Z) (e0 e : FFX.t) (v : Z) (tweak : list byte) :
  FFX.NewFFX hkdf_Key aes_NewCipher key L = Ret e0 -> reachable e0 e ->
  let pad := Z.to_nat ((7 - len tweak) mod 16) in
  let q := tweak ++ repeat Byte.x00 pad ++ [to_byte 1] ++ repeat Byte.x00 8 in
  len (tweak ++ repeat Byte.x00 pad) mod 16 = 7
  /\ 0 < len q /\ len q mod 16 = 0
  /\ exists a b s1 y e',
       FFX.PermuteInPlace v tweak e
       = (r <- gets FFX.rounds ;;
          '(a', b') <- FFX.rounds_loop (Z.to_nat r) 0 a b ;;
          FFX.join_halves a' b') s1
       /\ FFX.q s1 = q /\ FFX.rounds s1 = FFX.rounds e0
       /\ FFX.PermuteInPlace v tweak e = (Ret y, e')
       /\ length (FFX.q e') = length q
       /\ (forall k, (k < Z.to_nat (FFX.rounds e0))%nat ->
             exists ak bk sk f sk' inB outB,
               FFX.rounds_loop k 0 a b s1 = (Ret (ak, bk), sk)
               /\ FFX.RoundFunc (Z.of_nat k) bk [] sk = (Ret f, sk')
               /\ FFX.rounds_loop (S k) 0 a b s1 = (Ret (bk, Z.lxor ak f), sk')
               /\ length (FFX.q sk) = length q
               /\ FFX.q sk' = tweak ++ repeat Byte.x00 pad ++ [to_byte 1]
                              ++ binary.BigEndian_PutUint64 bk
               /\ FFX.cbc_mac_loop (length (FFX.q sk')) (FFX.aes sk) (FFX.inBytes sk)
                    (block16 (FFX.encryptedP sk)) (FFX.q sk') 0
                  = Ret (inB, outB, Z.to_nat (len q / 16))
               /\ FFX.inBytes sk' = inB /\ FFX.outBytes sk' = outB)
       /\ (forall i B, exists y2 e2, FFX.RoundFunc i B [] e' = (Ret y2, e2)
                                      /\ length (FFX.q e2) = length q).
Proof.
  intros H0 Hr pad q.
  assert (Hq : q = FFX_q_prefix tweak ++ repeat Byte.x00 8).
  { subst q pad. unfold FFX_q_prefix. rewrite <- !app_assoc. reflexivity. }
  destruct (length_q_prefix tweak) as (m & Hm). rewrite <- Hq in Hm.
  assert (Hlen : len q = 16 * (Z.of_nat m + 1)) by (unfold len; lia).
  assert (Hshape_len : forall s, q_shape s (FFX_q_prefix tweak) ->
                                 length (FFX.q s) = length q).
  { intros s (tl & m' & E & Ht & _). rewrite E, Hq, !length_app, Ht, repeat_length.
    reflexivity. }
  split.
  { unfold len. rewrite length_app, repeat_length. subst pad.
    pose proof (Z.mod_pos_bound (7 - len tweak) 16 ltac:(lia)).
    rewrite Nat2Z.inj_add, Z2Nat.id by lia. apply pad_reaches_7. }
  split; [lia|]. split; [rewrite Hlen, Z.mul_comm; apply Z_mod_mult|].
  destruct (FFX_reachable_inv _ _ _ _ _ _ H0 Hr) as [_ Hinv].
  destruct (NewFFX_inv _ _ _ _ _ H0) as [_ (_ & Hr0 & _)].
  destruct (FFX_PermuteInPlace_start _ _ _ e v tweak Hinv)
    as (a & b & s1 & Estart & Hq1 & Hinv1 & Hsh1).
  destruct (FFX_PermuteInPlace_state _ _ _ e v tweak Hinv)
    as (e' & E & _ & _ & _ & _ & _ & Hsh' & _).
  exists a, b, s1, (FFX_perm (aes_NewCipher (hkdf_Key key)) L (FFX_hdr L) tweak v), e'.
  split; [exact Estart|].
  split; [rewrite Hq; exact Hq1|].
  split; [destruct Hinv1 as (_ & -> & _); symmetry; exact Hr0|].
  split; [exact E|].
  split; [exact (Hshape_len _ Hsh')|].
  split.
  - intros k _.
    destruct (FFX_rounds_each (FFX_q_prefix tweak) k s1 0 a b Hsh1)
      as (ak & bk & sk & f & sk' & inB & outB & Ek & Er & Es & _ & Hqk & Q & Loop & HI & HO).
    rewrite Z.add_0_l in Er.
    exists ak, bk, sk, f, sk', inB, outB.
    split; [exact Ek|]. split; [exact Er|]. split; [exact Es|].
    split; [exact (Hshape_len _ Hqk)|].
    split.
    { rewrite Q. unfold FFX_q_prefix. subst pad. rewrite <- !app_assoc. reflexivity. }
    split; [|split; assumption].
    rewrite Loop. unfold len. rewrite (Hshape_len _ Hqk). reflexivity.
  - intros i B.
    destruct (RoundFunc_run e' _ i B [] Hsh') as (e2 & E2 & _ & Hsh2).
    eexists. exists e2. split; [exact E2|]. exact (Hshape_len _ Hsh2).
Qed.

Lemma q_buffer_whole_blocks_witness :
  exists e0, FFX.NewFFX test_hkdf test_cipher mykey 8 = Ret e0
    /\ exists y e', FFX.PermuteInPlace 7 (repeat Byte.x00 10) e0 = (Ret y, e')
                    /\ length (FFX.q e') = 32%nat
                    /\ forall i B, exists y2 e2,
                         FFX.RoundFunc i B [] e' = (Ret y2, e2)
                         /\ length (FFX.q e2) = 32%nat.
Proof.
  eexists. split; [reflexivity|].
  destruct (q_buffer_whole_blocks test_hkdf test_cipher mykey 8 _ _ 7 (repeat Byte.x00 10)
              eq_refl (reachable_init _))
    as (_ & _ & _ & a & b & s1 & y & e' & _ & _ & _ & E & Hlen & _ & Hround).
  exists y, e'. split; [exact E|]. split; [exact Hlen|]. exact Hround.
Defined.

(** ** The halves inside a call *)

(** [FFX.PermuteInPlace] on an input of the domain is the Feistel network
    over the halves [a = v / 2^(L - L/2)] and [b = v mod 2^(L - L/2)],
    with the round function that [RoundFunc] computes on the buffer of
    this tweak. *)
Lemma FFX_PermuteInPlace_feistel c L hdr s v tweak :
  8 <= L <= 128 -> FFX_inv c L hdr s -> 0 <= v < 2 ^ L ->
  let F := FFX_round_value c L (FFX.Encrypt c (FFX_header hdr (len tweak)))
                           (FFX_q_prefix tweak) in
  let wb := L - L / 2 in
  let out := feistel F (Z.to_nat (RoundSchedule L)) 0 (v / 2 ^ wb) (v mod 2 ^ wb) in
  (0 <= v / 2 ^ wb < 2 ^ (L / 2) /\ 0 <= v mod 2 ^ wb < 2 ^ wb)
  /\ (0 <= fst out < 2 ^ (L / 2) /\ 0 <= snd out < 2 ^ wb)
  /\ exists s', FFX.PermuteInPlace v tweak s = (Ret (fst out * 2 ^ wb + snd out), s')
       /\ forall i B, exists s2, FFX.RoundFunc i B [] s' = (Ret (F i B), s2).
Proof.
  intros HL Hinv Hv F wb out.
  assert (H1 : 4 <= L / 2 <= 64) by (Z.div_mod_to_equations; lia).
  assert (H2 : 4 <= wb <= 64) by (subst wb; Z.div_mod_to_equations; lia).
  assert (Hsum : L / 2 + wb = L) by (subst wb; lia).
  assert (Hsplit : halves_ok (L / 2) wb 0 (v / 2 ^ wb) (v mod 2 ^ wb)).
  { apply split_ok; [lia | lia | rewrite Hsum; exact Hv]. }
  pose proof (feistel_range F (L / 2) wb ltac:(lia) ltac:(lia)
                (fun i b => FFX_round_value_range c L _ _ i b ltac:(lia) ltac:(lia))
                (Z.to_nat (RoundSchedule L)) 0 _ _ Hsplit) as Hout.
  fold out in Hout. unfold halves_ok in Hsplit, Hout.
  rewrite Z.add_0_l, RoundSchedule_even in Hout. cbn in Hsplit.
  split; [exact Hsplit|]. split; [exact Hout|].
  destruct (FFX_PermuteInPlace_state c L hdr s v tweak Hinv)
    as (s' & E & Hinv' & _ & _ & Hp & Henc & Hsh & _).
  exists s'. split.
  - rewrite E. rewrite FFX_perm_feistel by assumption. unfold feistel_perm.
    fold wb. fold F. fold out. destruct out as [a' b']. reflexivity.
  - intros i B.
    destruct (RoundFunc_run s' _ i B [] Hsh) as (s2 & E2 & _).
    exists s2. rewrite E2.
    destruct Hinv' as (-> & _ & _ & -> & _). rewrite Henc, Hp. reflexivity.
Qed.

(** The same for the SHAKE engine, whose low half has [L/2] bits.  The
    round function is what [RoundFunc] stores in [f] for a half held by
    any other scratch integer of the object. *)
Lemma SHAKE_PermuteInPlace_feistel xof key L s v tweak :
  SHAKE_inv xof key L s -> 0 <= v < 2 ^ L ->
  let F := SHAKE_round_value xof key L tweak in
  let wb := L / 2 in
  let out := feistel F (Z.to_nat (RoundSchedule L)) 0 (v / 2 ^ wb) (v mod 2 ^ wb) in
  (0 <= v / 2 ^ wb < 2 ^ (L - L / 2) /\ 0 <= v mod 2 ^ wb < 2 ^ wb)
  /\ (0 <= fst out < 2 ^ (L - L / 2) /\ 0 <= snd out < 2 ^ wb)
  /\ exists s', FeistelSHAKE128.PermuteInPlace v tweak s
                = (Ret (fst out * 2 ^ wb + snd out), s')
       /\ forall round r x,
            r <> FeistelSHAKE128.f_ref ->
            0 <= x < 2 ^ (if Z.land round 1 =? 0 then L / 2 else L - L / 2) ->
            exists s2,
              FeistelSHAKE128.RoundFunc round r FeistelSHAKE128.f_ref tweak
                (FeistelSHAKE128.store r x s') = (Ret FeistelSHAKE128.f_ref, s2)
              /\ FeistelSHAKE128.load FeistelSHAKE128.f_ref s2 = F round x.
Proof.
  intros Hinv Hv F wb out.
  pose proof Hinv as (_ & _ & _ & _ & HL).
  assert (H1 : 1 <= wb) by (subst wb; Z.div_mod_to_equations; lia).
  assert (H2 : 1 <= L - L / 2) by (Z.div_mod_to_equations; lia).
  assert (Hsum : L - L / 2 + wb = L) by (subst wb; lia).
  assert (Hsplit : halves_ok (L - L / 2) wb 0 (v / 2 ^ wb) (v mod 2 ^ wb)).
  { apply split_ok; [lia | lia | rewrite Hsum; exact Hv]. }
  pose proof (feistel_range F (L - L / 2) wb ltac:(lia) ltac:(lia)
                (fun i b => SHAKE_round_value_range xof key L tweak i b HL)
                (Z.to_nat (RoundSchedule L)) 0 _ _ Hsplit) as Hout.
  fold out in Hout. unfold halves_ok in Hsplit, Hout.
  rewrite Z.add_0_l, RoundSchedule_even in Hout. cbn in Hsplit.
  split; [exact Hsplit|]. split; [exact Hout|].
  destruct (SHAKE_PermuteInPlace_run xof key L s v tweak Hinv Hv) as (s' & E & Hinv').
  exists s'. split.
  - rewrite E. unfold SHAKE_perm, feistel_perm.
    fold wb. fold F. fold out. destruct out as [a' b']. reflexivity.
  - intros round r x Hr Hx.
    destruct (SHAKE_RoundFunc_run xof key L (FeistelSHAKE128.store r x s') round r tweak
                (SHAKE_inv_store _ _ _ r x s' Hinv') Hr)
      as (s2 & E2 & Hf & _).
    { rewrite load_store_same. exact Hx. }
    exists s2. split; [exact E2|]. rewrite Hf, load_store_same. reflexivity.
Qed.

(** C8.  For an odd [lengthBits] the halves have [floor(lengthBits/2)] and
    [ceil(lengthBits/2)] bits, and the engines place the larger half on
    opposite sides.  [FFX.PermuteInPlace] takes the [ceil] low-order bits
    of its input as [b] and the [floor] high-order bits as [a]: it returns
    the halves that the rounds make of these, [a] shifted left by [ceil]
    over [b], the rounds being those of [RoundFunc] on the buffer of the
    tweak.  [PermuteInPlace] of the SHAKE engine (of [FeistelSHAKE128] and
    of the earlier [PowerOf2]) takes the [floor] low-order bits as [b] and
    the [ceil] high-order bits as [a], and returns [a] shifted left by
    [floor] over [b].  The first two parts state the same of the first and
    the last block of the two methods. *)
Theorem halves_of_odd_width
        (hkdf_Key : list byte -> list byte)
        (aes_NewCipher : list byte -> list byte -> list byte)
        (shake128 : list byte -> nat -> byte)
        (key : list byte) (L : Z) (tweak : list byte) :
  Z.odd L = true ->
  let floor := L / 2 in
  let ceil := (L + 1) / 2 in
  floor + ceil = L /\ ceil = floor + 1
  /\ (forall e0 e v,
        FFX.NewFFX hkdf_Key aes_NewCipher key L = Ret e0 -> reachable e0 e ->
        0 <= v < 2 ^ L ->
        (exists e', FFX.split_halves v e = (Ret (v / 2 ^ ceil, v mod 2 ^ ceil), e')
                    /\ 0 <= v / 2 ^ ceil < 2 ^ floor
                    /\ 0 <= v mod 2 ^ ceil < 2 ^ ceil)
        /\ (forall a b, 0 <= b < 2 ^ ceil ->
               exists e', FFX.join_halves a b e = (Ret (a * 2 ^ ceil + b), e')))
  /\ (forall e0 e v,
        (FeistelSHAKE128.NewPowerOf2 shake128 key L = Ret e0 /\ reachable e0 e)
        \/ (PowerOf2.NewPowerOf2 shake128 key L = Ret e0 /\ PowerOf2_reachable e0 e) ->
        0 <= v < 2 ^ L ->
        (exists e', FeistelSHAKE128.split_halves v e = (Ret tt, e')
                    /\ FeistelSHAKE128.load FeistelSHAKE128.a_ref e' = v / 2 ^ floor
                    /\ FeistelSHAKE128.load FeistelSHAKE128.b_ref e' = v mod 2 ^ floor
                    /\ 0 <= v / 2 ^ floor < 2 ^ ceil
                    /\ 0 <= v mod 2 ^ floor < 2 ^ floor)
        /\ (forall a b, 0 <= FeistelSHAKE128.load b e < 2 ^ floor ->
               FeistelSHAKE128.join_halves a b e
               = (Ret (FeistelSHAKE128.load a e * 2 ^ floor + FeistelSHAKE128.load b e), e)))
  /\ (forall e0,
        FFX.NewFFX hkdf_Key aes_NewCipher key L = Ret e0 ->
        exists F : Z -> Z -> Z,
          forall e v, reachable e0 e -> 0 <= v < 2 ^ L ->
            let a := v / 2 ^ ceil in
            let b := v mod 2 ^ ceil in
            let out := feistel F (Z.to_nat (FFX.rounds e0)) 0 a b in
            (0 <= a < 2 ^ floor /\ 0 <= b < 2 ^ ceil)
            /\ (0 <= fst out < 2 ^ floor /\ 0 <= snd out < 2 ^ ceil)
            /\ exists e',
                 FFX.PermuteInPlace v tweak e = (Ret (fst out * 2 ^ ceil + snd out), e')
                 /\ forall i B, exists e2, FFX.RoundFunc i B [] e' = (Ret (F i B), e2))
  /\ (forall e0,
        FeistelSHAKE128.NewPowerOf2 shake128 key L = Ret e0 ->
        exists F : Z -> Z -> Z,
          forall e v, reachable e0 e -> 0 <= v < 2 ^ L ->
            let a := v / 2 ^ floor in
            let b := v mod 2 ^ floor in
            let out := feistel F (Z.to_nat (FeistelSHAKE128.rounds e0)) 0 a b in
            (0 <= a < 2 ^ ceil /\ 0 <= b < 2 ^ floor)
            /\ (0 <= fst out < 2 ^ ceil /\ 0 <= snd out < 2 ^ floor)
            /\ exists e',
                 FeistelSHAKE128.PermuteInPlace v tweak e
                 = (Ret (fst out * 2 ^ floor + snd out), e')
                 /\ forall round r x,
                      r <> FeistelSHAKE128.f_ref ->
                      0 <= x < 2 ^ (if Z.land round 1 =? 0 then floor else ceil) ->
                      exists e2,
                        FeistelSHAKE128.RoundFunc round r FeistelSHAKE128.f_ref tweak
                          (FeistelSHAKE128.store r x e') = (Ret FeistelSHAKE128.f_ref, e2)
                        /\ FeistelSHAKE128.load FeistelSHAKE128.f_ref e2 = F round x)
  /\ (forall e0,
        PowerOf2.NewPowerOf2 shake128 key L = Ret e0 ->
        exists F : Z -> Z -> Z,
          forall e v, PowerOf2_reachable e0 e -> 0 <= v < 2 ^ L ->
            let a := v / 2 ^ floor in
            let b := v mod 2 ^ floor in
            let out := feistel F (Z.to_nat (FeistelSHAKE128.rounds e0)) 0 a b in
            (0 <= a < 2 ^ ceil /\ 0 <= b < 2 ^ floor)
            /\ (0 <= fst out < 2 ^ ceil /\ 0 <= snd out < 2 ^ floor)
            /\ exists e',
                 PowerOf2.PermuteInPlace v e = (Ret (fst out * 2 ^ floor + snd out), e')
                 /\ forall round r x,
                      r <> FeistelSHAKE128.f_ref ->
                      0 <= x < 2 ^ (if Z.land round 1 =? 0 then floor else ceil) ->
                      exists e2,
                        PowerOf2.RoundFunc round r FeistelSHAKE128.f_ref
                          (FeistelSHAKE128.store r x e') = (Ret FeistelSHAKE128.f_ref, e2)
                        /\ FeistelSHAKE128.load FeistelSHAKE128.f_ref e2 = F round x).
Proof.
  intros Ho floor ceil. destruct (odd_halves L Ho) as [Hc Hc1].
  fold ceil in Hc, Hc1. fold floor in Hc, Hc1.
  split; [lia|]. split; [exact Hc1|].
  split; [|split; [|split; [|split]]].
  - intros e0 e v H0 Hr Hv.
    destruct (FFX_reachable_inv _ _ _ _ _ _ H0 Hr) as [HL (I1 & _ & I3 & _)].
    assert (Hf : 4 <= floor <= 64) by (subst floor; Z.div_mod_to_equations; lia).
    assert (Hce : 4 <= ceil <= 64) by lia.
    assert (Hp : 0 < 2 ^ ceil) by (apply Z.pow_pos_nonneg; lia).
    assert (Hpw : 2 ^ ceil <= 2 ^ 64) by (apply Z.pow_le_mono_r; lia).
    assert (Hpf : 2 ^ floor <= 2 ^ 64) by (apply Z.pow_le_mono_r; lia).
    pose proof (Z.mod_pos_bound v (2 ^ ceil) Hp) as Hb.
    assert (Ha : 0 <= v / 2 ^ ceil < 2 ^ floor).
    { apply div_pow2_bound; try lia. replace (floor + ceil) with L by lia. exact Hv. }
    split.
    + rewrite FFX_split_halves_run. rewrite I1, I3. fold floor. rewrite Hc.
      rewrite land_mask_mod by lia. rewrite Z.shiftr_div_pow2 by lia.
      rewrite !Uint64_small by lia.
      eexists. split; [reflexivity|]. split; assumption.
    + intros a b Hab. rewrite FFX_join_halves_run. rewrite I1. fold floor. rewrite Hc.
      rewrite shiftl_lor_add by lia. eauto.
  - intros e0 e v Hobj Hv.
    assert (Hinv : SHAKE_inv shake128 key L e).
    { destruct Hobj as [[H0 Hr] | [H0 Hr]].
      - exact (SHAKE_reachable_inv _ _ _ _ _ H0 Hr).
      - rewrite PowerOf2_NewPowerOf2_eq in H0.
        exact (SHAKE_reachable_inv _ _ _ _ _ H0 (PowerOf2_reachable_current _ _ Hr)). }
    pose proof (SHAKE_split_join shake128 key L e v Hinv Hv) as H.
    cbv zeta in H. fold floor in H. rewrite Hc in H. exact H.
  - intros e0 H0.
    destruct (NewFFX_inv _ _ _ _ _ H0) as [HL (_ & Hr0 & _)].
    eexists. intros e v Hr Hv.
    destruct (FFX_reachable_inv _ _ _ _ _ _ H0 Hr) as [_ Hinv].
    pose proof (FFX_PermuteInPlace_feistel _ _ _ e v tweak HL Hinv Hv) as H.
    cbv zeta in H. fold floor in H. rewrite Hc in H. rewrite <- Hr0 in H. exact H.
  - intros e0 H0.
    pose proof (NewPowerOf2_inv _ _ _ _ H0) as (_ & _ & Hr0 & _).
    eexists. intros e v Hr Hv.
    pose proof (SHAKE_reachable_inv _ _ _ _ _ H0 Hr) as Hinv.
    pose proof (SHAKE_PermuteInPlace_feistel _ _ _ e v tweak Hinv Hv) as H.
    cbv zeta in H. fold floor in H. rewrite Hc in H. rewrite <- Hr0 in H. exact H.
  - intros e0 H0. rewrite PowerOf2_NewPowerOf2_eq in H0.
    pose proof (NewPowerOf2_inv _ _ _ _ H0) as (_ & _ & Hr0 & _).
    eexists. intros e v Hr Hv.
    pose proof (SHAKE_reachable_inv _ _ _ _ _ H0 (PowerOf2_reachable_current _ _ Hr))
      as Hinv.
    pose proof (SHAKE_PermuteInPlace_feistel _ _ _ e v [] Hinv Hv) as H.
    cbv zeta in H. fold floor in H. rewrite Hc in H. rewrite <- Hr0 in H.
    rewrite PowerOf2_PermuteInPlace_eq.
    destruct H as (Hs & Hou & e' & E & HF).
    split; [exact Hs|]. split; [exact Hou|].
    exists e'. split; [exact E|].
    intros round r x Hne Hx. rewrite PowerOf2_RoundFunc_eq. exact (HF round r x Hne Hx).
Qed.

Lemma halves_of_odd_width_witness :
  Z.odd 9 = true
  /\ (exists e0, FFX.NewFFX test_hkdf test_cipher mykey 9 = Ret e0
        /\ exists e', FFX.split_halves 300 e0 = (Ret (300 / 2 ^ 5, 300 mod 2 ^ 5), e'))
  /\ (exists e0, FeistelSHAKE128.NewPowerOf2 keccak.shake128 mykey 9 = Ret e0
        /\ exists e', FeistelSHAKE128.split_halves 300 e0 = (Ret tt, e')
                      /\ FeistelSHAKE128.load FeistelSHAKE128.a_ref e' = 300 / 2 ^ 4
                      /\ FeistelSHAKE128.load FeistelSHAKE128.b_ref e' = 300 mod 2 ^ 4)
  /\ (exists e0 (F : Z -> Z -> Z) e',
        FFX.NewFFX test_hkdf test_cipher mykey 9 = Ret e0
        /\ FFX.PermuteInPlace 300 [] e0
           = (Ret (fst (feistel F 36 0 (300 / 2 ^ 5) (300 mod 2 ^ 5)) * 2 ^ 5
                   + snd (feistel F 36 0 (300 / 2 ^ 5) (300 mod 2 ^ 5))), e')).
Proof.
  destruct (halves_of_odd_width test_hkdf test_cipher keccak.shake128 mykey 9 [] eq_refl)
    as (_ & _ & HF & HS & HP & _).
  split; [reflexivity|]. split; [|split].
  - eexists. split; [reflexivity|].
    destruct (HF _ _ 300 eq_refl (reachable_init _) ltac:(lia)) as ((e' & E & _) & _).
    exists e'. exact E.
  - eexists. split; [reflexivity|].
    destruct (HS _ _ 300 (or_introl (conj eq_refl (reachable_init _))) ltac:(lia))
      as ((e' & E & A & B & _) & _).
    exists e'. repeat split; assumption.
  - destruct (HP _ eq_refl) as (F & H).
    destruct (H _ 300 (reachable_init _) ltac:(lia)) as (_ & _ & e' & E & _).
    eexists _, F, e'. split; [reflexivity|]. exact E.
Defined.

(** ** Inputs outside the domain *)

(** The bound of the SHAKE engine's byte buffers is the size of the
    domain exactly when the high half fills whole bytes. *)
Lemma SHAKE_bound_tight L :
  2 <= L ->
  ((L - L / 2) mod 8 = 0 <-> 2 ^ (L / 2 + 8 * ((L - L / 2 + 7) / 8)) = 2 ^ L).
Proof.
  intros HL. split.
  - intros Hm. f_equal. Z.div_mod_to_equations. lia.
  - intros Hp. apply Z.pow_inj_r in Hp; [|lia| |]; Z.div_mod_to_equations; lia.
Qed.

(** C4, amended.  The adapter built by [NewN] panics with the
    out-of-range error, at once and leaving the object as it was, for
    every input that is at least [N]; for an input of [[0, N)] it raises no
    error: it returns a value of [[0, N)] (or the model's fuel, chosen
    below [2^lengthBits], ran out).  The fixed-domain engines make no
    range check of their own and never raise that error.
    [FFX.PermuteInPlace] returns on every integer, a value of the domain
    for an input of the domain.  [FeistelSHAKE128.PermuteInPlace], with
    [bound = 2^(lengthBits/2 + 8 * inLenBytes) >= 2^lengthBits] and
    [inLenBytes] the bytes of the buffer for the high half, returns on
    every input of [[0, bound)]: a value of the domain for an input of the
    domain, and a value outside it for an input of [[2^lengthBits, bound)];
    on an input of at least [bound] it panics in [FillBytes] of
    [math/big] (buffer too small).  [bound] is [2^lengthBits] exactly when
    the high half fills whole bytes (widths 15, 16, 31, 32, ...): there
    every input outside the domain ends in that panic. *)
Theorem range_check_of_permute
        (hkdf_Key : list byte -> list byte)
        (aes_NewCipher : list byte -> list byte -> list byte)
        (shake128 : list byte -> nat -> byte)
        (key : list byte) (tweak : list byte) :
  (forall N a0 a fuel v,
     1 <= N -> NewN hkdf_Key aes_NewCipher shake128 key N = Ret a0 ->
     reachableN a0 a -> N <= v ->
     ArbitraryN.PermuteInPlace fuel v tweak a = (Panic InputOutOfRange, a))
  /\ (forall N a0 a fuel v,
        1 <= N -> NewN hkdf_Key aes_NewCipher shake128 key N = Ret a0 ->
        reachableN a0 a -> 0 <= v < N ->
        (exists y a', ArbitraryN.PermuteInPlace fuel v tweak a = (Ret y, a')
                      /\ 0 <= y < N)
        \/ (exists a', ArbitraryN.PermuteInPlace fuel v tweak a = (OutOfFuel, a')
                       /\ (fuel < Z.to_nat (2 ^ engine_lengthBits (ArbitraryN.p a0)))%nat))
  /\ (forall L e0 e v,
        FFX.NewFFX hkdf_Key aes_NewCipher key L = Ret e0 -> reachable e0 e ->
        exists y e', FFX.PermuteInPlace v tweak e = (Ret y, e')
                     /\ (0 <= v < 2 ^ L -> 0 <= y < 2 ^ L))
  /\ (forall L e0 e v,
        FeistelSHAKE128.NewPowerOf2 shake128 key L = Ret e0 -> reachable e0 e ->
        0 <= v ->
        let bound := 2 ^ (L / 2 + 8 * ((L - L / 2 + 7) / 8)) in
        2 ^ L <= bound
        /\ ((L - L / 2) mod 8 = 0 <-> bound = 2 ^ L)
        /\ (v < bound ->
            exists y e', FeistelSHAKE128.PermuteInPlace v tweak e = (Ret y, e')
                         /\ 0 <= y < bound
                         /\ (v < 2 ^ L -> y < 2 ^ L)
                         /\ (2 ^ L <= v -> 2 ^ L <= y))
        /\ (bound <= v ->
            exists e', FeistelSHAKE128.PermuteInPlace v tweak e
                       = (Panic BufferTooSmall, e'))
        /\ fst (FeistelSHAKE128.PermuteInPlace v tweak e) <> Panic InputOutOfRange).
Proof.
  split; [|split; [|split]].
  - intros N a0 a fuel v HN H0 Hr Hv.
    destruct (NewN_adapter _ _ _ _ _ _ _ HN H0 Hr) as ((Hn & _) & _).
    apply adapter_out_of_range. lia.
  - intros N a0 a fuel v HN H0 Hr Hv.
    destruct (NewN_adapter _ _ _ _ _ _ _ HN H0 Hr) as (Ha & HNL & Hrun & Hrg & Hinj).
    assert (HL0 : engine_lengthBits (ArbitraryN.p a0) = width_of N).
    { exact (NewN_engine_lengthBits _ _ _ _ _ _ HN H0). }
    rewrite HL0.
    destruct (adapter_in_range _ _ _ Hrun Hrg N tweak fuel a v Ha Hv HNL) as (a' & E & _).
    destruct (walk _ N fuel v) as [y|] eqn:W.
    + left. exists y, a'. split; [exact E|].
      exact (adapter_range _ _ _ Hrun Hrg N tweak fuel a v y a' Ha Hv HNL E).
    + right. exists a'. split; [exact E|].
      destruct (walk_terminates _ _ (Hrg tweak) (Hinj tweak) N HNL v Hv) as (y & Wy & _).
      destruct (Nat.lt_ge_cases fuel (Z.to_nat (2 ^ width_of N))) as [Hlt | Hge];
        [exact Hlt|].
      rewrite (walk_more_fuel _ _ _ _ _ _ Wy Hge) in W. discriminate.
  - intros L e0 e v H0 Hr.
    destruct (FFX_reachable_inv _ _ _ _ _ _ H0 Hr) as [HL Hinv].
    destruct (FFX_PermuteInPlace_run _ _ _ e v tweak Hinv) as (e' & E & _).
    eexists. exists e'. split; [exact E|].
    intros Hv. apply FFX_perm_range; assumption.
  - intros L e0 e v H0 Hr Hv bound.
    pose proof (SHAKE_reachable_inv _ _ _ _ _ H0 Hr) as Hinv.
    pose proof Hinv as (_ & _ & _ & _ & HL).
    destruct (SHAKE_PermuteInPlace_any shake128 key L e v tweak Hinv Hv) as [Hlt Hge].
    fold (SHAKE_high_width L) in bound. fold bound in Hlt, Hge.
    assert (Hbound : 2 ^ L <= bound).
    { subst bound. apply Z.pow_le_mono_r; [lia|].
      pose proof (SHAKE_high_width_ge L HL). lia. }
    split; [exact Hbound|].
    split; [exact (SHAKE_bound_tight L HL)|].
    split; [|split].
    + intros Hb. destruct (Hlt Hb) as (e' & E & _).
      destruct (SHAKE_perm_wide shake128 key L tweak v HL ltac:(subst bound; lia))
        as [Hy Ho].
      exists (SHAKE_perm shake128 key L tweak v), e'.
      split; [exact E|]. split; [exact Hy|]. split; [|exact Ho].
      intros Hd. apply SHAKE_perm_range; [exact HL | lia].
    + intros Hb. destruct (Hge Hb) as (e' & E & _). eauto.
    + destruct (Z.lt_ge_cases v bound) as [Hb | Hb].
      * destruct (Hlt Hb) as (e' & E & _). rewrite E. discriminate.
      * destruct (Hge Hb) as (e' & E & _). rewrite E. discriminate.
Qed.

Lemma range_check_of_permute_witness :
  exists a0, NewN test_hkdf test_cipher keccak.shake128 mykey 5 = Ret a0
    /\ ArbitraryN.PermuteInPlace 8 5 [] a0 = (Panic InputOutOfRange, a0)
    /\ ((exists y a', ArbitraryN.PermuteInPlace 8 4 [] a0 = (Ret y, a') /\ 0 <= y < 5)
        \/ (exists a', ArbitraryN.PermuteInPlace 8 4 [] a0 = (OutOfFuel, a')
                       /\ (8 < Z.to_nat (2 ^ engine_lengthBits (ArbitraryN.p a0)))%nat)).
Proof.
  eexists. split; [reflexivity|].
  destruct (range_check_of_permute test_hkdf test_cipher keccak.shake128 mykey [])
    as (Hout & Hin & _).
  split.
  - apply (Hout 5 _ _ 8%nat 5 ltac:(lia) eq_refl (reachableN_init _)). lia.
  - apply (Hin 5 _ _ 8%nat 4 ltac:(lia) eq_refl (reachableN_init _)). lia.
Defined.

(** A fixed-domain engine does not refuse every input outside
    [[0, 2^lengthBits)]: the SHAKE engine of width 3 for the key "mykey"
    maps 8 to 9, raising no error. *)
Lemma range_check_of_permute_counterexample :
  ~ (0 <= 8 < 2 ^ 3)
  /\ call (FeistelSHAKE128.NewPowerOf2 keccak.shake128 mykey 3)
          (FeistelSHAKE128.PermuteInPlace 8 []) = Ret 9.
Proof.
  split; [lia | vm_compute; reflexivity].
Qed.
